(** * shardstore: hash ring, storage node engine and file manager

    A shallow embedding of the three core packages of the repository
    ([internal/hash], [internal/storage], [internal/manager]) and of the
    streaming handlers of [internal/server], together with the
    properties stated about them.

    Layout.
    - The model: [Crypto] (MD5, SHA-256, hex), [Hash] (the ring),
      [Errors] and [FS] (errors, effects, the file system under the
      nodes), [Storage] and [StorageRest] (the node engine), [Metadata],
      [Manager] and [ManagerRest] (records, the store interface, the file
      manager), [Server] (the handlers).
    - The vocabulary of the statements: [RingSpec], [RingLive],
      [StorageSpec], [PathSpec], [ManagerSpec], [ManagerMore],
      [ServerSpec], and the fixtures that the tests set up ([Fixtures],
      [StoreFixtures], [MoreFixtures]).
    - The proofs: [RingFacts], [StorageFacts], [ManagerFacts],
      [RingMore], [FSFrame], [StorageRestFacts], [ManagerMoreFacts],
      [ServerFacts], then one theorem per property: C1 to C10, and X1 to
      X29 for further properties of the same code.

    Conventions.
    - Go [string] values are byte strings: [String.string].
    - Go [[]byte] values are [list byte].
    - [uint32] values are [Z] in the range [0, 2^32), wrap-around written
      out with [w32].
    - Go [int] loop counters and lengths are [nat]: every one of them is a
      slice length or a bounded counter, far below 2^63. The offsets of
      the chunk loop of the server and the sizes that the node adds up
      are [Z] with the 64-bit wrap-around written out.
    - [map[K]V] values are stdpp [gmap]s; a lookup of a missing key
      returns Go's zero value, written out at each lookup. *)

From Stdlib Require Import ZArith Ascii String DecimalString.
From Stdlib.Strings Require Import Byte.
From stdpp Require Import gmap strings list fin_maps sorting finite.

Local Open Scope Z_scope.
#[local] Set Warnings "-clear-no-such-hyp,-register-all".

(** ** Digests used by the repository

    [crypto/md5] and [crypto/sha256] are Go standard library packages.
    They are written out here (RFC 1321 and FIPS 180-4) so that ring
    positions and checksums can be evaluated on concrete inputs. *)

Module Crypto.

Definition w32 (z : Z) : Z := z mod 2 ^ 32.

Definition rotl32 (x n : Z) : Z :=
  w32 (Z.lor (Z.shiftl x n) (Z.shiftr x (32 - n))).

Definition rotr32 (x n : Z) : Z :=
  w32 (Z.lor (Z.shiftr x n) (Z.shiftl x (32 - n))).

Definition not32 (x : Z) : Z := w32 (Z.lnot x).

Definition byte_to_Z (b : byte) : Z := Z.of_N (Byte.to_N b).

Definition byte_of_Z (z : Z) : byte :=
  match Byte.of_N (Z.to_N (z mod 256)) with
  | Some b => b
  | None => x00
  end.

(** Little- and big-endian encodings of a number on [n] bytes. *)
Fixpoint le_bytes (n : nat) (z : Z) : list Z :=
  match n with
  | O => []
  | S n' => z mod 256 :: le_bytes n' (z / 256)
  end.

Definition be_bytes (n : nat) (z : Z) : list Z := rev (le_bytes n z).

Definition le_word (bs : list Z) : Z :=
  foldr (fun b acc => b + 256 * acc) 0 bs.

Definition be_word (bs : list Z) : Z :=
  foldl (fun acc b => 256 * acc + b) 0 bs.

(** [chunks k n l] cuts [l] into [n] consecutive pieces of [k] elements. *)
Fixpoint chunks {A} (k n : nat) (l : list A) : list (list A) :=
  match n with
  | O => []
  | S n' => take k l :: chunks k n' (drop k l)
  end.

(** Message padding shared by both digests: a 0x80 byte, zeros up to
    56 modulo 64, then the bit length on 8 bytes. *)
Definition pad (len8 : Z -> list Z) (msg : list Z) : list Z :=
  let n := Z.of_nat (length msg) in
  msg ++ [128] ++ replicate (Z.to_nat ((55 - n) mod 64)) 0 ++ len8 (8 * n).

Definition blocks (padded : list Z) : list (list Z) :=
  chunks 64 (length padded / 64)%nat padded.

(** *** MD5 *)

Definition md5_K : list Z :=
  [ 3614090360; 3905402710; 606105819; 3250441966; 4118548399; 1200080426;
    2821735955; 4249261313; 1770035416; 2336552879; 4294925233; 2304563134;
    1804603682; 4254626195; 2792965006; 1236535329; 4129170786; 3225465664;
    643717713; 3921069994; 3593408605; 38016083; 3634488961; 3889429448;
    568446438; 3275163606; 4107603335; 1163531501; 2850285829; 4243563512;
    1735328473; 2368359562; 4294588738; 2272392833; 1839030562; 4259657740;
    2763975236; 1272893353; 4139469664; 3200236656; 681279174; 3936430074;
    3572445317; 76029189; 3654602809; 3873151461; 530742520; 3299628645;
    4096336452; 1126891415; 2878612391; 4237533241; 1700485571; 2399980690;
    4293915773; 2240044497; 1873313359; 4264355552; 2734768916; 1309151649;
    4149444226; 3174756917; 718787259; 3951481745 ].

Definition md5_S : list Z :=
  [ 7; 12; 17; 22; 7; 12; 17; 22; 7; 12; 17; 22; 7; 12; 17; 22;
    5; 9; 14; 20; 5; 9; 14; 20; 5; 9; 14; 20; 5; 9; 14; 20;
    4; 11; 16; 23; 4; 11; 16; 23; 4; 11; 16; 23; 4; 11; 16; 23;
    6; 10; 15; 21; 6; 10; 15; 21; 6; 10; 15; 21; 6; 10; 15; 21 ].

Definition md5_state : Type := Z * Z * Z * Z.

Definition md5_init : md5_state :=
  (1732584193, 4023233417, 2562383102, 271733878).

Definition md5_step (M : list Z) (st : md5_state) (i : nat) : md5_state :=
  let '(a, b, c, d) := st in
  let '(f, g) :=
    if (i <? 16)%nat then
      (Z.lor (Z.land b c) (Z.land (not32 b) d), i)
    else if (i <? 32)%nat then
      (Z.lor (Z.land d b) (Z.land (not32 d) c), ((5 * i + 1) mod 16)%nat)
    else if (i <? 48)%nat then
      (Z.lxor (Z.lxor b c) d, ((3 * i + 5) mod 16)%nat)
    else
      (Z.lxor c (Z.lor b (not32 d)), ((7 * i) mod 16)%nat) in
  let f' := w32 (f + a + md5_K !!! i + M !!! g) in
  (d, w32 (b + rotl32 f' (md5_S !!! i)), b, c).

Definition md5_block (st : md5_state) (blk : list Z) : md5_state :=
  let M := le_word <$> chunks 4 16 blk in
  let '(a, b, c, d) := foldl (md5_step M) st (seq 0 64) in
  let '(a0, b0, c0, d0) := st in
  (w32 (a0 + a), w32 (b0 + b), w32 (c0 + c), w32 (d0 + d)).

(** [md5.Sum]: the 16 digest bytes. *)
Definition md5_Sum (data : list byte) : list byte :=
  let '(a, b, c, d) :=
    foldl md5_block md5_init (blocks (pad (le_bytes 8) (byte_to_Z <$> data))) in
  byte_of_Z <$> (le_bytes 4 a ++ le_bytes 4 b ++ le_bytes 4 c ++ le_bytes 4 d).

(** *** SHA-256 *)

Definition sha256_K : list Z :=
  [ 1116352408; 1899447441; 3049323471; 3921009573; 961987163; 1508970993;
    2453635748; 2870763221; 3624381080; 310598401; 607225278; 1426881987;
    1925078388; 2162078206; 2614888103; 3248222580; 3835390401; 4022224774;
    264347078; 604807628; 770255983; 1249150122; 1555081692; 1996064986;
    2554220882; 2821834349; 2952996808; 3210313671; 3336571891; 3584528711;
    113926993; 338241895; 666307205; 773529912; 1294757372; 1396182291;
    1695183700; 1986661051; 2177026350; 2456956037; 2730485921; 2820302411;
    3259730800; 3345764771; 3516065817; 3600352804; 4094571909; 275423344;
    430227734; 506948616; 659060556; 883997877; 958139571; 1322822218;
    1537002063; 1747873779; 1955562222; 2024104815; 2227730452; 2361852424;
    2428436474; 2756734187; 3204031479; 3329325298 ].

Definition sha256_init : list Z :=
  [ 1779033703; 3144134277; 1013904242; 2773480762;
    1359893119; 2600822924; 528734635; 1541459225 ].

(** Message schedule: [w] holds the words computed so far, newest first. *)
Definition sha256_extend (w : list Z) (_ : nat) : list Z :=
  let w2 := w !!! 1%nat in
  let w7 := w !!! 6%nat in
  let w15 := w !!! 14%nat in
  let w16 := w !!! 15%nat in
  let s0 := Z.lxor (Z.lxor (rotr32 w15 7) (rotr32 w15 18)) (Z.shiftr w15 3) in
  let s1 := Z.lxor (Z.lxor (rotr32 w2 17) (rotr32 w2 19)) (Z.shiftr w2 10) in
  w32 (w16 + s0 + w7 + s1) :: w.

Definition sha256_schedule (blk : list Z) : list Z :=
  rev (foldl sha256_extend (rev (be_word <$> chunks 4 16 blk)) (seq 16 48)).

Definition sha256_round (W : list Z) (st : list Z) (i : nat) : list Z :=
  match st with
  | [a; b; c; d; e; f; g; h] =>
      let S1 := Z.lxor (Z.lxor (rotr32 e 6) (rotr32 e 11)) (rotr32 e 25) in
      let ch := Z.lxor (Z.land e f) (Z.land (not32 e) g) in
      let t1 := w32 (h + S1 + ch + sha256_K !!! i + W !!! i) in
      let S0 := Z.lxor (Z.lxor (rotr32 a 2) (rotr32 a 13)) (rotr32 a 22) in
      let maj := Z.lxor (Z.lxor (Z.land a b) (Z.land a c)) (Z.land b c) in
      let t2 := w32 (S0 + maj) in
      [w32 (t1 + t2); a; b; c; w32 (d + t1); e; f; g]
  | _ => st
  end.

Definition sha256_block (st : list Z) (blk : list Z) : list Z :=
  let W := sha256_schedule blk in
  zip_with (fun x y => w32 (x + y)) st (foldl (sha256_round W) st (seq 0 64)).

(** The eight state words after the last block. *)
Definition sha256_words (data : list byte) : list Z :=
  foldl sha256_block sha256_init (blocks (pad (be_bytes 8) (byte_to_Z <$> data))).

(** [sha256.Sum256]: the 32 digest bytes. *)
Definition sha256_Sum256 (data : list byte) : list byte :=
  byte_of_Z <$> (sha256_words data ≫= be_bytes 4).

(** *** encoding/hex *)

Definition hex_digit (z : Z) : ascii :=
  if z <? 10 then ascii_of_N (Z.to_N (48 + z)) else ascii_of_N (Z.to_N (87 + z)).

(** [hex.EncodeToString]: two lowercase digits per byte. *)
Fixpoint hex_EncodeToString (bs : list byte) : string :=
  match bs with
  | [] => EmptyString
  | b :: bs' =>
      String (hex_digit (byte_to_Z b / 16))
        (String (hex_digit (byte_to_Z b mod 16)) (hex_EncodeToString bs'))
  end.

End Crypto.

(** ** Package [hash]: the consistent-hash ring *)

Module Hash.

Definition DefaultVirtualNodes : Z := 150.

(** [ConsistentHash]: the sorted position slice, the position-to-node map
    and the two configuration integers (the mutex is not modelled: every
    method holds it from entry to exit, so methods are atomic steps). *)
Record ConsistentHash : Type := mkRing {
  hashRing : list Z;
  nodes : gmap Z string;
  virtualNodes : Z;
  replicaFactor : Z
}.

Definition NewConsistentHash (virtualNodes replicaFactor : Z) : ConsistentHash :=
  let virtualNodes := if virtualNodes <=? 0 then DefaultVirtualNodes else virtualNodes in
  let replicaFactor := if replicaFactor <=? 0 then 2 else replicaFactor in
  {| hashRing := []; nodes := ∅;
     virtualNodes := virtualNodes; replicaFactor := replicaFactor |}.

(** [hashKey]: the first four MD5 bytes, big-endian. *)
Definition hashKey (key : string) : Z :=
  let hash := Crypto.byte_to_Z <$> Crypto.md5_Sum (list_byte_of_string key) in
  Z.lor (Z.lor (Z.lor (Z.shiftl (hash !!! 0%nat) 24) (Z.shiftl (hash !!! 1%nat) 16))
               (Z.shiftl (hash !!! 2%nat) 8))
        (hash !!! 3%nat).

(** [fmt.Sprintf("%s#%d", nodeID, i)] for a loop counter [i >= 0]. *)
Definition virtualKey (nodeID : string) (i : nat) : string :=
  (nodeID ++ "#" ++ NilEmpty.string_of_uint (Nat.to_uint i))%string.

(** [sort.Search(n, f)] of the Go standard library: binary search for the
    smallest index in [0, n] from which [f] holds. The interval [i, j)
    shrinks at every iteration, so [n] iterations are enough. *)
Fixpoint sort_Search_loop (fuel : nat) (f : nat -> bool) (i j : nat) : nat :=
  match fuel with
  | O => i
  | S fuel' =>
      if (i <? j)%nat then
        let h := ((i + j) / 2)%nat in
        if f h then sort_Search_loop fuel' f i h
        else sort_Search_loop fuel' f (h + 1)%nat j
      else i
  end.

Definition sort_Search (n : nat) (f : nat -> bool) : nat :=
  sort_Search_loop n f 0%nat n.

(** [sort.Slice] with the comparison [ring[i] < ring[j]]. A sorted list of
    integers is determined by its elements, so any sorting function
    returns what Go's returns. *)
Definition sort_Slice (ring : list Z) : list Z := merge_sort Z.le ring.

(** One iteration of the loop of [AddNode]. *)
Definition AddNode_step (nodeID : string) (ch : ConsistentHash) (i : nat)
  : ConsistentHash :=
  let hash := hashKey (virtualKey nodeID i) in
  {| hashRing := hashRing ch ++ [hash];
     nodes := <[hash := nodeID]> (nodes ch);
     virtualNodes := virtualNodes ch; replicaFactor := replicaFactor ch |}.

Definition AddNode (nodeID : string) (ch : ConsistentHash) : ConsistentHash :=
  let ch' := foldl (AddNode_step nodeID) ch (seq 0 (Z.to_nat (virtualNodes ch))) in
  {| hashRing := sort_Slice (hashRing ch'); nodes := nodes ch';
     virtualNodes := virtualNodes ch'; replicaFactor := replicaFactor ch' |}.

(** One iteration of the loop of [RemoveNode]. *)
Definition RemoveNode_step (nodeID : string) (ch : ConsistentHash) (i : nat)
  : ConsistentHash :=
  let hash := hashKey (virtualKey nodeID i) in
  let ring := hashRing ch in
  let idx := sort_Search (length ring) (fun i => hash <=? ring !!! i) in
  let ring' :=
    if (idx <? length ring)%nat && (ring !!! idx =? hash)
    then take idx ring ++ drop (idx + 1) ring
    else ring in
  {| hashRing := ring'; nodes := delete hash (nodes ch);
     virtualNodes := virtualNodes ch; replicaFactor := replicaFactor ch |}.

Definition RemoveNode (nodeID : string) (ch : ConsistentHash) : ConsistentHash :=
  foldl (RemoveNode_step nodeID) ch (seq 0 (Z.to_nat (virtualNodes ch))).

(** [search]: first index whose position is [>= hash], wrapping to 0. *)
Definition search (ch : ConsistentHash) (hash : Z) : nat :=
  let idx := sort_Search (length (hashRing ch))
               (fun i => hash <=? hashRing ch !!! i) in
  if (length (hashRing ch) <=? idx)%nat then 0%nat else idx.

(** The loop of [GetNodes], [n] being the number of ring entries left to
    visit: it stops when [replicaFactor] nodes are collected or when
    [i] reaches the ring length. A position missing from the map reads
    as the empty string, and a node missing from [nodeSet] as [false]. *)
Fixpoint GetNodes_loop (ch : ConsistentHash) (idx : nat) (n i : nat)
    (nodeSet : gmap string bool) (nodes_ : list string) : list string :=
  match n with
  | O => nodes_
  | S n' =>
      if Z.of_nat (length nodes_) <? replicaFactor ch then
        let ringIdx := ((idx + i) mod length (hashRing ch))%nat in
        let nodeID := default EmptyString (nodes ch !! (hashRing ch !!! ringIdx)) in
        if default false (nodeSet !! nodeID)
        then GetNodes_loop ch idx n' (i + 1)%nat nodeSet nodes_
        else GetNodes_loop ch idx n' (i + 1)%nat
               (<[nodeID := true]> nodeSet) (nodes_ ++ [nodeID])
      else nodes_
  end.

Definition GetNodes (key : string) (ch : ConsistentHash) : list string :=
  if (length (hashRing ch) =? 0)%nat then []
  else
    let hash := hashKey key in
    let idx := search ch hash in
    GetNodes_loop ch idx (length (hashRing ch)) 0%nat ∅ [].

Definition GetPrimaryNode (key : string) (ch : ConsistentHash) : string :=
  match GetNodes key ch with
  | n :: _ => n
  | [] => EmptyString
  end.

(** [GetAllNodes]: the distinct values of the position-to-node map, in
    no particular order. *)
Definition GetAllNodes (ch : ConsistentHash) : list string :=
  elements (map_img (nodes ch) : gset string).

End Hash.


(** ** Errors and effects *)

Module Errors.

(** Error numbers returned by the file system calls that the storage
    node uses. *)
Inductive errno : Type := ENOENT | ENOTDIR | EISDIR | ENOTEMPTY | EINVAL.

(** Go [error] values: a path error of package [os], an error made by
    [fmt.Errorf] without a wrapped error, one made with [%w] (the wrapped
    error may be nil), and an error of a type declared elsewhere (the
    metadata backends return such errors). [Panic] is not an error value:
    it stands for a run-time panic, which ends the computation too. *)
Inductive error : Type :=
  | PathError (op : string) (path : list string) (e : errno)
  | ErrorString (msg : string)
  | WrapError (msg : string) (err : option error)
  | CustomError (type msg : string)
  | Panic (msg : string).

(** Computations that read and write a state [S] and either fail with
    an [error] or return a value. *)
Definition io (S A : Type) : Type := S -> S * (error + A).

Definition ret {S A : Type} (a : A) : io S A := fun s => (s, inr a).

Definition fail {S A : Type} (e : error) : io S A := fun s => (s, inl e).

Definition bind {S A B : Type} (m : io S A) (k : A -> io S B) : io S B :=
  fun s =>
    match m s with
    | (s', inl e) => (s', inl e)
    | (s', inr a) => k a s'
    end.

(** The state, read. *)
Definition gets {S A : Type} (f : S -> A) : io S A := fun s => (s, inr (f s)).

(** [attempt m] runs [m] and hands its error, if any, to the caller
    (Go's [if err := ...; err != nil]). *)
Definition attempt {S A : Type} (m : io S A) : io S (error + A) :=
  fun s => let '(s', r) := m s in (s', inr r).

End Errors.

Notation "'do' x <- c1 ; c2" := (Errors.bind c1 (fun x => c2))
  (at level 10, x name, c1 at level 100, c2 at level 200).
Notation "'do' '_' <- c1 ; c2" := (Errors.bind c1 (fun _ => c2))
  (at level 10, c1 at level 100, c2 at level 200).

(** ** The file system under the storage nodes

    A tree of directories and regular files, without symbolic links.
    A path is the list of its names from the root. The identifiers that
    the storage node joins to its storage path are arbitrary strings:
    [Join] cleans them as [filepath.Join] does. *)

Module FS.
Import Errors.

Inductive fsnode : Type :=
  | File (content : list byte)
  | Dir (entries : gmap string fsnode).

Definition path : Type := list string.

(** [walk p n]: the node found at path [p] below [n]. *)
Fixpoint walk (p : path) (n : fsnode) : errno + fsnode :=
  match p with
  | [] => inr n
  | x :: p' =>
      match n with
      | File _ => inl ENOTDIR
      | Dir m =>
          match m !! x with
          | None => inl ENOENT
          | Some c => walk p' c
          end
      end
  end.

(** [in_dir p g n]: apply [g] to the entries of the directory at [p]. *)
Fixpoint in_dir (p : path)
    (g : gmap string fsnode -> errno + gmap string fsnode) (n : fsnode)
  : errno + fsnode :=
  match n with
  | File _ => inl ENOTDIR
  | Dir m =>
      match p with
      | [] =>
          match g m with
          | inl e => inl e
          | inr m' => inr (Dir m')
          end
      | x :: p' =>
          match m !! x with
          | None => inl ENOENT
          | Some c =>
              match in_dir p' g c with
              | inl e => inl e
              | inr c' => inr (Dir (<[x := c']> m))
              end
          end
      end
  end.

(** A path is the directory that holds it and its last component. *)
Fixpoint path_split (p : path) : option (path * string) :=
  match p with
  | [] => None
  | x :: p' =>
      match path_split p' with
      | None => Some ([], x)
      | Some (d, name) => Some (x :: d, name)
      end
  end.

(** [os.MkdirAll]: creates the missing directories of the path; fails on
    a regular file in the way, before anything is created. *)
Fixpoint MkdirAll (p : path) (n : fsnode) : errno + fsnode :=
  match n with
  | File _ => inl ENOTDIR
  | Dir m =>
      match p with
      | [] => inr (Dir m)
      | x :: p' =>
          match MkdirAll p' (default (Dir ∅) (m !! x)) with
          | inl e => inl e
          | inr c => inr (Dir (<[x := c]> m))
          end
      end
  end.

(** [os.WriteFile]: creates or truncates the regular file at the path,
    whose directory must exist. *)
Definition WriteFile (p : path) (data : list byte) (n : fsnode) : errno + fsnode :=
  match path_split p with
  | None => inl EISDIR
  | Some (d, name) =>
      in_dir d (fun m =>
        match m !! name with
        | Some (Dir _) => inl EISDIR
        | _ => inr (<[name := File data]> m)
        end) n
  end.

(** [os.ReadFile]. *)
Definition ReadFile (p : path) (n : fsnode) : errno + list byte :=
  match walk p n with
  | inl e => inl e
  | inr (File data) => inr data
  | inr (Dir _) => inl EISDIR
  end.

(** [os.RemoveAll]: removes the path and what it contains; a path that
    does not exist is not an error, a regular file in the way is. The
    root itself is refused, here and in [Remove]: the node reaches it
    only with identifiers that climb out of its storage path all the
    way up, and what the calls do then is not modelled. *)
Definition RemoveAll (p : path) (n : fsnode) : errno + fsnode :=
  match path_split p with
  | None => inl EINVAL
  | Some (d, name) =>
      match in_dir d (fun m => inr (delete name m)) n with
      | inl ENOENT => inr n
      | r => r
      end
  end.

(** [os.ReadDir]: the entries of a directory (Go returns them sorted by
    name; the storage node only counts them). *)
Definition ReadDir (p : path) (n : fsnode) : errno + list (string * fsnode) :=
  match walk p n with
  | inl e => inl e
  | inr (File _) => inl ENOTDIR
  | inr (Dir m) => inr (map_to_list m)
  end.

(** [os.Remove]: removes a regular file or an empty directory. *)
Definition Remove (p : path) (n : fsnode) : errno + fsnode :=
  match path_split p with
  | None => inl EINVAL
  | Some (d, name) =>
      in_dir d (fun m =>
        match m !! name with
        | None => inl ENOENT
        | Some (File _) => inr (delete name m)
        | Some (Dir e) =>
            match map_to_list e with
            | [] => inr (delete name m)
            | _ :: _ => inl ENOTEMPTY
            end
        end) n
  end.

(** [os.Stat] as far as the storage node uses it: does the path exist. *)
Definition Stat (p : path) (n : fsnode) : errno + unit :=
  match walk p n with
  | inl e => inl e
  | inr _ => inr tt
  end.

(** [strings.Split(s, "/")]: the pieces between the separators. *)
Fixpoint split_slash (s : string) : list string :=
  match s with
  | EmptyString => [EmptyString]
  | String c s' =>
      if decide (c = "/"%char) then EmptyString :: split_slash s'
      else
        match split_slash s' with
        | [] => [String c EmptyString]
        | x :: xs => String c x :: xs
        end
  end.

(** One element of a path under [filepath.Clean]: an empty element and
    [.] are dropped, [..] takes the element before it away (and is
    dropped at the root), any other name is kept. *)
Definition clean_step (acc : path) (c : string) : path :=
  if decide (c = EmptyString) then acc
  else if decide (c = "."%string) then acc
  else if decide (c = ".."%string) then removelast acc
  else acc ++ [c].

(** [filepath.Join(base, elems...)], for a directory [base] given by
    its names from the root: the elements are joined with separators and
    the result is cleaned, so an element may add no name, several names,
    or take names of [base] away. *)
Definition Join (base : path) (elems : list string) : path :=
  foldl clean_step base (elems ≫= split_slash).

(** A call that changes the file system, as a computation. *)
Definition update (op : string) (p : path) (f : fsnode -> errno + fsnode)
  : io fsnode unit :=
  fun fs =>
    match f fs with
    | inl e => (fs, inl (PathError op p e))
    | inr fs' => (fs', inr tt)
    end.

(** A call that only reads the file system, as a computation. *)
Definition query {A : Type} (op : string) (p : path) (f : fsnode -> errno + A)
  : io fsnode A :=
  fun fs =>
    match f fs with
    | inl e => (fs, inl (PathError op p e))
    | inr a => (fs, inr a)
    end.

End FS.

(** ** Package [storage]: the storage node engine *)

Module Storage.
Import Errors FS.

(** [Node]: identifier and storage path (the mutex is not modelled:
    every method holds it from entry to exit). The storage path is the
    directory of the node as the list of its names from the root. *)
Record Node : Type := mkNode {
  ID : string;
  StoragePath : path
}.

(** [filepath.Join(n.StoragePath, fileID, versionID)]. *)
Definition versionPath (n : Node) (fileID versionID : string) : path :=
  Join (StoragePath n) [fileID; versionID].

(** [filepath.Join(n.StoragePath, fileID)]: the container of the
    versions of a file ([filePath] in [DeleteFile] and
    [DeleteAllVersions]). *)
Definition containerPath (n : Node) (fileID : string) : path :=
  Join (StoragePath n) [fileID].

Definition ErrChecksumMismatch : error :=
  ErrorString "checksum mismatch: data corrupted".

(** [NewNode]: creates the storage directory if it is missing. *)
Definition NewNode (id : string) (storagePath : path) : io fsnode Node :=
  do _ <- FS.update "mkdir" storagePath (MkdirAll storagePath);
  ret {| ID := id; StoragePath := storagePath |}.

(** [calculateChecksum]: hex-encoded SHA-256 digest. *)
Definition calculateChecksum (data : list byte) : string :=
  Crypto.hex_EncodeToString (Crypto.sha256_Sum256 data).

Definition StoreFile (n : Node) (fileID versionID : string) (data : list byte)
  : io fsnode unit :=
  let versionPath := versionPath n fileID versionID in
  do _ <- FS.update "mkdir" versionPath (MkdirAll versionPath);
  let filePath := versionPath ++ ["data"%string] in
  do _ <- FS.update "open" filePath (WriteFile filePath data);
  let checksum := calculateChecksum data in
  let checksumPath := versionPath ++ ["checksum"%string] in
  FS.update "open" checksumPath
    (WriteFile checksumPath (list_byte_of_string checksum)).

Definition RetrieveFile (n : Node) (fileID versionID : string)
  : io fsnode (list byte) :=
  let versionPath := versionPath n fileID versionID in
  let filePath := versionPath ++ ["data"%string] in
  do data <- FS.query "open" filePath (ReadFile filePath);
  let checksumPath := versionPath ++ ["checksum"%string] in
  do storedChecksum <- FS.query "open" checksumPath (ReadFile checksumPath);
  let calculatedChecksum := calculateChecksum data in
  if decide (calculatedChecksum = string_of_list_byte storedChecksum)
  then ret data
  else fail ErrChecksumMismatch.

Definition DeleteFile (n : Node) (fileID versionID : string) : io fsnode unit :=
  let versionPath := versionPath n fileID versionID in
  do _ <- FS.update "unlinkat" versionPath (RemoveAll versionPath);
  let filePath := containerPath n fileID in
  do entries <- FS.query "open" filePath (ReadDir filePath);
  if (length entries =? 0)%nat
  then FS.update "remove" filePath (Remove filePath)
  else ret tt.

Definition DeleteAllVersions (n : Node) (fileID : string) : io fsnode unit :=
  let filePath := containerPath n fileID in
  FS.update "unlinkat" filePath (RemoveAll filePath).

Definition FileExists (n : Node) (fileID versionID : string) (fs : fsnode) : bool :=
  let versionPath := versionPath n fileID versionID in
  let filePath := versionPath ++ ["data"%string] in
  match Stat filePath fs with
  | inl _ => false
  | inr _ => true
  end.

End Storage.

(** ** Package [metadata]: records and the store interface *)

Module Metadata.
Import Errors.

(** [time.Time] and [primitive.ObjectID]; 0 is the zero value of each. *)
Definition Time : Type := Z.
Definition ObjectID : Type := Z.

Module Version.
Record t : Type := mk {
  VersionID : string;
  Size : Z;
  Nodes : list string;
  CreatedAt : Time
}.
End Version.

Module FileMetadata.
Record t : Type := mk {
  ID : ObjectID;
  FileID : string;
  Filename : string;
  Size : Z;
  ContentType : string;
  Versions : list Version.t;
  Replicas : list string;
  CreatedAt : Time;
  UpdatedAt : Time
}.
End FileMetadata.

(** The [Store] interface. [SaveMetadata] is handed a pointer to the
    record and both backends stamp it, so it returns the record as the
    call leaves it. *)
Class Store (S : Type) : Type := {
  SaveMetadata : FileMetadata.t -> io S FileMetadata.t;
  GetMetadata : string -> io S FileMetadata.t;
  DeleteMetadata : string -> io S unit;
  ListMetadata : Z -> Z -> io S (list FileMetadata.t * Z);
  AddVersion : string -> Version.t -> io S unit;
  Close : io S unit
}.

End Metadata.

(** ** Package [manager]: the file manager *)

Module Manager.
Import Errors FS Storage Hash Metadata.

(** [FileManager]: the node registry, the ring, the metadata store and
    the replica factor. *)
Record FileManager (S : Type) : Type := mkFileManager {
  nodes : gmap string Node;
  hashRing : ConsistentHash;
  metadataStore : S;
  replicaFactor : Z
}.
Arguments mkFileManager {S}.
Arguments nodes {S}.
Arguments hashRing {S}.
Arguments metadataStore {S}.
Arguments replicaFactor {S}.

(** The calls that the file manager makes on storage nodes and on the
    metadata store, with their outcome. *)
Inductive Call : Type :=
  | StoreFileCall (nodeID fileID versionID : string) (ok : bool)
  | RetrieveFileCall (nodeID fileID versionID : string) (ok : bool)
  | DeleteFileCall (nodeID fileID versionID : string) (ok : bool)
  | DeleteAllVersionsCall (nodeID fileID : string) (ok : bool)
  | SaveMetadataCall (fileID : string) (ok : bool)
  | GetMetadataCall (fileID : string) (ok : bool)
  | DeleteMetadataCall (fileID : string) (ok : bool).

(** What a method of the file manager reads and writes: the manager
    itself, the file system under the storage nodes, and the log of the
    calls made so far. *)
Record World (S : Type) : Type := mkWorld {
  fm : FileManager S;
  disk : fsnode;
  calls : list Call
}.
Arguments mkWorld {S}.
Arguments fm {S}.
Arguments disk {S}.
Arguments calls {S}.

Definition is_ok {A : Type} (r : error + A) : bool :=
  match r with inl _ => false | inr _ => true end.

Section WithStore.
Context {S : Type} `{!Store S}.

(** A method of a storage node, called by the file manager. *)
Definition node_call {A : Type} (c : bool -> Call) (m : io fsnode A)
  : io (World S) A :=
  fun w =>
    let '(d, r) := m (disk w) in
    ({| fm := fm w; disk := d; calls := calls w ++ [c (is_ok r)] |}, r).

(** A method of the metadata store, called by the file manager. *)
Definition store_call {A : Type} (c : bool -> Call) (m : io S A)
  : io (World S) A :=
  fun w =>
    let '(s, r) := m (metadataStore (fm w)) in
    ({| fm := {| nodes := nodes (fm w); hashRing := hashRing (fm w);
                 metadataStore := s; replicaFactor := replicaFactor (fm w) |};
        disk := disk w; calls := calls w ++ [c (is_ok r)] |}, r).

Definition NewFileManager (metadataStore : S) (replicaFactor : Z) : FileManager S :=
  {| nodes := ∅;
     hashRing := NewConsistentHash 150 replicaFactor;
     metadataStore := metadataStore;
     replicaFactor := replicaFactor |}.

Definition RegisterNode (nodeID : string) (storagePath : path) : io (World S) unit :=
  fun w =>
    match NewNode nodeID storagePath (disk w) with
    | (d, inl err) => ({| fm := fm w; disk := d; calls := calls w |}, inl err)
    | (d, inr node) =>
        ({| fm := {| nodes := <[nodeID := node]> (nodes (fm w));
                     hashRing := AddNode nodeID (hashRing (fm w));
                     metadataStore := metadataStore (fm w);
                     replicaFactor := replicaFactor (fm w) |};
            disk := d; calls := calls w |}, inr tt)
    end.

Definition UnregisterNode (nodeID : string) : io (World S) unit :=
  fun w =>
    ({| fm := {| nodes := delete nodeID (nodes (fm w));
                 hashRing := RemoveNode nodeID (hashRing (fm w));
                 metadataStore := metadataStore (fm w);
                 replicaFactor := replicaFactor (fm w) |};
        disk := disk w; calls := calls w |}, inr tt).

(** What [UploadFile] takes from its environment: the two identifiers
    that [uuid.New] returns and the three readings of [time.Now]. *)
Record UploadEnv : Type := mkUploadEnv {
  env_fileID : string;
  env_versionID : string;
  env_versionCreatedAt : Time;
  env_createdAt : Time;
  env_updatedAt : Time
}.

(** The loop of [UploadFile] that stores the file on the replica nodes:
    a node missing from the registry is skipped, a failed store is
    logged and skipped, a successful one is appended to [storedNodes]. *)
Fixpoint store_replicas (nodeIDs : list string) (fileID versionID : string)
    (data : list byte) (storedNodes : list string) : io (World S) (list string) :=
  match nodeIDs with
  | [] => ret storedNodes
  | nodeID :: rest =>
      do registry <- gets (fun w => nodes (fm w));
      match registry !! nodeID with
      | None => store_replicas rest fileID versionID data storedNodes
      | Some node =>
          do r <- attempt (node_call (StoreFileCall nodeID fileID versionID)
                             (StoreFile node fileID versionID data));
          match r with
          | inl _ => store_replicas rest fileID versionID data storedNodes
          | inr _ =>
              store_replicas rest fileID versionID data (storedNodes ++ [nodeID])
          end
      end
  end.

(** [cleanupFailedUpload]: deletes the version from the listed nodes
    that are in the registry; the result of each delete is dropped. *)
Fixpoint cleanupFailedUpload (fileID versionID : string) (nodeIDs : list string)
  : io (World S) unit :=
  match nodeIDs with
  | [] => ret tt
  | nodeID :: rest =>
      do registry <- gets (fun w => nodes (fm w));
      match registry !! nodeID with
      | None => cleanupFailedUpload fileID versionID rest
      | Some node =>
          do _ <- attempt (node_call (DeleteFileCall nodeID fileID versionID)
                             (DeleteFile node fileID versionID));
          cleanupFailedUpload fileID versionID rest
      end
  end.

(** The record that [UploadFile] builds before saving it. *)
Definition upload_record (env : UploadEnv) (filename : string) (data : list byte)
    (contentType : string) (storedNodes : list string) : FileMetadata.t :=
  {| FileMetadata.ID := 0;
     FileMetadata.FileID := env_fileID env;
     FileMetadata.Filename := filename;
     FileMetadata.Size := Z.of_nat (length data);
     FileMetadata.ContentType := contentType;
     FileMetadata.Replicas := storedNodes;
     FileMetadata.Versions :=
       [ {| Version.VersionID := env_versionID env;
            Version.Size := Z.of_nat (length data);
            Version.Nodes := storedNodes;
            Version.CreatedAt := env_versionCreatedAt env |} ];
     FileMetadata.CreatedAt := env_createdAt env;
     FileMetadata.UpdatedAt := env_updatedAt env |}.

Definition UploadFile (env : UploadEnv) (filename : string) (data : list byte)
    (contentType : string) : io (World S) FileMetadata.t :=
  let fileID := env_fileID env in
  let versionID := env_versionID env in
  do nodeIDs <- gets (fun w => GetNodes fileID (hashRing (fm w)));
  if (length nodeIDs =? 0)%nat then
    fail (ErrorString "no storage nodes available")
  else
    do storedNodes <- store_replicas nodeIDs fileID versionID data [];
    if (length storedNodes =? 0)%nat then
      fail (ErrorString "failed to store file on any node")
    else
      let fileMetadata := upload_record env filename data contentType storedNodes in
      do saved <- attempt (store_call (SaveMetadataCall fileID)
                             (SaveMetadata fileMetadata));
      match saved with
      | inl err =>
          do _ <- cleanupFailedUpload fileID versionID storedNodes;
          fail err
      | inr fileMetadata => ret fileMetadata
      end.

(** The search of [DownloadFile] for a version by its identifier: the
    first match. *)
Fixpoint find_version (versions : list Version.t) (versionID : string)
  : option Version.t :=
  match versions with
  | [] => None
  | v :: rest =>
      if decide (Version.VersionID v = versionID) then Some v
      else find_version rest versionID
  end.

(** The loop of [DownloadFile] over the nodes of the target version. *)
Fixpoint retrieve_replicas (nodeIDs : list string) (fileID versionID : string)
    (lastErr : option error) : io (World S) (list byte) :=
  match nodeIDs with
  | [] => fail (WrapError "failed to retrieve file from any replica" lastErr)
  | nodeID :: rest =>
      do registry <- gets (fun w => nodes (fm w));
      match registry !! nodeID with
      | None => retrieve_replicas rest fileID versionID lastErr
      | Some node =>
          do r <- attempt (node_call (RetrieveFileCall nodeID fileID versionID)
                             (RetrieveFile node fileID versionID));
          match r with
          | inr data => ret data
          | inl err => retrieve_replicas rest fileID versionID (Some err)
          end
      end
  end.

Definition DownloadFile (fileID versionID : string)
  : io (World S) (list byte * FileMetadata.t) :=
  do got <- attempt (store_call (GetMetadataCall fileID) (GetMetadata fileID));
  match got with
  | inl err => fail (WrapError "file not found" (Some err))
  | inr fileMeta =>
      let versions := FileMetadata.Versions fileMeta in
      do targetVersion <-
        (if decide (versionID = EmptyString) then
           if (length versions =? 0)%nat then
             fail (ErrorString "no versions available")
           else
             match versions !! (length versions - 1)%nat with
             | Some v => ret v
             | None => fail (Panic "index out of range")
             end
         else
           match find_version versions versionID with
           | Some v => ret v
           | None => fail (ErrorString "version not found")
           end);
      do data <- retrieve_replicas (Version.Nodes targetVersion) fileID
                   (Version.VersionID targetVersion) None;
      ret (data, fileMeta)
  end.

(** The loop of [DeleteFile] over the replicas of the record. *)
Fixpoint delete_replicas (nodeIDs : list string) (fileID : string)
  : io (World S) unit :=
  match nodeIDs with
  | [] => ret tt
  | nodeID :: rest =>
      do registry <- gets (fun w => nodes (fm w));
      match registry !! nodeID with
      | None => delete_replicas rest fileID
      | Some node =>
          do _ <- attempt (node_call (DeleteAllVersionsCall nodeID fileID)
                             (DeleteAllVersions node fileID));
          delete_replicas rest fileID
      end
  end.

Definition DeleteFile (fileID : string) : io (World S) unit :=
  do got <- attempt (store_call (GetMetadataCall fileID) (GetMetadata fileID));
  match got with
  | inl err => fail (WrapError "file not found" (Some err))
  | inr fileMeta =>
      do _ <- delete_replicas (FileMetadata.Replicas fileMeta) fileID;
      store_call (DeleteMetadataCall fileID) (DeleteMetadata fileID)
  end.

Definition GetFileInfo (fileID : string) : io (World S) FileMetadata.t :=
  store_call (GetMetadataCall fileID) (GetMetadata fileID).

Definition GetVersion (fileID versionID : string) : io (World S) (list byte) :=
  do r <- DownloadFile fileID versionID;
  ret (fst r).

Definition GetNodeCount (w : World S) : nat := size (nodes (fm w)).

End WithStore.

(** [MockMetadataStore] of the tests of the package: the records by
    fileID, with the clock and the fresh object identifier that its
    [SaveMetadata] reads. *)
Record MockMetadataStore : Type := mkMock {
  files : gmap string FileMetadata.t;
  mock_now : Time;
  mock_oid : ObjectID
}.

Definition NewMockMetadataStore (now : Time) (oid : ObjectID) : MockMetadataStore :=
  {| files := ∅; mock_now := now; mock_oid := oid |}.

Definition ErrFileNotFound : error := CustomError "MockError" "file not found".

#[global] Instance MockMetadataStore_Store : Store MockMetadataStore := {|
  SaveMetadata meta := fun m =>
    let meta :=
      {| FileMetadata.ID :=
           if FileMetadata.ID meta =? 0 then mock_oid m else FileMetadata.ID meta;
         FileMetadata.FileID := FileMetadata.FileID meta;
         FileMetadata.Filename := FileMetadata.Filename meta;
         FileMetadata.Size := FileMetadata.Size meta;
         FileMetadata.ContentType := FileMetadata.ContentType meta;
         FileMetadata.Versions := FileMetadata.Versions meta;
         FileMetadata.Replicas := FileMetadata.Replicas meta;
         FileMetadata.CreatedAt :=
           if FileMetadata.CreatedAt meta =? 0 then mock_now m
           else FileMetadata.CreatedAt meta;
         FileMetadata.UpdatedAt := mock_now m |} in
    ({| files := <[FileMetadata.FileID meta := meta]> (files m);
        mock_now := mock_now m; mock_oid := mock_oid m |}, inr meta);
  GetMetadata fileID := fun m =>
    match files m !! fileID with
    | Some meta => (m, inr meta)
    | None => (m, inl ErrFileNotFound)
    end;
  DeleteMetadata fileID := fun m =>
    ({| files := delete fileID (files m);
        mock_now := mock_now m; mock_oid := mock_oid m |}, inr tt);
  ListMetadata page pageSize := fun m =>
    let all := (map_to_list (files m)).*2 in
    (m, inr (all, Z.of_nat (length all)));
  AddVersion fileID version := fun m =>
    match files m !! fileID with
    | None => (m, inl ErrFileNotFound)
    | Some meta =>
        let meta :=
          {| FileMetadata.ID := FileMetadata.ID meta;
             FileMetadata.FileID := FileMetadata.FileID meta;
             FileMetadata.Filename := FileMetadata.Filename meta;
             FileMetadata.Size := FileMetadata.Size meta;
             FileMetadata.ContentType := FileMetadata.ContentType meta;
             FileMetadata.Versions := FileMetadata.Versions meta ++ [version];
             FileMetadata.Replicas := FileMetadata.Replicas meta;
             FileMetadata.CreatedAt := FileMetadata.CreatedAt meta;
             FileMetadata.UpdatedAt := mock_now m |} in
        ({| files := <[fileID := meta]> (files m);
            mock_now := mock_now m; mock_oid := mock_oid m |}, inr tt)
    end;
  Close := fun m => (m, inr tt)
|}.

End Manager.

(** ** Package [storage]: the remaining methods of the node *)

Module StorageRest.
Import Errors FS Storage.




(** The order of [os.ReadDir]: by file name, byte by byte. *)
Definition name_le (a b : string * fsnode) : Prop := String.leb a.1 b.1 = true.

#[global] Instance name_le_dec : RelDecision name_le.
Proof. intros a b. unfold name_le. apply _. Defined.

(** [os.ReadDir] with its order. *)
Definition ReadDir_sorted (p : path) (n : fsnode) : errno + list (string * fsnode) :=
  match ReadDir p n with
  | inl e => inl e
  | inr entries => inr (merge_sort name_le entries)
  end.

Definition IsDir (n : fsnode) : bool :=
  match n with
  | Dir _ => true
  | File _ => false
  end.

(** [ListFiles]: the names of the directories in the storage path. *)
Definition ListFiles (n : Node) : io fsnode (list string) :=
  do entries <- FS.query "open" (StoragePath n) (ReadDir_sorted (StoragePath n));
  ret (fst <$> filter (fun entry => IsDir entry.2 = true) entries).

(** An [io.Reader] as [io.Copy] sees it: the chunks that the reads hand
    out, then end of file or an error. *)
Record Reader : Type := mkReader {
  reads : list (list byte);
  read_err : option error
}.

(** [file.Write] on the file that [os.Create] has opened: the bytes go
    to the end of the file. *)
Definition AppendFile (p : path) (data : list byte) (n : fsnode) : errno + fsnode :=
  match path_split p with
  | None => inl EISDIR
  | Some (d, name) =>
      in_dir d (fun m =>
        match m !! name with
        | Some (File content) => inr (<[name := File (content ++ data)]> m)
        | Some (Dir _) => inl EISDIR
        | None => inl ENOENT
        end) n
  end.

(** [io.Copy] into the [io.MultiWriter] of the file and the hasher:
    every chunk is written to the file, then to the hasher, whose state
    is the bytes written to it so far. *)
Fixpoint copy_chunks (filePath : path) (chunks : list (list byte)) (hashed : list byte)
  : io fsnode (list byte) :=
  match chunks with
  | [] => ret hashed
  | chunk :: rest =>
      do _ <- FS.update "write" filePath (AppendFile filePath chunk);
      copy_chunks filePath rest (hashed ++ chunk)
  end.

Definition ReplicateFile (n : Node) (fileID versionID : string) (source : Reader)
  : io fsnode unit :=
  let versionPath := versionPath n fileID versionID in
  do _ <- FS.update "mkdir" versionPath (MkdirAll versionPath);
  let filePath := versionPath ++ ["data"%string] in
  do _ <- FS.update "open" filePath (WriteFile filePath []);
  do hashed <- copy_chunks filePath (reads source) [];
  match read_err source with
  | Some err => fail err
  | None =>
      let checksum := Crypto.hex_EncodeToString (Crypto.sha256_Sum256 hashed) in
      let checksumPath := versionPath ++ ["checksum"%string] in
      FS.update "open" checksumPath
        (WriteFile checksumPath (list_byte_of_string checksum))
  end.

End StorageRest.

(** ** Package [manager]: the health check *)

Module ManagerRest.
Import Errors FS Storage Hash Metadata Manager StorageRest.


End ManagerRest.

(** ** Package [server]: the streaming handlers *)

Module Server.
Import Errors FS Storage Hash Metadata Manager.

(** 1MB chunks. *)
Definition maxChunkSize : Z := 1024 * 1024.

(** Go's [int] on the 64-bit targets of the server: two's complement
    wrap-around. *)
Definition wrap64 (z : Z) : Z := (z + 2 ^ 63) mod 2 ^ 64 - 2 ^ 63.

Module UploadRequest.
Record t : Type := mk {
  Filename : string;
  ContentType : string;
  Chunk : list byte
}.
End UploadRequest.

(** The text of [UploadResponse.Message]: a literal, or the literal
    prefix that [fmt.Sprintf] puts before the [%v] rendering of an
    error. *)
Inductive message : Type :=
  | Text (s : string)
  | Sprintf_v (prefix : string) (err : error).

Module UploadResponse.
Record t : Type := mk {
  FileId : string;
  VersionId : string;
  Size : Z;
  NodeLocations : list string;
  Success : bool;
  Message : message
}.
End UploadResponse.

Module DownloadResponse.
Record t : Type := mk {
  Chunk : list byte;
  TotalSize : Z;
  ContentType : string
}.
End DownloadResponse.

(** The client side of an upload, as the handler sees it through
    [stream.Recv]: the requests, then [io.EOF] or an error. *)
Record UploadStream : Type := mkUploadStream {
  requests : list UploadRequest.t;
  recv_err : option error
}.

(** The server side of a download: [stream.Send]. *)
Class DownloadStream (T : Type) : Type := {
  Send : DownloadResponse.t -> io T unit
}.

(** A stream that delivers every message: the messages sent so far. *)
#[global] Instance list_DownloadStream : DownloadStream (list DownloadResponse.t) := {|
  Send msg := fun sent => (sent ++ [msg], inr tt)
|}.

(** [data[lo:hi]]; Go panics when the bounds are out of range. *)
Definition slice (data : list byte) (lo hi : Z) : error + list byte :=
  if (0 <=? lo) && (lo <=? hi) && (hi <=? Z.of_nat (length data))
  then inr (take (Z.to_nat (hi - lo)) (drop (Z.to_nat lo) data))
  else inl (Panic "slice bounds out of range").

(** The receive loop of [Upload]: the name and the content type are
    taken from a request as long as no name has been seen, and every
    chunk is appended to the buffer. *)
Fixpoint receive (reqs : list UploadRequest.t) (filename contentType : string)
    (buffer : list byte) : string * string * list byte :=
  match reqs with
  | [] => (filename, contentType, buffer)
  | req :: rest =>
      let '(filename, contentType) :=
        if decide (filename = EmptyString)
        then (UploadRequest.Filename req, UploadRequest.ContentType req)
        else (filename, contentType) in
      receive rest filename contentType (buffer ++ UploadRequest.Chunk req)
  end.

Section WithStore.
Context {St : Type} `{!Store St}.

(** [Upload]: the response that the handler hands to
    [stream.SendAndClose], or the error it returns before. *)
Definition Upload (env : UploadEnv) (stream : UploadStream)
  : io (World St) UploadResponse.t :=
  let '(filename, contentType, buffer) :=
    receive (requests stream) EmptyString EmptyString [] in
  match recv_err stream with
  | Some err => fail (WrapError "error receiving chunk" (Some err))
  | None =>
      do uploaded <- attempt (UploadFile env filename buffer contentType);
      match uploaded with
      | inl err =>
          ret {| UploadResponse.FileId := EmptyString;
                 UploadResponse.VersionId := EmptyString;
                 UploadResponse.Size := 0;
                 UploadResponse.NodeLocations := [];
                 UploadResponse.Success := false;
                 UploadResponse.Message := Sprintf_v "Upload failed: " err |}
      | inr metadata =>
          let versions := FileMetadata.Versions metadata in
          match versions !! (length versions - 1)%nat with
          | None => fail (Panic "index out of range")
          | Some last =>
              ret {| UploadResponse.FileId := FileMetadata.FileID metadata;
                     UploadResponse.VersionId := Version.VersionID last;
                     UploadResponse.Size := FileMetadata.Size metadata;
                     UploadResponse.NodeLocations := FileMetadata.Replicas metadata;
                     UploadResponse.Success := true;
                     UploadResponse.Message := Text "File uploaded successfully" |}
          end
      end
  end.

Section WithStream.
Context {T : Type} `{!DownloadStream T}.

(** The chunk loop of [Download] and [GetVersion]. The loop variable
    grows by [maxChunkSize] in every round, so [len(data)] rounds and the
    final test are all the loop can take: the handlers start it with
    that much fuel. *)
Fixpoint send_chunks (fuel : nat) (data : list byte) (totalSize : Z)
    (contentType : string) (offset : Z) : io T unit :=
  match fuel with
  | O => fail (Panic "out of fuel")
  | Datatypes.S fuel' =>
      if offset <? Z.of_nat (length data) then
        let end_ := wrap64 (offset + maxChunkSize) in
        let end_ := if end_ >? Z.of_nat (length data) then Z.of_nat (length data) else end_ in
        match slice data offset end_ with
        | inl p => fail p
        | inr chunk =>
            do sent <- attempt (Send {| DownloadResponse.Chunk := chunk;
                                        DownloadResponse.TotalSize := totalSize;
                                        DownloadResponse.ContentType := contentType |});
            match sent with
            | inl err => fail (WrapError "error sending chunk" (Some err))
            | inr _ =>
                send_chunks fuel' data totalSize contentType
                  (wrap64 (offset + maxChunkSize))
            end
        end
      else ret tt
  end.

Definition Download (fileID versionID : string) : io (World St * T) unit :=
  fun '(w, t) =>
    match DownloadFile fileID versionID w with
    | (w', inl err) => ((w', t), inl (WrapError "download failed" (Some err)))
    | (w', inr (data, metadata)) =>
        let totalSize := Z.of_nat (length data) in
        let '(t', r) :=
          send_chunks (Datatypes.S (length data)) data totalSize
            (FileMetadata.ContentType metadata) 0 t in
        ((w', t'), r)
    end.

Definition GetVersion (fileID versionID : string) : io (World St * T) unit :=
  fun '(w, t) =>
    match Manager.GetVersion fileID versionID w with
    | (w', inl err) => ((w', t), inl (WrapError "version not found" (Some err)))
    | (w', inr data) =>
        let totalSize := Z.of_nat (length data) in
        let '(t', r) :=
          send_chunks (Datatypes.S (length data)) data totalSize EmptyString 0 t in
        ((w', t'), r)
    end.

End WithStream.
End WithStore.

End Server.
(** ** Vocabulary for the properties of the ring *)

Module RingSpec.
Import Hash.

(** The ring positions of the virtual nodes [0 .. v-1] of a node. *)
Definition positions (nodeID : string) (v : nat) : list Z :=
  (fun i => hashKey (virtualKey nodeID i)) <$> seq 0 v.

(** Sequences of ring mutations. *)
Inductive RingOp : Type :=
  | OpAddNode (nodeID : string)
  | OpRemoveNode (nodeID : string).

#[global] Instance RingOp_eq_dec : EqDecision RingOp.
Proof. solve_decision. Defined.

Definition op_node (op : RingOp) : string :=
  match op with OpAddNode n => n | OpRemoveNode n => n end.

Definition apply_op (ch : ConsistentHash) (op : RingOp) : ConsistentHash :=
  match op with
  | OpAddNode n => AddNode n ch
  | OpRemoveNode n => RemoveNode n ch
  end.

Definition apply_ops (ops : list RingOp) (ch : ConsistentHash) : ConsistentHash :=
  foldl apply_op ch ops.

(** A ring state is reachable when the constructor followed by some
    sequence of mutations produces it. *)
Definition Reachable (ch : ConsistentHash) : Prop :=
  exists v r ops, ch = apply_ops ops (NewConsistentHash v r).

(** Every value of the map sits at one of its own virtual positions. *)
Definition owners_at_positions (ch : ConsistentHash) : Prop :=
  forall h n, nodes ch !! h = Some n ->
    h ∈ positions n (Z.to_nat (virtualNodes ch)).

(** [absent n ch]: no position of the map is owned by [n]. *)
Definition absent (n : string) (ch : ConsistentHash) : Prop :=
  forall h, nodes ch !! h <> Some n.

(** The owner read by [GetNodes] at a ring index. *)
Definition owner_at (ch : ConsistentHash) (j : nat) : string :=
  default EmptyString (nodes ch !! (hashRing ch !!! j)).

(** Every key of the map is a ring position. *)
Definition keys_on_ring (ch : ConsistentHash) : Prop :=
  forall h, is_Some (nodes ch !! h) -> h ∈ hashRing ch.

(** Every position of the ordered sequence has an owner in the map. *)
Definition no_stale_positions (ch : ConsistentHash) : Prop :=
  Forall (fun h => is_Some (nodes ch !! h)) (hashRing ch).

#[global] Instance no_stale_positions_dec (ch : ConsistentHash) :
  Decision (no_stale_positions ch).
Proof. unfold no_stale_positions. apply _. Defined.

(** No position is shared by the virtual nodes of two different nodes
    of [U]. *)
Definition collision_free (v : nat) (U : list string) : Prop :=
  Forall (fun n =>
    Forall (fun m => n <> m -> Forall (fun h => h ∉ positions m v) (positions n v)) U) U.

#[global] Instance collision_free_dec (v : nat) (U : list string) :
  Decision (collision_free v U).
Proof. unfold collision_free. apply _. Defined.

(** [AddNode] is only called for a node that [GetAllNodes] does not
    report at that time. *)
Fixpoint adds_fresh (ops : list RingOp) (ch : ConsistentHash) : Prop :=
  match ops with
  | [] => True
  | op :: ops' =>
      match op with
      | OpAddNode n => n ∉ GetAllNodes ch
      | OpRemoveNode _ => True
      end /\ adds_fresh ops' (apply_op ch op)
  end.

(** The ring holds exactly the virtual positions of the nodes of [P]:
    the state reached by adding each node once, without collisions. *)
Definition ring_tracks (P : list string) (ch : ConsistentHash) : Prop :=
  let v := Z.to_nat (virtualNodes ch) in
  NoDup P /\
  StronglySorted Z.le (hashRing ch) /\
  hashRing ch ≡ₚ P ≫= (fun n => positions n v) /\
  (forall h m, nodes ch !! h = Some m <-> m ∈ P /\ h ∈ positions m v).

(** The nodes that are registered after a sequence of mutations: those
    added and not removed since, each once. *)
Definition register_step (P : list string) (op : RingOp) : list string :=
  match op with
  | OpAddNode n => if decide (n ∈ P) then P else P ++ [n]
  | OpRemoveNode n => filter (fun m => m <> n) P
  end.

Definition registered (ops : list RingOp) : list string :=
  foldl register_step [] ops.

End RingSpec.


(** ** Vocabulary for the properties of the storage node *)

Module StorageSpec.
Import Errors FS Storage.

(** The version is retrievable: [RetrieveFile] returns its bytes. *)
Definition retrievable (n : Node) (fileID versionID : string)
    (data : list byte) (fs : fsnode) : Prop :=
  RetrieveFile n fileID versionID fs = (fs, inr data).

(** An identifier that is one name of a path: not empty, not [.] or
    [..], without a separator. The identifiers that the coordinator
    mints with [uuid.New] are of this kind, and so is every name found
    in a directory. *)
Definition proper_name (s : string) : Prop :=
  s <> EmptyString /\ s <> "."%string /\ s <> ".."%string /\ split_slash s = [s].

#[global] Instance proper_name_dec (s : string) : Decision (proper_name s).
Proof. unfold proper_name. apply _. Defined.





#[global] Instance byte_eq_dec : EqDecision byte := Byte.byte_eq_dec.

(** The 256 bytes: the digest argument counts them. *)
Definition all_bytes : list byte :=
  omap Byte.of_nat (seq 0 256).

#[global] Program Instance byte_finite : Finite byte := {| enum := all_bytes |}.
Next Obligation. apply (bool_decide_unpack _). vm_compute. exact I. Qed.
Next Obligation.
  intros b. unfold all_bytes. apply list_elem_of_omap.
  exists (Byte.to_nat b). split; [|apply Byte.of_to_nat].
  apply elem_of_seq. pose proof (Byte.to_nat_bounded b). lia.
Qed.

End StorageSpec.

(** ** Vocabulary for the properties of the file manager *)

Module ManagerSpec.
Import Errors FS Storage Hash Metadata Manager.

(** The nodes of the successful [StoreFile] calls of a log, in order. *)
Definition stored_ok (cs : list Call) : list string :=
  omap (fun c => match c with
                 | StoreFileCall n _ _ true => Some n
                 | _ => None
                 end) cs.

(** The call is a [DeleteFile] of the version on the node. *)
Definition is_delete_of (fileID versionID nodeID : string) (c : Call) : Prop :=
  exists ok, c = DeleteFileCall nodeID fileID versionID ok.

(** The nodes of a list that are in the registry, in order. *)
Definition in_registry (registry : gmap string Node) (nodeIDs : list string)
  : list string :=
  filter (fun n => is_Some (registry !! n)) nodeIDs.

(** Version selection, after the words of the specification: with a
    version identifier, the version of the list that has exactly this
    identifier, and "version not found" when there is none; without one,
    the last element of the list (the rule is silent on an empty
    list). *)
Definition select_version_spec (versions : list Version.t) (versionID : string)
  : option (error + Version.t) :=
  if decide (versionID = EmptyString) then inr <$> last versions
  else
    match List.find (fun v => bool_decide (Version.VersionID v = versionID)) versions with
    | Some v => Some (inr v)
    | None => Some (inl (ErrorString "version not found"))
    end.

(** The results of [RetrieveFile] on the recorded nodes that are in the
    live registry, in the recorded order. *)
Definition attempts (registry : gmap string Node) (fs : fsnode)
    (fileID versionID : string) (nodeIDs : list string)
  : list (error + list byte) :=
  (fun node => snd (RetrieveFile node fileID versionID fs))
    <$> omap (fun n => registry !! n) nodeIDs.

Fixpoint first_success (rs : list (error + list byte)) : option (list byte) :=
  match rs with
  | [] => None
  | inr data :: _ => Some data
  | inl _ :: rest => first_success rest
  end.

Definition last_error (rs : list (error + list byte)) : option error :=
  last (omap (fun r => match r with inl e => Some e | inr _ => None end) rs).

(** Replica failover, after the words of the specification: the bytes
    of the first successful retrieve, and when every attempt fails the
    wrapped error that carries the last error observed. *)
Definition failover_spec (registry : gmap string Node) (fs : fsnode)
    (fileID : string) (target : Version.t) : error + list byte :=
  let rs := attempts registry fs fileID (Version.VersionID target)
              (Version.Nodes target) in
  match first_success rs with
  | Some data => inr data
  | None => inl (WrapError "failed to retrieve file from any replica" (last_error rs))
  end.

(** A metadata backend that cannot be reached: every call fails. *)
Definition ErrUnreachable : error :=
  CustomError "mongo.ServerError" "server selection timeout".

Inductive Unreachable : Type := unreachable.

#[global] Instance Unreachable_Store : Store Unreachable := {|
  SaveMetadata _ := fail ErrUnreachable;
  GetMetadata _ := fail ErrUnreachable;
  DeleteMetadata _ := fail ErrUnreachable;
  ListMetadata _ _ := fail ErrUnreachable;
  AddVersion _ _ := fail ErrUnreachable;
  Close := ret tt
|}.

End ManagerSpec.

(** ** Fixtures: the worlds that the tests of the repository set up *)

Module Fixtures.
Import Errors FS Storage Hash Metadata Manager ManagerSpec.

(** A file manager with three registered nodes over the mock store,
    as the tests of the package set it up. *)
Definition test_world : World MockMetadataStore :=
  Eval vm_compute in
  fst ((do _ <- RegisterNode "test-node-1" ["tmp"; "test-node-1"]%string;
        do _ <- RegisterNode "test-node-2" ["tmp"; "test-node-2"]%string;
        RegisterNode "test-node-3" ["tmp"; "test-node-3"]%string)
         {| fm := NewFileManager (NewMockMetadataStore 1700000000 1) 2;
            disk := Dir ∅; calls := [] |}).

Definition test_env : UploadEnv :=
  {| env_fileID := "0b9c7f2e-file";
     env_versionID := "5d1a3c44-version";
     env_versionCreatedAt := 1700000001;
     env_createdAt := 1700000002;
     env_updatedAt := 1700000003 |}.

(** The same registry, ring and disk over a metadata backend that cannot
    be reached. *)
Definition test_world_unreachable : World Unreachable :=
  Eval vm_compute in
  {| fm := {| nodes := nodes (fm test_world);
              hashRing := hashRing (fm test_world);
              metadataStore := unreachable;
              replicaFactor := 2 |};
     disk := disk test_world; calls := [] |}.

(** The world after [UploadFile("a.txt", "hello", "text/plain")]. *)
Definition test_uploaded : World MockMetadataStore :=
  Eval vm_compute in
  fst (UploadFile test_env "a.txt" (list_byte_of_string "hello") "text/plain"
         test_world).

Definition test_record : FileMetadata.t :=
  Eval vm_compute in
  match snd (GetMetadata "0b9c7f2e-file" (metadataStore (fm test_uploaded))) with
  | inr meta => meta
  | inl _ => upload_record test_env "a.txt" [] "text/plain" []
  end.

(** A record without versions, saved in the mock store. *)
Definition test_world_no_versions : World MockMetadataStore :=
  Eval vm_compute in
  fst (store_call (SaveMetadataCall "empty-file")
         (SaveMetadata
            {| FileMetadata.ID := 0; FileMetadata.FileID := "empty-file";
               FileMetadata.Filename := "empty.txt"; FileMetadata.Size := 0;
               FileMetadata.ContentType := "text/plain";
               FileMetadata.Versions := []; FileMetadata.Replicas := [];
               FileMetadata.CreatedAt := 0; FileMetadata.UpdatedAt := 0 |})
         test_world).

(** The version of [test_record]. *)
Definition test_version : Version.t :=
  Eval vm_compute in
  default (Version.mk EmptyString 0 [] 0) (last (FileMetadata.Versions test_record)).

(** The record without versions of [test_world_no_versions]. *)
Definition test_record_no_versions : FileMetadata.t :=
  Eval vm_compute in
  default test_record
    (files (metadataStore (fm test_world_no_versions)) !! "empty-file"%string).

(** The world and the nodes that the store loop of the upload leaves
    when the metadata backend cannot be reached. *)
Definition test_stored_unreachable : World Unreachable * list string :=
  Eval vm_compute in
  match store_replicas (GetNodes "0b9c7f2e-file" (hashRing (fm test_world_unreachable)))
          "0b9c7f2e-file" "5d1a3c44-version" (list_byte_of_string "hello") []
          test_world_unreachable with
  | (w1, inr storedNodes) => (w1, storedNodes)
  | (w1, inl _) => (w1, [])
  end.

End Fixtures.

(** ** Further vocabulary: the nodes that a sequence of mutations leaves *)

Module RingLive.
Import Hash RingSpec.

(** The nodes added and not removed since, in the order of their last
    registration. *)
Definition live_step (P : list string) (op : RingOp) : list string :=
  match op with
  | OpAddNode n => P ++ [n]
  | OpRemoveNode n => filter (fun m => m <> n) P
  end.

Definition live (ops : list RingOp) : list string := foldl live_step [] ops.

End RingLive.

(** ** Further vocabulary: paths that part ways *)

Module PathSpec.
Import FS.

(** Two paths diverge when, after a common prefix, they continue with
    different components: neither lies inside the other. *)
Definition diverge (p q : path) : Prop :=
  exists c x y r1 r2, x <> y /\ p = c ++ x :: r1 /\ q = c ++ y :: r2.

(** The decision procedure for [diverge]. *)
Fixpoint divergeb (p q : path) : bool :=
  match p, q with
  | x :: p', y :: q' => if decide (x = y) then divergeb p' q' else true
  | _, _ => false
  end.

End PathSpec.

(** A node with two versions of one file and one version of another,
    fixed once for the examples of the storage properties. *)
Module StoreFixtures.
Import Errors FS Storage.

Definition test_node : Node := mkNode "node-1" ["data"; "node-1"]%string.

Definition test_disk : fsnode :=
  Eval vm_compute in
    fst ((do _ <- NewNode "node-1" ["data"; "node-1"]%string;
          do _ <- StoreFile test_node "file-1" "v1" (list_byte_of_string "Version 1");
          do _ <- StoreFile test_node "file-1" "v2" (list_byte_of_string "Version 2");
          StoreFile test_node "file-2" "v1" (list_byte_of_string "other")) (Dir ∅)).

End StoreFixtures.

(** ** Further vocabulary for the file manager *)

Module ManagerMore.
Import Errors FS Storage Hash Metadata Manager ManagerSpec PathSpec.

(** The storage directories of the registered nodes lie side by side:
    none is inside another, no two are the same. *)
Definition disjoint_storage (registry : gmap string Node) : Prop :=
  map_Forall (fun a na =>
    map_Forall (fun b nb =>
      a <> b -> divergeb (StoragePath na) (StoragePath nb) = true) registry) registry.

#[global] Instance disjoint_storage_dec (registry : gmap string Node) :
  Decision (disjoint_storage registry).
Proof. unfold disjoint_storage. apply _. Defined.

Definition is_dir (r : errno + fsnode) : bool :=
  match r with
  | inr (Dir _) => true
  | _ => false
  end.

(** The storage directory of every registered node exists. *)
Definition storage_dirs_exist (registry : gmap string Node) (fs : fsnode) : Prop :=
  map_Forall (fun _ node => is_dir (walk (StoragePath node) fs) = true) registry.

#[global] Instance storage_dirs_exist_dec (registry : gmap string Node) (fs : fsnode) :
  Decision (storage_dirs_exist registry fs).
Proof. unfold storage_dirs_exist. apply _. Defined.

(** The call is a [StoreFile] of the version on the node. *)
Definition is_store_of (fileID versionID nodeID : string) (c : Call) : Prop :=
  exists ok, c = StoreFileCall nodeID fileID versionID ok.

(** The call is a [RetrieveFile] of a version of the file on a node of
    the registry. *)
Definition is_retrieve_from (registry : gmap string Node) (fileID : string)
    (c : Call) : Prop :=
  exists nodeID versionID ok,
    c = RetrieveFileCall nodeID fileID versionID ok /\ is_Some (registry !! nodeID).

(** The call is a [DeleteAllVersions] of the file on the node. *)
Definition is_delete_all_of (fileID nodeID : string) (c : Call) : Prop :=
  exists ok, c = DeleteAllVersionsCall nodeID fileID ok.

(** What a download may leave behind: the disk, the registry and the
    ring as they were, and in the log the metadata read followed by
    retrieves of the file on registered nodes. *)
Definition download_footprint {S : Type} (fileID : string) (w w' : World S) : Prop :=
  disk w' = disk w /\ nodes (fm w') = nodes (fm w) /\
  hashRing (fm w') = hashRing (fm w) /\
  exists ok retrieves,
    calls w' = calls w ++ GetMetadataCall fileID ok :: retrieves /\
    Forall (is_retrieve_from (nodes (fm w)) fileID) retrieves.

(** The call is a failed [StoreFile] of the version. *)
Definition is_failed_store (fileID versionID : string) (c : Call) : Prop :=
  exists nodeID, c = StoreFileCall nodeID fileID versionID false.

End ManagerMore.

(** A file manager whose ring has lost track of its only node: the node
    was registered twice and unregistered once, which leaves positions
    without an owner on the ring and nothing in the registry. *)
Module MoreFixtures.
Import Errors FS Storage Hash Metadata Manager ManagerSpec Fixtures.

Definition test_world_stale : World MockMetadataStore :=
  Eval vm_compute in
  fst ((do _ <- RegisterNode "test-node-1" ["tmp"; "test-node-1"]%string;
        do _ <- RegisterNode "test-node-1" ["tmp"; "test-node-1"]%string;
        UnregisterNode "test-node-1")
         {| fm := NewFileManager (NewMockMetadataStore 1700000000 1) 2;
            disk := Dir ∅; calls := [] |}).

End MoreFixtures.

(** ** Vocabulary for the streaming handlers *)

Module ServerSpec.
Import Errors FS Storage Hash Metadata Manager Server.

(** The messages are a chunking of [data]: put together in order they
    give [data], none is empty, none exceeds [maxChunkSize], and all but
    the last have exactly that size. *)
Definition chunking (data : list byte) (msgs : list DownloadResponse.t) : Prop :=
  concat (DownloadResponse.Chunk <$> msgs) = data /\
  Forall (fun m => 0 < Z.of_nat (length (DownloadResponse.Chunk m)) <= maxChunkSize) msgs /\
  (forall i m, msgs !! i = Some m -> (i + 1 < length msgs)%nat ->
     Z.of_nat (length (DownloadResponse.Chunk m)) = maxChunkSize).

(** The first request that carries a file name. *)
Definition first_named (reqs : list UploadRequest.t) : option UploadRequest.t :=
  List.find (fun r => bool_decide (UploadRequest.Filename r <> EmptyString)) reqs.

(** A client that sends a file in three requests and ends the stream. *)
Definition test_stream : UploadStream :=
  {| requests :=
       [ UploadRequest.mk "a.txt" "text/plain" (list_byte_of_string "he");
         UploadRequest.mk "b.txt" "text/html" (list_byte_of_string "l");
         UploadRequest.mk EmptyString EmptyString (list_byte_of_string "lo") ];
     recv_err := None |}.

End ServerSpec.
(** ** Test vectors *)

Example md5_empty :
  Crypto.hex_EncodeToString (Crypto.md5_Sum []) = "d41d8cd98f00b204e9800998ecf8427e"%string.
Proof. vm_compute. reflexivity. Qed.

Example md5_abc :
  Crypto.hex_EncodeToString (Crypto.md5_Sum (list_byte_of_string "abc"))
  = "900150983cd24fb0d6963f7d28e17f72"%string.
Proof. vm_compute. reflexivity. Qed.

Example sha256_empty :
  Crypto.hex_EncodeToString (Crypto.sha256_Sum256 [])
  = "e3b0c44298fc1c149afbf4c8996fb92427ae41e4649b934ca495991b7852b855"%string.
Proof. vm_compute. reflexivity. Qed.

Example sha256_abc :
  Crypto.hex_EncodeToString (Crypto.sha256_Sum256 (list_byte_of_string "abc"))
  = "ba7816bf8f01cfea414140de5dae2223b00361a396177a9cb410ff61f20015ad"%string.
Proof. vm_compute. reflexivity. Qed.

Example hashKey_test_key : Hash.hashKey "test-key" = 1393779313.
Proof. vm_compute. reflexivity. Qed.

Example virtualKey_12 : Hash.virtualKey "node-1" 12 = "node-1#12"%string.
Proof. vm_compute. reflexivity. Qed.



Example store_then_retrieve :
  let n := Storage.mkNode "test-node" ["tmp"%string] in
  let data := list_byte_of_string "Test data for retrieval" in
  snd ((do _ <- Storage.StoreFile n "file-1" "version-1" data;
        Storage.RetrieveFile n "file-1" "version-1") (FS.Dir ∅))
  = inr data.
Proof. vm_compute. reflexivity. Qed.

Example retrieve_missing :
  let n := Storage.mkNode "test-node" ["tmp"%string] in
  snd (Storage.RetrieveFile n "non-existing" "version-1" (FS.Dir ∅))
  = inl (Errors.PathError "open" ["tmp"; "non-existing"; "version-1"; "data"]%string
           Errors.ENOENT).
Proof. vm_compute. reflexivity. Qed.

Example delete_last_version_removes_directory :
  let n := Storage.mkNode "test-node" [] in
  fst ((do _ <- Storage.StoreFile n "file-3" "v1" (list_byte_of_string "Only version");
        Storage.DeleteFile n "file-3" "v1") (FS.Dir ∅))
  = FS.Dir ∅.
Proof. vm_compute. reflexivity. Qed.

Example Join_names :
  FS.Join ["tmp"; "node"]%string ["file-1"; "v1"]%string
  = ["tmp"; "node"; "file-1"; "v1"]%string.
Proof. vm_compute. reflexivity. Qed.

Example Join_empty_element :
  FS.Join ["tmp"; "node"]%string ["file-1"%string; EmptyString]
  = ["tmp"; "node"; "file-1"]%string.
Proof. vm_compute. reflexivity. Qed.

Example Join_dot_dot :
  FS.Join ["tmp"; "node"]%string ["file-1"; ".."]%string = ["tmp"; "node"]%string /\
  FS.Join ["tmp"; "node"]%string [".."; "../.."; "x"]%string = ["x"%string].
Proof. vm_compute. split; reflexivity. Qed.

Example Join_separators :
  FS.Join ["tmp"]%string ["a/b"; "./c//d/"]%string = ["tmp"; "a"; "b"; "c"; "d"]%string.
Proof. vm_compute. reflexivity. Qed.
(** ** Properties of the ring *)

Module RingFacts.
Import Hash RingSpec.

Section loops.
Variable nodeID : string.

Let pos (i : nat) : Z := hashKey (virtualKey nodeID i).

Lemma AddNode_loop_config (l : list nat) (ch : ConsistentHash) :
    virtualNodes (foldl (AddNode_step nodeID) ch l) = virtualNodes ch /\
    replicaFactor (foldl (AddNode_step nodeID) ch l) = replicaFactor ch.
Proof.
    revert ch; induction l as [|i l IH]; intros ch; simpl; [done|].
    destruct (IH (AddNode_step nodeID ch i)) as [-> ->]. done.
Qed.

Lemma AddNode_loop_ring (l : list nat) (ch : ConsistentHash) :
    hashRing (foldl (AddNode_step nodeID) ch l) = hashRing ch ++ (pos <$> l).
Proof.
    revert ch; induction l as [|i l IH]; intros ch; simpl.
    - by rewrite app_nil_r.
    - rewrite IH. simpl. by rewrite <- app_assoc.
Qed.

Lemma AddNode_loop_nodes (l : list nat) (ch : ConsistentHash) (h : Z) :
    nodes (foldl (AddNode_step nodeID) ch l) !! h
    = if decide (h ∈ pos <$> l) then Some nodeID else nodes ch !! h.
Proof.
    revert ch; induction l as [|i l IH]; intros ch; [done|].
    rewrite fmap_cons. cbn [foldl]. rewrite IH. cbn [nodes AddNode_step].
    destruct (decide (h = pos i)) as [->|Hne].
    - rewrite lookup_insert_eq. repeat case_decide; set_solver.
    - rewrite lookup_insert_ne by done. repeat case_decide; set_solver.
Qed.

Lemma RemoveNode_loop_config (l : list nat) (ch : ConsistentHash) :
    virtualNodes (foldl (RemoveNode_step nodeID) ch l) = virtualNodes ch /\
    replicaFactor (foldl (RemoveNode_step nodeID) ch l) = replicaFactor ch.
Proof.
    revert ch; induction l as [|i l IH]; intros ch; simpl; [done|].
    destruct (IH (RemoveNode_step nodeID ch i)) as [-> ->]. done.
Qed.

Lemma RemoveNode_loop_nodes (l : list nat) (ch : ConsistentHash) (h : Z) :
    nodes (foldl (RemoveNode_step nodeID) ch l) !! h
    = if decide (h ∈ pos <$> l) then None else nodes ch !! h.
Proof.
    revert ch; induction l as [|i l IH]; intros ch; [done|].
    rewrite fmap_cons. cbn [foldl]. rewrite IH. cbn [nodes RemoveNode_step].
    destruct (decide (h = pos i)) as [->|Hne].
    - rewrite lookup_delete_eq. repeat case_decide; set_solver.
    - rewrite lookup_delete_ne by done. repeat case_decide; set_solver.
Qed.
End loops.

Lemma AddNode_config (n : string) (ch : ConsistentHash) :
  virtualNodes (AddNode n ch) = virtualNodes ch /\
  replicaFactor (AddNode n ch) = replicaFactor ch.
Proof. unfold AddNode; simpl. apply AddNode_loop_config. Qed.

Lemma RemoveNode_config (n : string) (ch : ConsistentHash) :
  virtualNodes (RemoveNode n ch) = virtualNodes ch /\
  replicaFactor (RemoveNode n ch) = replicaFactor ch.
Proof. unfold RemoveNode. apply RemoveNode_loop_config. Qed.

Lemma AddNode_nodes (n : string) (ch : ConsistentHash) (h : Z) :
  nodes (AddNode n ch) !! h
  = if decide (h ∈ positions n (Z.to_nat (virtualNodes ch)))
    then Some n else nodes ch !! h.
Proof. unfold AddNode; simpl. apply AddNode_loop_nodes. Qed.

Lemma RemoveNode_nodes (n : string) (ch : ConsistentHash) (h : Z) :
  nodes (RemoveNode n ch) !! h
  = if decide (h ∈ positions n (Z.to_nat (virtualNodes ch)))
    then None else nodes ch !! h.
Proof. unfold RemoveNode. apply RemoveNode_loop_nodes. Qed.

Lemma apply_op_config (op : RingOp) (ch : ConsistentHash) :
  virtualNodes (apply_op ch op) = virtualNodes ch /\
  replicaFactor (apply_op ch op) = replicaFactor ch.
Proof. destruct op; [apply AddNode_config | apply RemoveNode_config]. Qed.

Lemma apply_ops_config (ops : list RingOp) (ch : ConsistentHash) :
  virtualNodes (apply_ops ops ch) = virtualNodes ch /\
  replicaFactor (apply_ops ops ch) = replicaFactor ch.
Proof.
  revert ch; induction ops as [|op ops IH]; intros ch; [done|].
  unfold apply_ops in *; simpl. destruct (IH (apply_op ch op)) as [-> ->].
  apply apply_op_config.
Qed.

Lemma apply_ops_app (ops1 ops2 : list RingOp) (ch : ConsistentHash) :
  apply_ops (ops1 ++ ops2) ch = apply_ops ops2 (apply_ops ops1 ch).
Proof. unfold apply_ops. apply foldl_app. Qed.

Lemma owners_at_positions_op (op : RingOp) (ch : ConsistentHash) :
  owners_at_positions ch -> owners_at_positions (apply_op ch op).
Proof.
  intros Hinv h n. destruct op as [m|m]; cbn [apply_op].
  - destruct (AddNode_config m ch) as [-> _]. rewrite AddNode_nodes.
    case_decide; [by intros [= <-] | apply Hinv].
  - destruct (RemoveNode_config m ch) as [-> _]. rewrite RemoveNode_nodes.
    case_decide; [done | apply Hinv].
Qed.

Lemma owners_at_positions_reachable (ch : ConsistentHash) :
  Reachable ch -> owners_at_positions ch.
Proof.
  intros (v & r & ops & ->).
  induction ops as [|op ops IH] using rev_ind.
  - intros h n. simpl. by rewrite lookup_empty.
  - rewrite apply_ops_app. simpl. by apply owners_at_positions_op.
Qed.

Lemma RemoveNode_absent (n : string) (ch : ConsistentHash) :
  owners_at_positions ch -> absent n (RemoveNode n ch).
Proof.
  intros Hinv h. rewrite RemoveNode_nodes.
  case_decide as Hin; [done|]. intros Hh. by apply Hin, Hinv.
Qed.

Lemma absent_op (n : string) (op : RingOp) (ch : ConsistentHash) :
  op <> OpAddNode n -> absent n ch -> absent n (apply_op ch op).
Proof.
  intros Hop Habs h. destruct op as [m|m]; cbn [apply_op].
  - rewrite AddNode_nodes. case_decide; [|apply Habs].
    intros [= ->]. done.
  - rewrite RemoveNode_nodes. case_decide; [done | apply Habs].
Qed.

Lemma absent_ops (n : string) (ops : list RingOp) (ch : ConsistentHash) :
  OpAddNode n ∉ ops -> absent n ch -> absent n (apply_ops ops ch).
Proof.
  revert ch; induction ops as [|op ops IH]; intros ch Hnin Habs; [done|].
  unfold apply_ops; simpl. apply IH.
  - intros ?. apply Hnin. by apply elem_of_cons; right.
  - apply absent_op; [|done]. intros ->. apply Hnin. by apply elem_of_cons; left.
Qed.

(** *** What [GetNodes] can return *)

Lemma GetNodes_loop_elem (ch : ConsistentHash) (idx n i : nat)
    (nodeSet : gmap string bool) (acc : list string) (x : string) :
  x ∈ GetNodes_loop ch idx n i nodeSet acc ->
  x ∈ acc \/ exists k, (i <= k < i + n)%nat /\
                 x = owner_at ch ((idx + k) mod length (hashRing ch)).
Proof.
  revert i nodeSet acc; induction n as [|n IH]; intros i nodeSet acc; simpl.
  - by left.
  - destruct (_ <? _); [|by left].
    destruct (default false _).
    + intros [?|(k & ? & ?)]%IH; [by left|]. right. exists k. split; [lia|done].
    + intros [Hx|(k & ? & ?)]%IH.
      * apply elem_of_app in Hx as [?|Hx]; [by left|].
        apply list_elem_of_singleton in Hx. right. exists i. split; [lia|done].
      * right. exists k. split; [lia|done].
Qed.

Lemma GetNodes_elem (key : string) (ch : ConsistentHash) (x : string) :
  x ∈ GetNodes key ch ->
  x = EmptyString \/ exists h, nodes ch !! h = Some x.
Proof.
  unfold GetNodes. destruct (_ =? _)%nat; [by intros ?%elem_of_nil|].
  intros [?%elem_of_nil|(k & _ & ->)]%GetNodes_loop_elem; [done|].
  unfold owner_at. destruct (nodes ch !! _) as [n|] eqn:E; simpl; eauto.
Qed.


(** The ring left by one removal step: unchanged, or one occurrence of
    the searched position cut out. *)
Lemma RemoveNode_step_ring (n : string) (ch : ConsistentHash) (i : nat) :
  let hash := hashKey (virtualKey n i) in
  hashRing (RemoveNode_step n ch i) = hashRing ch \/
  exists idx, hashRing ch !! idx = Some hash /\
    hashRing (RemoveNode_step n ch i) = take idx (hashRing ch) ++ drop (S idx) (hashRing ch).
Proof.
  intros hash. unfold RemoveNode_step. cbn [hashRing]. fold hash.
  set (idx := sort_Search _ _).
  destruct (idx <? length (hashRing ch))%nat eqn:Hlt; [|by left].
  destruct (hashRing ch !!! idx =? hash) eqn:Heq; [|by left].
  right. exists idx. apply Nat.ltb_lt in Hlt. apply Z.eqb_eq in Heq.
  split.
  - rewrite <- Heq. by apply list_lookup_lookup_total_lt.
  - cbn [andb]. by rewrite Nat.add_1_r.
Qed.

Lemma keys_on_ring_RemoveNode_step (n : string) (ch : ConsistentHash) (i : nat) :
  keys_on_ring ch -> keys_on_ring (RemoveNode_step n ch i).
Proof.
  intros Hinv h Hh.
  assert (h <> hashKey (virtualKey n i) /\ is_Some (nodes ch !! h)) as [Hne Hs].
  { cbn [nodes RemoveNode_step] in Hh.
    destruct (decide (h = hashKey (virtualKey n i))) as [->|Hne].
    - rewrite lookup_delete_eq in Hh. by destruct Hh.
    - by rewrite lookup_delete_ne in Hh. }
  apply Hinv in Hs.
  destruct (RemoveNode_step_ring n ch i) as [->|(idx & Hidx & ->)]; [done|].
  rewrite <- (take_drop_middle _ _ _ Hidx) in Hs.
  rewrite elem_of_app, elem_of_cons in Hs. rewrite elem_of_app.
  destruct Hs as [?|[?|?]]; [by left | done | by right].
Qed.

Lemma keys_on_ring_op (op : RingOp) (ch : ConsistentHash) :
  keys_on_ring ch -> keys_on_ring (apply_op ch op).
Proof.
  intros Hinv. destruct op as [n|n]; cbn [apply_op].
  - intros h. rewrite AddNode_nodes. unfold AddNode. cbn [hashRing].
    unfold sort_Slice. rewrite merge_sort_Permutation, AddNode_loop_ring.
    rewrite elem_of_app. case_decide; [by right|]. left. by apply Hinv.
  - unfold RemoveNode. generalize (seq 0 (Z.to_nat (virtualNodes ch))).
    intros l. revert ch Hinv. induction l as [|i l IH]; intros ch Hinv; [done|].
    cbn [foldl]. by apply IH, keys_on_ring_RemoveNode_step.
Qed.

Lemma Reachable_inv (ch : ConsistentHash) :
  Reachable ch ->
  0 < virtualNodes ch /\ 0 < replicaFactor ch /\ keys_on_ring ch.
Proof.
  intros (v & r & ops & ->).
  destruct (apply_ops_config ops (NewConsistentHash v r)) as [-> ->].
  split; [|split].
  - cbn. unfold DefaultVirtualNodes. destruct (Z.leb_spec v 0); lia.
  - cbn. destruct (Z.leb_spec r 0); lia.
  - induction ops as [|op ops IH] using rev_ind.
    + intros h. cbn. rewrite lookup_empty. by intros [? ?].
    + rewrite apply_ops_app. by apply keys_on_ring_op.
Qed.

(** *** The loop of [GetNodes] *)

Section GetNodes_loop.
Variable ch : ConsistentHash.
Variable idx : nat.

Let own (k : nat) : string :=
    owner_at ch ((idx + k) mod length (hashRing ch)).

Lemma GetNodes_loop_spec (n i : nat) (nodeSet : gmap string bool)
      (acc : list string) :
    NoDup acc ->
    (forall x, default false (nodeSet !! x) = true <-> x ∈ acc) ->
    let res := GetNodes_loop ch idx n i nodeSet acc in
    NoDup res /\
    (forall x, x ∈ acc -> x ∈ res) /\
    Z.of_nat (length res) <= Z.max (replicaFactor ch) (Z.of_nat (length acc)) /\
    (Z.of_nat (length res) < replicaFactor ch ->
     forall k, (i <= k < i + n)%nat -> own k ∈ res).
Proof.
    revert i nodeSet acc. induction n as [|n IH]; intros i nodeSet acc Hnd Hset.
    - cbn. repeat split; [done|done|lia|]. intros _ k ?. lia.
    - cbn [GetNodes_loop]. fold (owner_at ch ((idx + i) mod length (hashRing ch))).
      fold (own i).
      destruct (Z.ltb_spec (Z.of_nat (length acc)) (replicaFactor ch)) as [Hlt|Hge].
      + destruct (default false (nodeSet !! own i)) eqn:Hseen.
        * destruct (IH (i + 1)%nat nodeSet acc Hnd Hset) as (H1 & H2 & H3 & H4).
          repeat split; [done|done|done|].
          intros Hlen k Hk. destruct (decide (k = i)) as [->|Hne].
          -- apply H2, Hset, Hseen.
          -- apply H4; [done|lia].
        * assert (own i ∉ acc) as Hfresh.
          { intros Hin%Hset. congruence. }
          destruct (IH (i + 1)%nat (<[own i := true]> nodeSet) (acc ++ [own i]))
            as (H1 & H2 & H3 & H4).
          { apply NoDup_app. split; [done|]. split; [|apply NoDup_singleton].
            intros x Hx ->%list_elem_of_singleton. done. }
          { intros x. rewrite elem_of_app, list_elem_of_singleton.
            destruct (decide (x = own i)) as [->|Hne].
            - rewrite lookup_insert_eq. cbn. tauto.
            - rewrite lookup_insert_ne by done. rewrite Hset. tauto. }
          rewrite length_app in H3. cbn [length] in H3.
          repeat split; [done| |lia|].
          -- intros x Hx. apply H2, elem_of_app. by left.
          -- intros Hlen k Hk. destruct (decide (k = i)) as [->|Hne].
             ++ apply H2, elem_of_app. right. by apply list_elem_of_singleton.
             ++ apply H4; [done|lia].
      + repeat split; [done|done|lia|lia].
Qed.
End GetNodes_loop.

Lemma mod_shift_surj (idx j L : nat) :
  (j < L)%nat -> exists k, (k < L)%nat /\ ((idx + k) mod L)%nat = j.
Proof.
  intros Hj. exists ((j + (L - idx mod L)) mod L)%nat.
  assert (L <> 0)%nat as HL by lia.
  split; [by apply Nat.mod_upper_bound|].
  rewrite Nat.Div0.add_mod_idemp_r.
  pose proof (Nat.mod_upper_bound idx L HL) as Hlt.
  rewrite (Nat.div_mod_eq idx L) at 1.
  replace (L * (idx / L) + idx mod L + (j + (L - idx mod L)))%nat
    with (j + (idx / L + 1) * L)%nat by lia.
  rewrite Nat.Div0.mod_add. by apply Nat.mod_small.
Qed.

(** Elements, distinctness and length of a [GetNodes] result. *)
Lemma GetNodes_spec (key : string) (ch : ConsistentHash) :
  0 <= replicaFactor ch ->
  let res := GetNodes key ch in
  NoDup res /\
  Z.of_nat (length res) <= replicaFactor ch /\
  (forall x, x ∈ res ->
     exists j, (j < length (hashRing ch))%nat /\ x = owner_at ch j) /\
  (Z.of_nat (length res) < replicaFactor ch ->
   forall j, (j < length (hashRing ch))%nat -> owner_at ch j ∈ res).
Proof.
  intros Hrf res. subst res. unfold GetNodes.
  destruct (Nat.eqb_spec (length (hashRing ch)) 0) as [H0|Hpos].
  - repeat split; [constructor|cbn; lia| |].
    + by intros x ?%elem_of_nil.
    + intros _ j ?. lia.
  - set (idx := search ch (hashKey key)).
    destruct (GetNodes_loop_spec ch idx (length (hashRing ch)) 0 ∅ [])
      as (H1 & _ & H3 & H4).
    { constructor. }
    { intros x. rewrite lookup_empty. cbn. split; [done|by intros ?%elem_of_nil]. }
    cbn [length] in H3. repeat split; [done|lia| |].
    + intros x [?%elem_of_nil|(k & Hk & ->)]%GetNodes_loop_elem; [done|].
      eexists. split; [|done]. apply Nat.mod_upper_bound. done.
    + intros Hlen j Hj. destruct (mod_shift_surj idx j _ Hj) as (k & Hk & <-).
      apply H4; [done|lia].
Qed.


(** *** Binary search *)

Lemma sort_Search_loop_spec (n : nat) (f : nat -> bool) :
  (forall a b, (a <= b < n)%nat -> f a = true -> f b = true) ->
  forall fuel i j,
  (j - i <= fuel)%nat -> (i <= j <= n)%nat ->
  (forall k, (k < i)%nat -> f k = false) ->
  (forall k, (j <= k < n)%nat -> f k = true) ->
  let r := sort_Search_loop fuel f i j in
  ((i <= r)%nat /\ (r <= j)%nat) /\
  (forall k, (k < r)%nat -> f k = false) /\
  (forall k, (r <= k < n)%nat -> f k = true).
Proof.
  intros Hmono fuel. induction fuel as [|fuel IH]; intros i j Hfuel Hij Hlo Hhi.
  - cbn. repeat split; [lia|lia|done|]. intros k Hk. apply Hhi. lia.
  - cbn [sort_Search_loop]. destruct (Nat.ltb_spec i j) as [Hlt|Hge].
    + set (h := ((i + j) / 2)%nat).
      assert (i <= h < j)%nat as Hh.
      { subst h. pose proof (Nat.div_mod_eq (i + j) 2) as Hdm.
        pose proof (Nat.mod_upper_bound (i + j) 2). lia. }
      destruct (f h) eqn:Hfh.
      * destruct (IH i h) as (H1 & H2 & H3); [lia|lia|done| |].
        { intros k Hk. apply (Hmono h k); [lia|done]. }
        repeat split; [lia|lia|done|done].
      * destruct (IH (h + 1)%nat j) as (H1 & H2 & H3); [lia|lia| |done|].
        { intros k Hk. destruct (f k) eqn:Hfk; [|done].
          rewrite <- Hfh. symmetry. apply (Hmono k h); [lia|done]. }
        repeat split; [lia|lia|done|done].
    + repeat split; [lia|lia|done|]. intros k Hk. apply Hhi. lia.
Qed.

Lemma sort_Search_spec (n : nat) (f : nat -> bool) :
  (forall a b, (a <= b < n)%nat -> f a = true -> f b = true) ->
  let r := sort_Search n f in
  (r <= n)%nat /\
  (forall k, (k < r)%nat -> f k = false) /\
  (forall k, (r <= k < n)%nat -> f k = true).
Proof.
  intros Hmono. unfold sort_Search.
  destruct (sort_Search_loop_spec n f Hmono n 0%nat n) as (H1 & H2 & H3);
    [lia|lia| | |].
  - intros k Hk. lia.
  - intros k Hk. lia.
  - repeat split; [lia|done|done].
Qed.

Lemma StronglySorted_lookup_le (l : list Z) (a b : nat) (x y : Z) :
  StronglySorted Z.le l -> (a <= b)%nat ->
  l !! a = Some x -> l !! b = Some y -> x <= y.
Proof.
  intros Hs. revert a b. induction Hs as [|z l Hs IH Hall]; intros a b Hab Ha Hb.
  - done.
  - destruct a as [|a], b as [|b]; cbn in Ha, Hb.
    + injection Ha as <-. injection Hb as <-. lia.
    + injection Ha as <-. rewrite Forall_forall in Hall.
      apply Hall. by eapply list_elem_of_lookup_2.
    + lia.
    + eapply IH; [|done|done]. lia.
Qed.

(** On a sorted ring the removal step cuts the searched position out
    whenever the ring holds it. *)
Lemma RemoveNode_step_sorted (n : string) (ch : ConsistentHash) (i : nat) :
  StronglySorted Z.le (hashRing ch) ->
  let hash := hashKey (virtualKey n i) in
  let ring' := hashRing (RemoveNode_step n ch i) in
  ((hash ∉ hashRing ch) /\ ring' = hashRing ch) \/
  (exists idx, hashRing ch !! idx = Some hash /\ ring' = delete idx (hashRing ch)).
Proof.
  intros Hs hash ring'. subst ring'. unfold RemoveNode_step. cbn [hashRing].
  fold hash. set (ring := hashRing ch) in *.
  set (f := fun k : nat => hash <=? ring !!! k).
  destruct (sort_Search_spec (length ring) f) as (Hle & Hlo & Hhi).
  { intros a b Hab. unfold f. rewrite !Z.leb_le. intros Ha.
    destruct (lookup_lt_is_Some_2 ring a) as [x Hx]; [lia|].
    destruct (lookup_lt_is_Some_2 ring b) as [y Hy]; [lia|].
    rewrite (list_lookup_total_correct _ _ _ Hx) in Ha.
    rewrite (list_lookup_total_correct _ _ _ Hy).
    pose proof (StronglySorted_lookup_le ring a b x y Hs ltac:(lia) Hx Hy). lia. }
  set (idx := sort_Search (length ring) f) in *.
  destruct (Nat.ltb_spec idx (length ring)) as [Hlt|Hge].
  - destruct (Z.eqb_spec (ring !!! idx) hash) as [Heq|Hne]; cbn [andb].
    + right. exists idx. split.
      * rewrite <- Heq. by apply list_lookup_lookup_total_lt.
      * by rewrite delete_take_drop, Nat.add_1_r.
    + left. split; [|done]. intros (j & Hj)%list_elem_of_lookup_1.
      pose proof (lookup_lt_Some _ _ _ Hj) as Hjlt.
      assert (idx <= j)%nat as Hij.
      { destruct (Nat.le_gt_cases idx j) as [|Hgt]; [done|].
        apply Hlo in Hgt. unfold f in Hgt.
        rewrite (list_lookup_total_correct _ _ _ Hj) in Hgt.
        apply Z.leb_gt in Hgt. lia. }
      destruct (lookup_lt_is_Some_2 ring idx Hlt) as [x Hx].
      pose proof (StronglySorted_lookup_le ring idx j x hash Hs Hij Hx Hj).
      assert (f idx = true) as Hf by (apply Hhi; lia).
      unfold f in Hf. rewrite (list_lookup_total_correct _ _ _ Hx) in Hf, Hne.
      apply Z.leb_le in Hf. lia.
  - cbn [andb]. left. split; [|done]. intros (j & Hj)%list_elem_of_lookup_1.
    pose proof (lookup_lt_Some _ _ _ Hj) as Hjlt.
    assert (f j = false) as Hf by (apply Hlo; lia).
    unfold f in Hf. rewrite (list_lookup_total_correct _ _ _ Hj) in Hf.
    apply Z.leb_gt in Hf. lia.
Qed.

Lemma StronglySorted_delete (l : list Z) (i : nat) :
  StronglySorted Z.le l -> StronglySorted Z.le (delete i l).
Proof.
  intros Hs. destruct (l !! i) as [x|] eqn:Hx.
  - rewrite <- (take_drop_middle _ _ _ Hx) in Hs.
    rewrite delete_take_drop.
    apply StronglySorted_app in Hs as (H1 & H2 & H3).
    apply StronglySorted_cons in H3 as [_ H3].
    apply StronglySorted_app. split; [|done].
    intros x1 x2 Hx1 Hx2. apply H1; [done|]. by apply elem_of_cons; right.
  - rewrite delete_take_drop. apply lookup_ge_None in Hx.
    rewrite take_ge, drop_ge, app_nil_r by lia. done.
Qed.


(** *** Rings built without double registration or collisions *)

Lemma collision_free_spec (v : nat) (U : list string) (n m : string) (h : Z) :
  collision_free v U -> n ∈ U -> m ∈ U -> n <> m ->
  h ∈ positions n v -> h ∉ positions m v.
Proof.
  unfold collision_free. rewrite Forall_forall. intros Hcf Hn Hm Hne Hh.
  specialize (Hcf n Hn). rewrite Forall_forall in Hcf.
  specialize (Hcf m Hm Hne). rewrite Forall_forall in Hcf. by apply Hcf.
Qed.

Lemma ring_tracks_new (v r : Z) : ring_tracks [] (NewConsistentHash v r).
Proof.
  unfold ring_tracks. cbn [NewConsistentHash hashRing nodes].
  split; [constructor|]. split; [constructor|]. split; [done|].
  intros h m. rewrite lookup_empty. split; [done|]. by intros [?%elem_of_nil _].
Qed.

Lemma ring_tracks_AddNode (P : list string) (n : string) (ch : ConsistentHash) :
  let v := Z.to_nat (virtualNodes ch) in
  ring_tracks P ch -> n ∉ P ->
  (forall m h, m ∈ P -> h ∈ positions m v -> h ∉ positions n v) ->
  ring_tracks (P ++ [n]) (AddNode n ch).
Proof.
  intros v (Hnd & Hs & Hperm & Hmap) Hfresh Hcf. unfold ring_tracks.
  destruct (AddNode_config n ch) as [-> _]. fold v.
  split; [|split; [|split]].
  - apply NoDup_app. split; [done|]. split; [|apply NoDup_singleton].
    intros x Hx ->%list_elem_of_singleton. done.
  - unfold AddNode. cbn [hashRing]. apply StronglySorted_merge_sort; apply _.
  - unfold AddNode. cbn [hashRing]. unfold sort_Slice.
    rewrite merge_sort_Permutation, AddNode_loop_ring, Hperm.
    rewrite bind_app, bind_cons. cbn. by rewrite app_nil_r.
  - intros h m. rewrite AddNode_nodes. fold v.
    rewrite elem_of_app, list_elem_of_singleton. case_decide as Hin.
    + split.
      * intros [= <-]. split; [by right|done].
      * intros [[Hm| ->] Hh]; [|done]. exfalso. by eapply Hcf.
    + rewrite Hmap. split.
      * intros [? ?]. split; [by left|done].
      * intros [[?| ->] Hh]; [done|]. done.
Qed.

Section RemoveNode_ring.
Variable nodeID : string.

Let pos (i : nat) : Z := hashKey (virtualKey nodeID i).

Lemma RemoveNode_loop_present (l : list nat) (rest : list Z) (ch : ConsistentHash) :
  StronglySorted Z.le (hashRing ch) ->
  hashRing ch ≡ₚ (pos <$> l) ++ rest ->
  StronglySorted Z.le (hashRing (foldl (RemoveNode_step nodeID) ch l)) /\
  hashRing (foldl (RemoveNode_step nodeID) ch l) ≡ₚ rest.
Proof.
  revert ch. induction l as [|i l IH]; intros ch Hs Hperm; [done|].
  cbn [foldl]. rewrite fmap_cons in Hperm. cbn [app] in Hperm.
  assert (pos i ∈ hashRing ch) as Hin.
  { rewrite Hperm. by apply elem_of_cons; left. }
  destruct (RemoveNode_step_sorted nodeID ch i Hs) as [[Hnin _]|(idx & Hidx & Heq)];
    [done|].
  apply IH.
  - rewrite Heq. by apply StronglySorted_delete.
  - rewrite Heq. apply (Permutation_cons_inv (a := pos i)).
    etrans; [symmetry; apply (delete_Permutation _ _ _ Hidx)|done].
Qed.

Lemma RemoveNode_loop_missing (l : list nat) (ch : ConsistentHash) :
  StronglySorted Z.le (hashRing ch) ->
  (forall i, i ∈ l -> pos i ∉ hashRing ch) ->
  hashRing (foldl (RemoveNode_step nodeID) ch l) = hashRing ch.
Proof.
  revert ch. induction l as [|i l IH]; intros ch Hs Hmiss; [done|].
  cbn [foldl].
  destruct (RemoveNode_step_sorted nodeID ch i Hs) as [[_ Heq]|(idx & Hidx & _)].
  - rewrite IH; [done|by rewrite Heq|].
    intros j Hj. rewrite Heq. apply Hmiss. by apply elem_of_cons; right.
  - exfalso. apply (Hmiss i); [by apply elem_of_cons; left|].
    by eapply list_elem_of_lookup_2.
Qed.
End RemoveNode_ring.

Lemma filter_ne_Permutation (P : list string) (n : string) :
  NoDup P -> n ∈ P -> P ≡ₚ n :: filter (fun m => m <> n) P.
Proof.
  intros Hnd Hin. apply NoDup_Permutation; [done| |].
  - constructor; [|by apply NoDup_filter].
    rewrite list_elem_of_filter. by intros [? _].
  - intros x. rewrite elem_of_cons, list_elem_of_filter.
    destruct (decide (x = n)) as [->|]; naive_solver.
Qed.

Lemma filter_ne_absent (P : list string) (n : string) :
  n ∉ P -> filter (fun m => m <> n) P = P.
Proof.
  induction P as [|p P IH]; intros Hn; [done|].
  rewrite not_elem_of_cons in Hn. destruct Hn as [Hne Hn].
  rewrite filter_cons_True by done. by rewrite IH.
Qed.

Lemma ring_tracks_RemoveNode (P : list string) (n : string) (ch : ConsistentHash) :
  let v := Z.to_nat (virtualNodes ch) in
  ring_tracks P ch ->
  (forall m h, m ∈ P -> m <> n -> h ∈ positions m v -> h ∉ positions n v) ->
  ring_tracks (filter (fun m => m <> n) P) (RemoveNode n ch).
Proof.
  intros v (Hnd & Hs & Hperm & Hmap) Hcf. unfold ring_tracks.
  destruct (RemoveNode_config n ch) as [-> _]. fold v.
  assert (StronglySorted Z.le (hashRing (RemoveNode n ch)) /\
          hashRing (RemoveNode n ch)
          ≡ₚ filter (fun m => m <> n) P ≫= (fun m => positions m v)) as [Hs' Hperm'].
  { unfold RemoveNode. fold v. destruct (decide (n ∈ P)) as [Hin|Hnin].
    - apply RemoveNode_loop_present; [done|].
      rewrite Hperm. rewrite (filter_ne_Permutation P n Hnd Hin) at 1.
      by rewrite bind_cons.
    - rewrite RemoveNode_loop_missing; [|done|].
      + by rewrite filter_ne_absent.
      + intros i Hi Hring. rewrite Hperm in Hring.
        apply list_elem_of_bind in Hring as (m & Hh & Hm).
        apply (Hcf m (hashKey (virtualKey n i)) Hm); [by intros ->|done|].
        apply list_elem_of_fmap. by exists i. }
  split; [by apply NoDup_filter|]. split; [done|]. split; [done|].
  intros h m. rewrite RemoveNode_nodes. fold v. rewrite list_elem_of_filter.
  case_decide as Hin.
  - split; [done|]. intros [[Hne Hm] Hh]. exfalso. by eapply Hcf.
  - rewrite Hmap. split.
    + intros [Hm Hh]. split; [|done]. split; [|done]. by intros ->.
    + intros [[_ ?] ?]. done.
Qed.

Lemma length_bind_positions (P : list string) (v : nat) :
  length (P ≫= (fun n => positions n v)) = (v * length P)%nat.
Proof.
  induction P as [|p P IH]; cbn [length]; [by rewrite Nat.mul_0_r|].
  rewrite bind_cons, length_app, IH. unfold positions.
  rewrite length_fmap, length_seq. lia.
Qed.

Lemma ring_tracks_GetAllNodes (P : list string) (ch : ConsistentHash) :
  0 < virtualNodes ch -> ring_tracks P ch -> GetAllNodes ch ≡ₚ P.
Proof.
  intros Hv (Hnd & _ & _ & Hmap). unfold GetAllNodes.
  apply NoDup_Permutation; [apply NoDup_elements|done|].
  intros x. rewrite elem_of_elements, elem_of_map_img. split.
  - intros [h Hh]. by apply Hmap in Hh as [? _].
  - intros Hx. exists (hashKey (virtualKey x 0)). apply Hmap. split; [done|].
    apply list_elem_of_fmap. exists 0%nat. split; [done|].
    apply elem_of_seq. lia.
Qed.

Lemma ring_tracks_length (P : list string) (ch : ConsistentHash) :
  0 < virtualNodes ch -> ring_tracks P ch ->
  Z.of_nat (length (hashRing ch))
  = virtualNodes ch * Z.of_nat (length (GetAllNodes ch)).
Proof.
  intros Hv Ht. rewrite (ring_tracks_GetAllNodes P ch Hv Ht).
  destruct Ht as (_ & _ & -> & _). rewrite length_bind_positions. lia.
Qed.

Lemma ring_tracks_ops (U : list string) (ops : list RingOp)
    (P : list string) (ch : ConsistentHash) :
  0 < virtualNodes ch ->
  collision_free (Z.to_nat (virtualNodes ch)) U ->
  (forall m, m ∈ P -> m ∈ U) ->
  (forall op, op ∈ ops -> op_node op ∈ U) ->
  ring_tracks P ch -> adds_fresh ops ch ->
  exists P', ring_tracks P' (apply_ops ops ch).
Proof.
  revert P ch. induction ops as [|op ops IH]; intros P ch Hv Hcf HP Hops Ht Hfresh.
  - by exists P.
  - cbn [adds_fresh] in Hfresh. destruct Hfresh as [Hop Hfresh].
    assert (op_node op ∈ U) as HU by (apply Hops; by apply elem_of_cons; left).
    assert (forall op', op' ∈ ops -> op_node op' ∈ U) as Hops'.
    { intros op' ?. apply Hops. by apply elem_of_cons; right. }
    destruct (apply_op_config op ch) as [Hv' _].
    unfold apply_ops. cbn [foldl]. destruct op as [n|n]; cbn [apply_op op_node] in *.
    + rewrite (ring_tracks_GetAllNodes P ch Hv Ht) in Hop.
      apply (IH (P ++ [n])); [lia|by rewrite Hv'| |done| |done].
      * intros m [?| ->%list_elem_of_singleton]%elem_of_app; [by apply HP|done].
      * apply ring_tracks_AddNode; [done|done|].
        intros m h Hm Hh. eapply collision_free_spec; [done|by apply HP|done| |done].
        by intros ->.
    + apply (IH (filter (fun m => m <> n) P)); [lia|by rewrite Hv'| |done| |done].
      * intros m [_ ?]%list_elem_of_filter. by apply HP.
      * apply ring_tracks_RemoveNode; [done|].
        intros m h Hm Hne Hh. eapply collision_free_spec; [done|by apply HP|done|done|done].
Qed.


(** A ring built without double registration or collisions has no
    position without owner. *)
Lemma ring_tracks_no_stale (P : list string) (ch : ConsistentHash) :
  ring_tracks P ch -> no_stale_positions ch.
Proof.
  intros (_ & _ & Hperm & Hmap). unfold no_stale_positions.
  apply Forall_forall. intros h Hh. rewrite Hperm in Hh.
  apply list_elem_of_bind in Hh as (m & Hh & Hm).
  exists m. apply Hmap. done.
Qed.

Lemma adds_fresh_no_stale (v r : Z) (ops : list RingOp) :
  let ch0 := NewConsistentHash v r in
  collision_free (Z.to_nat (virtualNodes ch0)) (op_node <$> ops) ->
  adds_fresh ops ch0 ->
  no_stale_positions (apply_ops ops ch0).
Proof.
  intros ch0 Hcf Hfresh.
  assert (0 < virtualNodes ch0) as Hv.
  { apply (Reachable_inv ch0). by exists v, r, []. }
  destruct (ring_tracks_ops (op_node <$> ops) ops [] ch0) as [P HP];
    [done|done| | |apply ring_tracks_new|done|].
  - by intros m ?%elem_of_nil.
  - intros op Hop. apply list_elem_of_fmap. by exists op.
  - by eapply ring_tracks_no_stale.
Qed.

(** Sorting the ring has one possible result, whatever the algorithm. *)
Lemma sort_Slice_unique (ring sorted : list Z) :
  StronglySorted Z.le sorted -> sorted ≡ₚ ring -> sorted = sort_Slice ring.
Proof.
  intros Hs Hperm. apply (StronglySorted_unique Z.le); [done| |].
  - apply StronglySorted_merge_sort; apply _.
  - unfold sort_Slice. by rewrite merge_sort_Permutation.
Qed.

(** *** The registered nodes are the owners of the map *)

(** Without position collisions, the map holds exactly the virtual
    positions of the registered nodes, whatever was added twice or
    removed without being there. *)
Lemma registered_tracks (v r : Z) (U : list string) (ops : list RingOp) :
  let ch0 := NewConsistentHash v r in
  let vn := Z.to_nat (virtualNodes ch0) in
  collision_free vn U -> (forall op, op ∈ ops -> op_node op ∈ U) ->
  NoDup (registered ops) /\
  (forall n, n ∈ registered ops -> n ∈ U) /\
  (forall h m, nodes (apply_ops ops ch0) !! h = Some m
               <-> m ∈ registered ops /\ h ∈ positions m vn).
Proof.
  intros ch0 vn Hcf. induction ops as [|op ops IH] using rev_ind; intros HU.
  - cbn. split; [constructor|]. split; [by intros n ?%elem_of_nil|].
    intros h m. rewrite lookup_empty. split; [done|]. by intros [?%elem_of_nil _].
  - destruct IH as (Hnd & HPU & Hmap).
    { intros op' Hop'. apply HU. apply elem_of_app. by left. }
    assert (op_node op ∈ U) as HopU.
    { apply HU. apply elem_of_app. right. by apply list_elem_of_singleton. }
    unfold registered. rewrite foldl_app. cbn [foldl]. fold (registered ops).
    rewrite apply_ops_app. cbn [apply_ops foldl].
    fold (apply_ops ops ch0).
    destruct (apply_ops_config ops ch0) as [Hv _]. fold vn in Hmap.
    destruct op as [n|n]; cbn [register_step apply_op op_node] in *.
    + assert (forall h m, nodes (AddNode n (apply_ops ops ch0)) !! h = Some m
                <-> (m = n \/ m ∈ registered ops) /\ h ∈ positions m vn) as Hadd.
      { intros h m. rewrite AddNode_nodes, Hv. fold vn. case_decide as Hh.
        - split.
          + intros [= <-]. split; [by left|done].
          + intros [[->|Hm] Hhm]; [done|]. f_equal.
            destruct (decide (n = m)) as [|Hne]; [done|]. exfalso.
            apply (collision_free_spec vn U m n h Hcf); auto.
        - rewrite Hmap. split.
          + intros [Hm Hhm]. split; [by right|done].
          + intros [[->|Hm] Hhm]; [done|]. done. }
      case_decide as Hin.
      * split; [done|]. split; [done|]. intros h m. rewrite Hadd. split.
        -- intros [[->|Hm] Hhm]; done.
        -- intros [Hm Hhm]. split; [by right|done].
      * split; [|split].
        -- apply NoDup_app. split; [done|]. split; [|apply NoDup_singleton].
           intros x Hx ->%list_elem_of_singleton. done.
        -- intros x [Hx| ->%list_elem_of_singleton]%elem_of_app; [by apply HPU|done].
        -- intros h m. rewrite Hadd, elem_of_app, list_elem_of_singleton. tauto.
    + split; [by apply NoDup_filter|]. split.
      * intros x [_ Hx]%list_elem_of_filter. by apply HPU.
      * intros h m. rewrite RemoveNode_nodes, Hv. fold vn.
        rewrite list_elem_of_filter. case_decide as Hh.
        -- split; [done|]. intros [[Hne Hm] Hhm]. exfalso.
           apply (collision_free_spec vn U m n h Hcf); auto.
        -- rewrite Hmap. split.
           ++ intros [Hm Hhm]. split; [|done]. split; [|done]. by intros ->.
           ++ by intros [[_ Hm] Hhm].
Qed.

Lemma registered_GetAllNodes (v r : Z) (ops : list RingOp) :
  let ch0 := NewConsistentHash v r in
  collision_free (Z.to_nat (virtualNodes ch0)) (op_node <$> ops) ->
  GetAllNodes (apply_ops ops ch0) ≡ₚ registered ops.
Proof.
  intros ch0 Hcf.
  destruct (registered_tracks v r (op_node <$> ops) ops Hcf) as (Hnd & _ & Hmap).
  { intros op Hop. apply list_elem_of_fmap. by exists op. }
  assert (0 < virtualNodes ch0) as Hv.
  { apply (Reachable_inv ch0). by exists v, r, []. }
  unfold GetAllNodes. apply NoDup_Permutation; [apply NoDup_elements|done|].
  intros x. rewrite elem_of_elements, elem_of_map_img. split.
  - intros [h Hh]. by apply Hmap in Hh as [? _].
  - intros Hx. exists (hashKey (virtualKey x 0)). apply Hmap. split; [done|].
    apply list_elem_of_fmap. exists 0%nat. split; [done|].
    apply elem_of_seq. unfold ch0 in *. lia.
Qed.

End RingFacts.

(** ** Properties of the file system and of the storage node *)

Module StorageFacts.
Import Errors FS Storage StorageSpec.

Lemma walk_app (p q : path) (n : fsnode) :
  walk (p ++ q) n
  = match walk p n with inl e => inl e | inr c => walk q c end.
Proof.
  revert n. induction p as [|x p IH]; intros n; [done|].
  cbn [app walk]. destruct n as [?|m]; [done|].
  destruct (m !! x); [apply IH|done].
Qed.

Lemma walk_snoc_Dir (p : path) (x : string) (n : fsnode) (m : gmap string fsnode) :
  walk p n = inr (Dir m) -> walk (p ++ [x]) n = from_option inr (inl ENOENT) (m !! x).
Proof.
  intros Hp. rewrite walk_app, Hp. cbn. by destruct (m !! x).
Qed.

Lemma walk_snoc_inv (p : path) (x : string) (n c : fsnode) :
  walk (p ++ [x]) n = inr c ->
  exists m, walk p n = inr (Dir m) /\ m !! x = Some c.
Proof.
  rewrite walk_app. destruct (walk p n) as [?|[?|m]]; [done|done|].
  cbn. destruct (m !! x) eqn:E; [|done]. intros [= <-]. by exists m.
Qed.

Lemma path_split_snoc (d : path) (x : string) :
  path_split (d ++ [x]) = Some (d, x).
Proof.
  induction d as [|y d IH]; [done|]. cbn [app path_split]. by rewrite IH.
Qed.

Lemma in_dir_inv (p : path) g (n n' : fsnode) :
  in_dir p g n = inr n' ->
  exists m m', walk p n = inr (Dir m) /\ g m = inr m' /\
               walk p n' = inr (Dir m').
Proof.
  revert n n'. induction p as [|x p IH]; intros [?|m] n'; cbn [in_dir]; try done.
  - destruct (g m) as [?|m'] eqn:Hg; [done|]. intros [= <-]. by exists m, m'.
  - destruct (m !! x) as [c|] eqn:Hx; [|done].
    destruct (in_dir p g c) as [?|c'] eqn:Hc; [done|]. intros [= <-].
    destruct (IH _ _ Hc) as (m0 & m0' & H1 & H2 & H3).
    exists m0, m0'. cbn [walk]. by rewrite Hx, lookup_insert_eq.
Qed.

Lemma in_dir_ok (p : path) g (n : fsnode) (m m' : gmap string fsnode) :
  walk p n = inr (Dir m) -> g m = inr m' ->
  exists n', in_dir p g n = inr n' /\ walk p n' = inr (Dir m').
Proof.
  revert n. induction p as [|x p IH]; intros [?|m0]; cbn [walk in_dir]; try done.
  - intros [= ->] ->. by eexists.
  - destruct (m0 !! x) as [c|] eqn:Hx; [|done]. intros Hw Hg.
    destruct (IH c Hw Hg) as (c' & -> & Hc'). eexists. split; [done|].
    cbn [walk]. by rewrite lookup_insert_eq.
Qed.

Lemma in_dir_fail (p : path) g (n : fsnode) (m : gmap string fsnode) e :
  walk p n = inr (Dir m) -> g m = inl e -> in_dir p g n = inl e.
Proof.
  revert n. induction p as [|x p IH]; intros [?|m0]; cbn [walk in_dir]; try done.
  - by intros [= ->] ->.
  - destruct (m0 !! x) as [c|] eqn:Hx; [|done]. intros Hw Hg.
    by rewrite (IH c Hw Hg).
Qed.

(** *** Writing and reading *)

Lemma WriteFile_inv (d : path) (x : string) (data : list byte) (n n' : fsnode) :
  WriteFile (d ++ [x]) data n = inr n' ->
  exists m, walk d n = inr (Dir m) /\
            walk d n' = inr (Dir (<[x := File data]> m)).
Proof.
  unfold WriteFile. rewrite path_split_snoc.
  intros (m & m' & Hw & Hg & Hw')%in_dir_inv. exists m. split; [done|].
  destruct (m !! x) as [[?|?]|]; by simplify_eq.
Qed.

Lemma ReadFile_snoc (d : path) (x : string) (n : fsnode) (m : gmap string fsnode) :
  walk d n = inr (Dir m) ->
  ReadFile (d ++ [x]) n
  = match m !! x with
    | None => inl ENOENT
    | Some (File data) => inr data
    | Some (Dir _) => inl EISDIR
    end.
Proof.
  intros Hd. unfold ReadFile. rewrite (walk_snoc_Dir _ _ _ _ Hd).
  by destruct (m !! x) as [[?|?]|].
Qed.

Lemma ReadFile_snoc_inv (d : path) (x : string) (n : fsnode) (data : list byte) :
  ReadFile (d ++ [x]) n = inr data ->
  exists m, walk d n = inr (Dir m) /\ m !! x = Some (File data).
Proof.
  unfold ReadFile. destruct (walk (d ++ [x]) n) as [?|[c|?]] eqn:Hw; [done| |done].
  intros [= ->]. by apply walk_snoc_inv.
Qed.

(** *** [StoreFile] and [RetrieveFile] *)

(** After a successful [StoreFile] the version directory holds the
    bytes and their checksum. *)
Lemma StoreFile_ok (n : Node) (f v : string) (data : list byte) (fs fs' : fsnode) :
  StoreFile n f v data fs = (fs', inr tt) ->
  exists m, walk (versionPath n f v) fs' = inr (Dir m) /\
    m !! "data"%string = Some (File data) /\
    m !! "checksum"%string
    = Some (File (list_byte_of_string (calculateChecksum data))).
Proof.
  unfold StoreFile, bind, update.
  destruct (MkdirAll _ fs) as [?|fs1]; [done|].
  destruct (WriteFile _ data fs1) as [?|fs2] eqn:Hdata; [done|].
  destruct (WriteFile _ _ fs2) as [?|fs3] eqn:Hsum; [done|].
  intros [= <-].
  apply WriteFile_inv in Hdata as (m1 & _ & Hm1).
  apply WriteFile_inv in Hsum as (m2 & Hm2 & Hm3).
  rewrite Hm1 in Hm2. injection Hm2 as <-.
  eexists. split; [done|]. split.
  - rewrite lookup_insert_ne by done. by rewrite lookup_insert_eq.
  - by rewrite lookup_insert_eq.
Qed.

(** [RetrieveFile] on a version directory that holds both files. *)
Lemma RetrieveFile_walk (n : Node) (f v : string) (fs : fsnode)
    (m : gmap string fsnode) (x c : list byte) :
  walk (versionPath n f v) fs = inr (Dir m) ->
  m !! "data"%string = Some (File x) ->
  m !! "checksum"%string = Some (File c) ->
  RetrieveFile n f v fs
  = (fs, if decide (calculateChecksum x = string_of_list_byte c)
         then inr x else inl ErrChecksumMismatch).
Proof.
  intros Hw Hx Hc. unfold RetrieveFile, bind, query.
  rewrite (ReadFile_snoc _ _ _ _ Hw), Hx.
  rewrite (ReadFile_snoc _ _ _ _ Hw), Hc.
  by case_decide.
Qed.


(** [RetrieveFile] never changes the file system. *)
Lemma RetrieveFile_readonly (n : Node) (f v : string) (fs : fsnode) :
  fst (RetrieveFile n f v fs) = fs.
Proof.
  unfold RetrieveFile, bind, query.
  destruct (ReadFile _ fs); [done|]. destruct (ReadFile _ fs); [done|].
  by case_decide.
Qed.

Lemma RetrieveFile_ok_inv (n : Node) (f v : string) (fs fs' : fsnode)
    (data : list byte) :
  RetrieveFile n f v fs = (fs', inr data) ->
  fs' = fs /\
  exists m c, walk (versionPath n f v) fs = inr (Dir m) /\
    m !! "data"%string = Some (File data) /\
    m !! "checksum"%string = Some (File c).
Proof.
  unfold RetrieveFile, bind, query.
  destruct (ReadFile _ fs) as [?|x] eqn:Hx; [done|].
  destruct (ReadFile (_ ++ ["checksum"%string]) fs) as [?|c] eqn:Hc; [done|].
  case_decide; [|done]. intros [= <- <-]. split; [done|].
  apply ReadFile_snoc_inv in Hx as (m & Hw & Hx).
  apply ReadFile_snoc_inv in Hc as (m' & Hw' & Hc).
  rewrite Hw in Hw'. injection Hw' as <-. by exists m, c.
Qed.


(** On an empty file system every store succeeds. *)
Lemma MkdirAll_fresh (p : path) :
  exists n', MkdirAll p (Dir ∅) = inr n' /\ walk p n' = inr (Dir ∅).
Proof.
  induction p as [|x p (c & Hc & Hw)]; [by eexists|].
  cbn [MkdirAll]. rewrite lookup_empty. cbn [default]. rewrite Hc.
  eexists. split; [done|]. cbn [walk]. by rewrite lookup_insert_eq.
Qed.

Lemma WriteFile_ok (d : path) (x : string) (data : list byte) (n : fsnode)
    (m : gmap string fsnode) :
  walk d n = inr (Dir m) -> (forall e, m !! x <> Some (Dir e)) ->
  exists n', WriteFile (d ++ [x]) data n = inr n' /\
             walk d n' = inr (Dir (<[x := File data]> m)).
Proof.
  intros Hw Hx. unfold WriteFile. rewrite path_split_snoc.
  eapply in_dir_ok; [done|]. destruct (m !! x) as [[?|e]|] eqn:E; try done.
  by destruct (Hx e).
Qed.


(** *** [DeleteFile] *)

(** *** Joined paths *)

Lemma Join_cons (base : path) (x : string) (elems : list string) :
  Join base (x :: elems) = Join (Join base [x]) elems.
Proof.
  unfold Join. rewrite !bind_cons. cbn [mbind list_bind].
  rewrite app_nil_r. apply foldl_app.
Qed.

(** Joining a proper name appends it. *)
Lemma Join_proper (base : path) (x : string) :
  proper_name x -> Join base [x] = base ++ [x].
Proof.
  intros (H1 & H2 & H3 & Hsplit). unfold Join.
  rewrite bind_cons. cbn [mbind list_bind].
  rewrite app_nil_r, Hsplit. cbn [foldl]. unfold clean_step.
  by rewrite !decide_False.
Qed.

Lemma containerPath_proper (n : Node) (f : string) :
  proper_name f -> containerPath n f = StoragePath n ++ [f].
Proof. apply Join_proper. Qed.

Lemma versionPath_snoc (n : Node) (f v : string) :
  proper_name v -> versionPath n f v = containerPath n f ++ [v].
Proof.
  intros Hv. unfold versionPath, containerPath. by rewrite Join_cons, Join_proper.
Qed.

Lemma versionPath_proper (n : Node) (f v : string) :
  proper_name f -> proper_name v -> versionPath n f v = StoragePath n ++ [f; v].
Proof.
  intros Hf Hv. rewrite versionPath_snoc, containerPath_proper by done.
  by rewrite <- app_assoc.
Qed.

(** *** [DeleteFile] *)

(** [DeleteFile] on an existing container: the version is cut out of
    the container, and the container goes with its last entry. *)
Lemma DeleteFile_container (n : Node) (f v : string) (fs : fsnode)
    (m : gmap string fsnode) :
  proper_name f -> proper_name v ->
  walk (containerPath n f) fs = inr (Dir m) ->
  exists fs', DeleteFile n f v fs = (fs', inr tt) /\
    walk (containerPath n f) fs'
    = match map_to_list (delete v m) with
      | [] => inl ENOENT
      | _ :: _ => inr (Dir (delete v m))
      end.
Proof.
  intros Hf Hv Hw. unfold DeleteFile, bind, update, query.
  rewrite versionPath_snoc by done. unfold RemoveAll at 1. rewrite path_split_snoc.
  destruct (in_dir_ok _ (fun m => inr (delete v m)) _ _ _ Hw eq_refl)
    as (fs1 & -> & Hw1).
  unfold ReadDir. rewrite Hw1.
  destruct (map_to_list (delete v m)) as [|kv l] eqn:Hl; cbn [length Nat.eqb].
  - unfold Remove. rewrite containerPath_proper in * by done.
    rewrite path_split_snoc.
    apply walk_snoc_inv in Hw1 as (ms & Hs & Hf1).
    destruct (in_dir_ok (StoragePath n)
                (fun m0 => match m0 !! f with
                           | None => inl ENOENT
                           | Some (File _) => inr (delete f m0)
                           | Some (Dir e) =>
                               match map_to_list e with
                               | [] => inr (delete f m0)
                               | _ :: _ => inl ENOTEMPTY
                               end
                           end) fs1 ms (delete f ms) Hs) as (fs2 & -> & Hw2).
    { by rewrite Hf1, Hl. }
    eexists. split; [done|].
    rewrite (walk_snoc_Dir _ _ _ _ Hw2). by rewrite lookup_delete_eq.
  - by eexists.
Qed.



(** *** The digest has 32 bytes, so it cannot be injective *)






End StorageFacts.

(** ** Properties of the file manager *)

Module ManagerFacts.
Import Errors FS Storage Hash Metadata Manager ManagerSpec StorageFacts.

Section WithStore.
Context {S : Type} `{!Store S}.

Lemma node_call_fm {A : Type} (c : bool -> Call) (m : io fsnode A) (w : World S) :
  fm (fst (node_call c m w)) = fm w /\
  disk (fst (node_call c m w)) = fst (m (disk w)) /\
  calls (fst (node_call c m w)) = calls w ++ [c (is_ok (snd (m (disk w))))] /\
  snd (node_call c m w) = snd (m (disk w)).
Proof. unfold node_call. by destruct (m (disk w)). Qed.

(** *** The store loop of [UploadFile] *)

Lemma stored_ok_app (cs1 cs2 : list Call) :
  stored_ok (cs1 ++ cs2) = stored_ok cs1 ++ stored_ok cs2.
Proof. unfold stored_ok. apply omap_app. Qed.

Lemma store_replicas_spec (f v : string) (data : list byte) (nodeIDs : list string) :
  forall (acc : list string) (w : World S),
  exists w' new,
    store_replicas nodeIDs f v data acc w = (w', inr (acc ++ stored_ok new)) /\
    fm w' = fm w /\
    calls w' = calls w ++ new /\
    (forall n, n ∈ stored_ok new -> is_Some (nodes (fm w) !! n)).
Proof.
  induction nodeIDs as [|nodeID rest IH]; intros acc w.
  - exists w, []. cbn. rewrite !app_nil_r. repeat split; [done..|].
    by intros n ?%elem_of_nil.
  - cbn [store_replicas]. unfold bind at 1, gets at 1.
    destruct (nodes (fm w) !! nodeID) as [node|] eqn:Hreg.
    + unfold bind at 1, attempt at 1.
      destruct (node_call_fm (StoreFileCall nodeID f v) (StoreFile node f v data) w)
        as (Hfm & _ & Hcalls & Hres).
      destruct (node_call _ _ w) as [w1 r]. cbn [fst snd] in *.
      destruct r as [err|[]].
      * destruct (IH acc w1) as (w' & new & -> & Hfm' & Hcalls' & Hin).
        exists w', (StoreFileCall nodeID f v false :: new).
        rewrite <- Hres in Hcalls. cbn [is_ok] in Hcalls. cbn [stored_ok omap].
        fold (stored_ok new). repeat split.
        -- congruence.
        -- rewrite Hcalls', Hcalls. by rewrite <- app_assoc.
        -- intros n Hn. rewrite <- Hfm. by apply Hin.
      * destruct (IH (acc ++ [nodeID]) w1) as (w' & new & -> & Hfm' & Hcalls' & Hin).
        exists w', (StoreFileCall nodeID f v true :: new).
        rewrite <- Hres in Hcalls. cbn [is_ok] in Hcalls. cbn [stored_ok omap].
        fold (stored_ok new). rewrite <- app_assoc. repeat split.
        -- congruence.
        -- rewrite Hcalls', Hcalls. by rewrite <- app_assoc.
        -- intros n [->|Hn]%elem_of_cons; [by rewrite Hreg|].
           rewrite <- Hfm. by apply Hin.
    + destruct (IH acc w) as (w' & new & -> & Hfm' & Hcalls' & Hin).
      by exists w', new.
Qed.

(** *** [cleanupFailedUpload] *)

Lemma cleanupFailedUpload_spec (f v : string) (nodeIDs : list string) :
  forall w : World S,
  exists w' deletes,
    cleanupFailedUpload f v nodeIDs w = (w', inr tt) /\
    fm w' = fm w /\
    calls w' = calls w ++ deletes /\
    Forall2 (is_delete_of f v) (in_registry (nodes (fm w)) nodeIDs) deletes.
Proof.
  induction nodeIDs as [|nodeID rest IH]; intros w.
  - exists w, []. cbn. rewrite app_nil_r. repeat split; [done..|]. constructor.
  - cbn [cleanupFailedUpload]. unfold bind at 1, gets at 1. unfold in_registry.
    destruct (nodes (fm w) !! nodeID) as [node|] eqn:Hreg.
    + rewrite filter_cons_True by (by rewrite Hreg).
      unfold bind at 1, attempt at 1.
      destruct (node_call_fm (DeleteFileCall nodeID f v) (Storage.DeleteFile node f v) w)
        as (Hfm & _ & Hcalls & _).
      destruct (node_call _ _ w) as [w1 r]. cbn [fst snd] in *.
      destruct (IH w1) as (w' & deletes & -> & Hfm' & Hcalls' & Hdel).
      exists w', (DeleteFileCall nodeID f v (is_ok (snd (Storage.DeleteFile node f v (disk w))))
                  :: deletes).
      repeat split.
      * congruence.
      * rewrite Hcalls', Hcalls. by rewrite <- app_assoc.
      * constructor; [by eexists|]. by rewrite <- Hfm.
    + rewrite filter_cons_False by (rewrite Hreg; by intros [? ?]).
      destruct (IH w) as (w' & deletes & -> & Hfm' & Hcalls' & Hdel).
      by exists w', deletes.
Qed.

(** *** The retrieve loop of [DownloadFile] *)

Lemma last_error_cons_inl (err : error) (rs : list (error + list byte)) :
  last_error (inl err :: rs)
  = match last_error rs with Some e => Some e | None => Some err end.
Proof. unfold last_error. cbn [omap list_omap]. apply last_cons. Qed.

Lemma attempts_cons_Some (registry : gmap string Node) (fs : fsnode)
    (f v nodeID : string) (rest : list string) (node : Node) :
  registry !! nodeID = Some node ->
  attempts registry fs f v (nodeID :: rest)
  = snd (RetrieveFile node f v fs) :: attempts registry fs f v rest.
Proof. intros Hreg. unfold attempts. cbn [omap list_omap]. by rewrite Hreg. Qed.

Lemma attempts_cons_None (registry : gmap string Node) (fs : fsnode)
    (f v nodeID : string) (rest : list string) :
  registry !! nodeID = None ->
  attempts registry fs f v (nodeID :: rest) = attempts registry fs f v rest.
Proof. intros Hreg. unfold attempts. cbn [omap list_omap]. by rewrite Hreg. Qed.

Lemma retrieve_replicas_spec (f v : string) (nodeIDs : list string) :
  forall (lastErr : option error) (w : World S),
  exists w',
    retrieve_replicas nodeIDs f v lastErr w
    = (w', match first_success (attempts (nodes (fm w)) (disk w) f v nodeIDs) with
           | Some data => inr data
           | None =>
               inl (WrapError "failed to retrieve file from any replica"
                      (match last_error (attempts (nodes (fm w)) (disk w) f v nodeIDs) with
                       | Some e => Some e
                       | None => lastErr
                       end))
           end) /\
    fm w' = fm w /\ disk w' = disk w.
Proof.
  induction nodeIDs as [|nodeID rest IH]; intros lastErr w.
  - exists w. done.
  - cbn [retrieve_replicas]. unfold bind at 1, gets at 1.
    destruct (nodes (fm w) !! nodeID) as [node|] eqn:Hreg.
    + rewrite (attempts_cons_Some _ _ _ _ _ _ _ Hreg).
      unfold bind at 1, attempt at 1.
      destruct (node_call_fm (RetrieveFileCall nodeID f v) (RetrieveFile node f v) w)
        as (Hfm & Hdisk & _ & Hres).
      rewrite RetrieveFile_readonly in Hdisk.
      destruct (node_call _ _ w) as [w1 r]. cbn [fst snd] in *. rewrite <- Hres.
      destruct r as [err|data].
      * destruct (IH (Some err) w1) as (w' & -> & Hfm' & Hdisk').
        exists w'. rewrite Hfm, Hdisk. cbn [first_success].
        rewrite last_error_cons_inl. split; [|split; congruence].
        f_equal. destruct (first_success _); [done|].
        by destruct (last_error _).
      * exists w1. cbn [first_success]. done.
    + rewrite (attempts_cons_None _ _ _ _ _ _ Hreg). apply IH.
Qed.

End WithStore.

Lemma find_version_find (versions : list Version.t) (versionID : string) :
  find_version versions versionID
  = List.find (fun v => bool_decide (Version.VersionID v = versionID)) versions.
Proof.
  induction versions as [|v0 vs IH]; [done|].
  cbn [find_version List.find]. destruct (decide _) as [Heq|Hneq].
  - by rewrite bool_decide_eq_true_2.
  - by rewrite bool_decide_eq_false_2.
Qed.

End ManagerFacts.

(** ** Further properties of the ring *)

Module RingMore.
Import Hash RingSpec RingFacts RingLive.

(** The ring stays sorted. *)
Lemma RemoveNode_step_StronglySorted (n : string) (ch : ConsistentHash) (i : nat) :
  StronglySorted Z.le (hashRing ch) ->
  StronglySorted Z.le (hashRing (RemoveNode_step n ch i)).
Proof.
  intros Hs. destruct (RemoveNode_step_ring n ch i) as [->|(idx & _ & ->)]; [done|].
  rewrite <- delete_take_drop. by apply StronglySorted_delete.
Qed.

Lemma apply_op_StronglySorted (op : RingOp) (ch : ConsistentHash) :
  StronglySorted Z.le (hashRing ch) ->
  StronglySorted Z.le (hashRing (apply_op ch op)).
Proof.
  intros Hs. destruct op as [n|n]; cbn [apply_op].
  - unfold AddNode. cbn [hashRing]. apply StronglySorted_merge_sort; apply _.
  - unfold RemoveNode. generalize (seq 0 (Z.to_nat (virtualNodes ch))). intros l.
    revert ch Hs. induction l as [|i l IH]; intros ch Hs; [done|].
    cbn [foldl]. by apply IH, RemoveNode_step_StronglySorted.
Qed.

Lemma apply_ops_StronglySorted (ops : list RingOp) (ch : ConsistentHash) :
  StronglySorted Z.le (hashRing ch) ->
  StronglySorted Z.le (hashRing (apply_ops ops ch)).
Proof.
  revert ch. induction ops as [|op ops IH]; intros ch Hs; [done|].
  unfold apply_ops. cbn [foldl]. by apply IH, apply_op_StronglySorted.
Qed.

(** The accumulator of the loop of [GetNodes] is a prefix of its result. *)
Lemma GetNodes_loop_prefix (ch : ConsistentHash) (idx n i : nat)
    (nodeSet : gmap string bool) (acc : list string) :
  acc `prefix_of` GetNodes_loop ch idx n i nodeSet acc.
Proof.
  revert i nodeSet acc. induction n as [|n IH]; intros i nodeSet acc; cbn [GetNodes_loop].
  - done.
  - destruct (_ <? _); [|done]. destruct (default false _); [apply IH|].
    etrans; [|apply IH]. by apply prefix_app_r.
Qed.

Lemma search_lt (ch : ConsistentHash) (h : Z) :
  hashRing ch <> [] -> (search ch h < length (hashRing ch))%nat.
Proof.
  intros Hne. unfold search.
  destruct (Nat.leb_spec (length (hashRing ch))
              (sort_Search (length (hashRing ch)) (fun i => h <=? hashRing ch !!! i)));
    [|done].
  destruct (hashRing ch); [done|cbn; lia].
Qed.

(** Two rings that hold the positions of the same nodes are the same. *)
Lemma ring_tracks_unique (P : list string) (ch1 ch2 : ConsistentHash) :
  virtualNodes ch1 = virtualNodes ch2 -> replicaFactor ch1 = replicaFactor ch2 ->
  ring_tracks P ch1 -> ring_tracks P ch2 -> ch1 = ch2.
Proof.
  intros Hv Hr (_ & Hs1 & Hp1 & Hm1) (_ & Hs2 & Hp2 & Hm2).
  destruct ch1 as [ring1 nodes1 v1 r1], ch2 as [ring2 nodes2 v2 r2].
  cbn [hashRing nodes virtualNodes replicaFactor] in *. subst v2 r2.
  f_equal.
  - apply (StronglySorted_unique Z.le); [done|done|]. by rewrite Hp1, Hp2.
  - apply map_eq. intros h. apply option_eq. intros m.
    by rewrite Hm1, Hm2.
Qed.

Lemma live_snoc (ops : list RingOp) (op : RingOp) :
  live (ops ++ [op]) = live_step (live ops) op.
Proof. unfold live. by rewrite foldl_app. Qed.

Lemma live_subseteq (ops : list RingOp) (m : string) :
  m ∈ live ops -> m ∈ op_node <$> ops.
Proof.
  induction ops as [|op ops IH] using rev_ind; [done|].
  rewrite live_snoc, fmap_app, elem_of_app. destruct op as [n|n]; cbn.
  - intros [?| ->%list_elem_of_singleton]%elem_of_app; [left; by apply IH|].
    right. by apply list_elem_of_singleton.
  - intros [_ ?]%list_elem_of_filter. left. by apply IH.
Qed.

(** Without double registration and without collisions the ring holds
    exactly the positions of the live nodes. *)
Lemma ring_tracks_live (v r : Z) (ops : list RingOp) :
  let ch0 := NewConsistentHash v r in
  collision_free (Z.to_nat (virtualNodes ch0)) (op_node <$> ops) ->
  adds_fresh ops ch0 ->
  ring_tracks (live ops) (apply_ops ops ch0).
Proof.
  intros ch0.
  assert (0 < virtualNodes ch0) as Hv0.
  { apply (Reachable_inv ch0). by exists v, r, []. }
  induction ops as [|op ops IH] using rev_ind; intros Hcf Hfresh.
  - apply ring_tracks_new.
  - assert (collision_free (Z.to_nat (virtualNodes ch0)) (op_node <$> ops)) as Hcf'.
    { unfold collision_free in *. rewrite fmap_app in Hcf.
      apply Forall_app in Hcf as [Hcf _]. eapply Forall_impl; [exact Hcf|].
      intros n Hn. by apply Forall_app in Hn as [Hn _]. }
    assert (adds_fresh ops ch0 /\
            adds_fresh [op] (apply_ops ops ch0)) as [Hfresh' Hop].
    { clear -Hfresh. revert Hfresh. generalize ch0. clear ch0.
      induction ops as [|o ops IH]; intros ch Hf.
      - cbn in *. tauto.
      - cbn [app adds_fresh] in Hf. destruct Hf as [Ho Hf].
        destruct (IH _ Hf) as [H1 H2]. split; [by split|].
        unfold apply_ops in *. by cbn [foldl]. }
    specialize (IH Hcf' Hfresh').
    destruct (apply_ops_config ops ch0) as [Hv _].
    rewrite apply_ops_app, live_snoc. unfold apply_ops at 1. cbn [foldl].
    assert (forall m, m ∈ live ops -> m ∈ op_node <$> (ops ++ [op])) as Hsub.
    { intros m Hm%live_subseteq. rewrite fmap_app, elem_of_app. by left. }
    assert (op_node op ∈ op_node <$> (ops ++ [op])) as Hin.
    { rewrite fmap_app, elem_of_app. right. by apply list_elem_of_singleton. }
    destruct op as [n|n]; cbn [apply_op live_step op_node] in *.
    + destruct Hop as [Hop _].
      rewrite (ring_tracks_GetAllNodes (live ops) (apply_ops ops ch0) ltac:(lia) IH) in Hop.
      apply ring_tracks_AddNode; [done|done|]. rewrite Hv.
      intros m h Hm Hh.
      apply (collision_free_spec _ _ m n h Hcf); [by apply Hsub|done| |done].
      by intros ->.
    + apply ring_tracks_RemoveNode; [done|]. rewrite Hv.
      intros m h Hm Hne Hh.
      apply (collision_free_spec _ _ m n h Hcf); [by apply Hsub|done|done|done].
Qed.


Lemma adds_fresh_app (ops1 ops2 : list RingOp) (ch : ConsistentHash) :
  adds_fresh (ops1 ++ ops2) ch <->
  adds_fresh ops1 ch /\ adds_fresh ops2 (apply_ops ops1 ch).
Proof.
  revert ch. induction ops1 as [|o ops1 IH]; intros ch.
  - cbn. tauto.
  - cbn [app adds_fresh]. rewrite IH. unfold apply_ops. cbn [foldl]. tauto.
Qed.

Lemma collision_free_app_l (v : nat) (U1 U2 : list string) :
  collision_free v (U1 ++ U2) -> collision_free v U1.
Proof.
  unfold collision_free. intros Hcf. apply Forall_app in Hcf as [Hcf _].
  eapply Forall_impl; [exact Hcf|]. intros n Hn. by apply Forall_app in Hn as [Hn _].
Qed.

(** On a sorted ring [search] finds the first position that is not below
    the hash, and index 0 when every position is below it. *)
Lemma search_sorted (ch : ConsistentHash) (h : Z) :
  StronglySorted Z.le (hashRing ch) -> hashRing ch <> [] ->
  let idx := search ch h in
  (idx < length (hashRing ch))%nat /\
  ((h <= hashRing ch !!! idx /\
    forall k, (k < idx)%nat -> hashRing ch !!! k < h) \/
   (idx = 0%nat /\ forall p, p ∈ hashRing ch -> p < h)).
Proof.
  intros Hs Hne idx. split; [by apply search_lt|]. subst idx. unfold search.
  set (ring := hashRing ch) in *.
  set (f := fun k : nat => h <=? ring !!! k).
  destruct (sort_Search_spec (length ring) f) as (Hle & Hlo & Hhi).
  { intros a b Hab. unfold f. rewrite !Z.leb_le. intros Ha.
    destruct (lookup_lt_is_Some_2 ring a) as [x Hx]; [lia|].
    destruct (lookup_lt_is_Some_2 ring b) as [y Hy]; [lia|].
    rewrite (list_lookup_total_correct _ _ _ Hx) in Ha.
    rewrite (list_lookup_total_correct _ _ _ Hy).
    pose proof (StronglySorted_lookup_le ring a b x y Hs ltac:(lia) Hx Hy). lia. }
  destruct (Nat.leb_spec (length ring) (sort_Search (length ring) f)) as [Hge|Hlt].
  - right. split; [done|]. intros p (k & Hk)%list_elem_of_lookup_1.
    pose proof (lookup_lt_Some _ _ _ Hk).
    assert (f k = false) as Hf by (apply Hlo; lia).
    unfold f in Hf. rewrite (list_lookup_total_correct _ _ _ Hk) in Hf.
    by apply Z.leb_gt in Hf.
  - left. split.
    + assert (f (sort_Search (length ring) f) = true) as Hf by (apply Hhi; lia).
      unfold f in Hf at 1. by apply Z.leb_le in Hf.
    + intros k Hk. apply Hlo in Hk. unfold f in Hk. by apply Z.leb_gt in Hk.
Qed.

(** The first node that [GetNodes] returns on a ring that is not empty. *)
Lemma GetNodes_head (key : string) (ch : ConsistentHash) :
  0 < replicaFactor ch -> hashRing ch <> [] ->
  head (GetNodes key ch) = Some (owner_at ch (search ch (hashKey key))).
Proof.
  intros Hrf Hne. unfold GetNodes.
  destruct (Nat.eqb_spec (length (hashRing ch)) 0) as [H0|Hpos].
  { by apply nil_length_inv in H0. }
  pose proof (search_lt ch (hashKey key) Hne) as Hlt.
  set (idx := search ch (hashKey key)) in *.
  assert (exists n, length (hashRing ch) = S n) as [n Hn].
  { exists (pred (length (hashRing ch))). lia. }
  replace (GetNodes_loop ch idx (length (hashRing ch)) 0 ∅ [])
    with (GetNodes_loop ch idx (S n) 0 ∅ []) by (by rewrite Hn).
  cbn [GetNodes_loop length]. change (Z.of_nat 0) with 0.
  destruct (Z.ltb_spec 0 (replicaFactor ch)); [|lia].
  rewrite Nat.add_0_r, Nat.mod_small by done. fold (owner_at ch idx).
  rewrite lookup_empty. cbn [from_option id].
  destruct (GetNodes_loop_prefix ch idx n (0 + 1)
              (<[owner_at ch idx := true]> ∅) ([] ++ [owner_at ch idx])) as [k Hk].
  by rewrite Hk.
Qed.

End RingMore.

(** ** Further properties of the file system: what a call leaves alone *)

Module FSFrame.
Import Errors FS Storage StorageSpec StorageFacts PathSpec.

Lemma walk_empty_dir (p : path) :
  p <> [] -> walk p (Dir ∅) = inl ENOENT.
Proof. destruct p as [|x p]; [done|]. intros _. cbn. by rewrite lookup_empty. Qed.

Lemma diverge_snoc (p q : path) (x : string) :
  diverge p q -> diverge (p ++ [x]) q.
Proof.
  intros (c & a & b & r1 & r2 & Hne & -> & ->).
  exists c, a, b, (r1 ++ [x]), r2. split; [done|]. split; [|done].
  by rewrite <- app_assoc.
Qed.

Lemma diverge_sym (p q : path) : diverge p q -> diverge q p.
Proof.
  intros (c & a & b & r1 & r2 & Hne & -> & ->). exists c, b, a, r2, r1. by repeat split.
Qed.

Lemma diverge_app (p q r1 r2 : path) : diverge p q -> diverge (p ++ r1) (q ++ r2).
Proof.
  intros (c & a & b & s1 & s2 & Hne & -> & ->).
  exists c, a, b, (s1 ++ r1), (s2 ++ r2). split; [done|].
  by rewrite <- !app_assoc.
Qed.

(** [in_dir] below one branch leaves the other branches alone. *)
Lemma in_dir_frame_deep (c r1 r2 : path) (x y : string) g (n n' : fsnode) :
  in_dir (c ++ x :: r1) g n = inr n' -> x <> y ->
  walk (c ++ y :: r2) n' = walk (c ++ y :: r2) n.
Proof.
  revert n n'. induction c as [|z c IH]; intros [?|m] n'; cbn [app in_dir]; try done.
  - destruct (m !! x) as [k|] eqn:Hx; [|done].
    destruct (in_dir r1 g k) as [?|k']; [done|]. intros [= <-] Hne.
    cbn [walk]. by rewrite lookup_insert_ne.
  - destruct (m !! z) as [k|] eqn:Hz; [|done].
    destruct (in_dir (c ++ x :: r1) g k) as [?|k'] eqn:Hk; [done|].
    intros [= <-] Hne. cbn [walk]. rewrite lookup_insert_eq, Hz. by eapply IH.
Qed.

(** [in_dir] that changes one entry of a directory leaves what is below
    its other entries alone. *)
Lemma in_dir_frame_entry (d r2 : path) (x y : string) g (n n' : fsnode) :
  in_dir d g n = inr n' -> x <> y ->
  (forall m m', g m = inr m' -> m' !! y = m !! y) ->
  walk (d ++ y :: r2) n' = walk (d ++ y :: r2) n.
Proof.
  intros (m & m' & Hw & Hg & Hw')%in_dir_inv Hne Hkeep.
  rewrite !walk_app, Hw, Hw'. cbn [walk]. by rewrite (Hkeep m m' Hg).
Qed.

(** An update of the entry [name] of the directory [d]: paths that
    diverge from [d ++ [name]] are left alone. *)
Lemma in_dir_frame (d : path) (name : string) g (n n' : fsnode) (q : path) :
  in_dir d g n = inr n' ->
  (forall m m' y, g m = inr m' -> y <> name -> m' !! y = m !! y) ->
  diverge (d ++ [name]) q -> walk q n' = walk q n.
Proof.
  intros Hin Hkeep (c & x & y & r1 & r2 & Hne & Hd & ->).
  destruct r1 as [|z r1 _] using rev_ind.
  - apply app_inj_tail in Hd as [-> ->].
    eapply in_dir_frame_entry; [done|done|]. intros m m' Hg. eapply Hkeep; [done|].
    by intros ->.
  - rewrite app_comm_cons, app_assoc in Hd. apply app_inj_tail in Hd as [-> _].
    by eapply in_dir_frame_deep.
Qed.

Lemma WriteFile_frame (d : path) (name : string) (data : list byte)
    (n n' : fsnode) (q : path) :
  WriteFile (d ++ [name]) data n = inr n' ->
  diverge (d ++ [name]) q -> walk q n' = walk q n.
Proof.
  unfold WriteFile. rewrite path_split_snoc. intros Hin.
  eapply in_dir_frame; [exact Hin|]. intros m m' y Hg Hy. cbn beta in Hg.
  destruct (m !! name) as [[?|?]|]; simplify_eq; by rewrite lookup_insert_ne.
Qed.

Lemma RemoveAll_frame (d : path) (name : string) (n n' : fsnode) (q : path) :
  RemoveAll (d ++ [name]) n = inr n' ->
  diverge (d ++ [name]) q -> walk q n' = walk q n.
Proof.
  unfold RemoveAll. rewrite path_split_snoc.
  destruct (in_dir d _ n) as [[]|n1] eqn:Hin; try done.
  - by intros [= <-].
  - intros [= <-]. eapply in_dir_frame; [exact Hin|]. intros m m' y [= <-] Hy.
    by rewrite lookup_delete_ne.
Qed.

Lemma Remove_frame (d : path) (name : string) (n n' : fsnode) (q : path) :
  Remove (d ++ [name]) n = inr n' ->
  diverge (d ++ [name]) q -> walk q n' = walk q n.
Proof.
  unfold Remove. rewrite path_split_snoc. intros Hin.
  eapply in_dir_frame; [exact Hin|]. intros m m' y Hg Hy. cbn beta in Hg.
  destruct (m !! name) as [[?|e]|]; [| |done].
  - simplify_eq. by rewrite lookup_delete_ne.
  - destruct (map_to_list e); simplify_eq. by rewrite lookup_delete_ne.
Qed.

Lemma MkdirAll_frame (c r1 r2 : path) (x y : string) (n n' : fsnode) :
  MkdirAll (c ++ x :: r1) n = inr n' -> x <> y ->
  walk (c ++ y :: r2) n' = walk (c ++ y :: r2) n.
Proof.
  revert n n'. induction c as [|z c IH]; intros [?|m] n'; cbn [app MkdirAll]; try done.
  - destruct (MkdirAll r1 _) as [?|k']; [done|]. intros [= <-] Hne.
    cbn [walk]. by rewrite lookup_insert_ne.
  - destruct (MkdirAll (c ++ x :: r1) _) as [?|k'] eqn:Hk; [done|].
    intros [= <-] Hne. cbn [walk]. rewrite lookup_insert_eq.
    rewrite (IH _ _ Hk Hne). destruct (m !! z); [done|].
    cbn [from_option id]. apply walk_empty_dir. by destruct c.
Qed.

Lemma MkdirAll_diverge (p q : path) (n n' : fsnode) :
  MkdirAll p n = inr n' -> diverge p q -> walk q n' = walk q n.
Proof.
  intros Hm (c & x & y & r1 & r2 & Hne & -> & ->). by eapply MkdirAll_frame.
Qed.


Lemma MkdirAll_existing (p : path) (n : fsnode) (m : gmap string fsnode) :
  walk p n = inr (Dir m) -> MkdirAll p n = inr n.
Proof.
  revert n. induction p as [|x p IH]; intros [?|m0]; cbn [walk MkdirAll]; try done.
  destruct (m0 !! x) as [k|] eqn:Hx; [|done]. intros Hw. cbn [from_option id].
  rewrite (IH k Hw). by rewrite insert_id.
Qed.

Lemma MkdirAll_walk (p : path) (n n' : fsnode) :
  MkdirAll p n = inr n' -> exists m, walk p n' = inr (Dir m).
Proof.
  revert n n'. induction p as [|x p IH]; intros [?|m0] n'; cbn [MkdirAll]; try done.
  - intros [= <-]. by eexists.
  - destruct (MkdirAll p _) as [?|k] eqn:Hk; [done|]. intros [= <-].
    destruct (IH _ _ Hk) as [m Hm]. exists m. cbn [walk]. by rewrite lookup_insert_eq.
Qed.

(** Creating directories below a directory that lacks the first of
    them gives an empty directory at the end of the path. *)
Lemma MkdirAll_new (p r : path) (x : string) (n : fsnode) (m : gmap string fsnode) :
  walk p n = inr (Dir m) -> m !! x = None ->
  exists n', MkdirAll (p ++ x :: r) n = inr n' /\
             walk (p ++ x :: r) n' = inr (Dir ∅).
Proof.
  revert n. induction p as [|z p IH]; intros [?|m0]; cbn [walk app MkdirAll]; try done.
  - intros [= ->] Hx. rewrite Hx. cbn [from_option id].
    destruct (MkdirAll_fresh r) as (k & -> & Hk). eexists. split; [done|].
    cbn [walk]. by rewrite lookup_insert_eq.
  - destruct (m0 !! z) as [k|] eqn:Hz; [|done]. intros Hw Hx. cbn [from_option id].
    destruct (IH k Hw Hx) as (k' & -> & Hk'). eexists. split; [done|].
    cbn [walk]. by rewrite lookup_insert_eq.
Qed.

(** When [in_dir] reports a missing directory and the update itself
    cannot, the directory is missing. *)
Lemma in_dir_ENOENT (p : path) g (n : fsnode) :
  in_dir p g n = inl ENOENT -> (forall m, g m <> inl ENOENT) ->
  walk p n = inl ENOENT.
Proof.
  revert n. induction p as [|x p IH]; intros [?|m0]; cbn [walk in_dir]; try done.
  - destruct (g m0) as [e|?] eqn:Hg; [|done]. intros [= ->] Hno. by destruct (Hno m0).
  - destruct (m0 !! x) as [k|] eqn:Hx; [|done].
    destruct (in_dir p g k) as [e|?] eqn:Hk; [|done]. intros [= ->] Hno. by apply IH.
Qed.

(** *** The storage node *)

(** What [RetrieveFile] returns depends on the version directory only. *)
Lemma RetrieveFile_depends (n : Node) (f v : string) (fs1 fs2 : fsnode) :
  walk (versionPath n f v) fs1 = walk (versionPath n f v) fs2 ->
  snd (RetrieveFile n f v fs1) = snd (RetrieveFile n f v fs2).
Proof.
  intros Hw.
  assert (forall x, ReadFile (versionPath n f v ++ [x]) fs1
                    = ReadFile (versionPath n f v ++ [x]) fs2) as Hread.
  { intros x. unfold ReadFile. by rewrite !walk_app, Hw. }
  unfold RetrieveFile, bind, query. rewrite Hread.
  destruct (ReadFile _ fs2); [done|]. rewrite Hread.
  destruct (ReadFile _ fs2); [done|]. by case_decide.
Qed.

Lemma retrievable_depends (n : Node) (f v : string) (d : list byte) (fs1 fs2 : fsnode) :
  walk (versionPath n f v) fs2 = walk (versionPath n f v) fs1 ->
  retrievable n f v d fs1 -> retrievable n f v d fs2.
Proof.
  intros Hw Hr. unfold retrievable in *.
  pose proof (RetrieveFile_depends n f v fs2 fs1 Hw) as Hs. rewrite Hr in Hs.
  pose proof (RetrieveFile_readonly n f v fs2) as Hf.
  destruct (RetrieveFile n f v fs2). cbn in *. by subst.
Qed.

(** [StoreFile], whatever its result, leaves alone every path that
    diverges from the path of the version. *)
Lemma StoreFile_frame (n : Node) (f v : string) (data : list byte)
    (fs fs' : fsnode) r (q : path) :
  StoreFile n f v data fs = (fs', r) -> diverge (versionPath n f v) q ->
  walk q fs' = walk q fs.
Proof.
  intros Hstore Hdiv. unfold StoreFile, bind, update in Hstore.
  destruct (MkdirAll _ fs) as [?|fs1] eqn:H1; [by simplify_eq|].
  pose proof (MkdirAll_diverge _ _ _ _ H1 Hdiv) as E1.
  destruct (WriteFile _ data fs1) as [?|fs2] eqn:H2; [by simplify_eq|].
  pose proof (WriteFile_frame _ _ _ _ _ q H2 (diverge_snoc _ _ _ Hdiv)) as E2.
  destruct (WriteFile _ _ fs2) as [?|fs3] eqn:H3; simplify_eq; [congruence|].
  pose proof (WriteFile_frame _ _ _ _ _ q H3 (diverge_snoc _ _ _ Hdiv)) as E3.
  congruence.
Qed.

(** The paths of two different versions on one node diverge, for
    identifiers that are names. *)
Lemma versionPath_diverge (n : Node) (f v f' v' : string) (r : path) :
  proper_name f -> proper_name v -> proper_name f' -> proper_name v' ->
  (f, v) <> (f', v') -> diverge (versionPath n f v) (versionPath n f' v' ++ r).
Proof.
  intros Hf Hv Hf' Hv' Hne. rewrite !versionPath_proper by done.
  destruct (decide (f = f')) as [->|Hff].
  - exists (StoragePath n ++ [f']), v, v', [], r. split; [congruence|].
    by rewrite <- !app_assoc.
  - exists (StoragePath n), f, f', [v], ([v'] ++ r). split; [done|].
    by rewrite <- !app_assoc.
Qed.

Lemma container_diverge (n : Node) (f f' v' : string) (r : path) :
  proper_name f -> proper_name f' -> proper_name v' ->
  f <> f' -> diverge (containerPath n f) (versionPath n f' v' ++ r).
Proof.
  intros Hf Hf' Hv' Hne. rewrite versionPath_proper, containerPath_proper by done.
  exists (StoragePath n), f, f', [], ([v'] ++ r).
  split; [done|]. by rewrite <- !app_assoc.
Qed.

(** [DeleteFile], whatever its result, leaves alone every path that
    diverges from the container of the file. *)
Lemma DeleteFile_frame (n : Node) (f v : string) (fs fs' : fsnode) r (q : path) :
  proper_name f -> proper_name v ->
  DeleteFile n f v fs = (fs', r) -> diverge (containerPath n f) q ->
  walk q fs' = walk q fs.
Proof.
  intros Hf Hv Hdel Hdiv. unfold DeleteFile, bind, update, query in Hdel.
  rewrite versionPath_snoc in Hdel by done.
  destruct (RemoveAll _ fs) as [?|fs1] eqn:H1; [by simplify_eq|].
  pose proof (RemoveAll_frame _ _ _ _ q H1 (diverge_snoc _ _ _ Hdiv)) as E1.
  destruct (ReadDir _ fs1) as [?|entries] eqn:H2; [congruence|].
  destruct (length entries =? 0)%nat eqn:H3; [|unfold ret in Hdel; congruence].
  rewrite containerPath_proper in * by done.
  destruct (Remove _ fs1) as [?|fs2] eqn:H4; [congruence|].
  pose proof (Remove_frame _ _ _ _ q H4 Hdiv). congruence.
Qed.

Lemma DeleteAllVersions_frame (n : Node) (f : string) (fs fs' : fsnode) r (q : path) :
  proper_name f ->
  DeleteAllVersions n f fs = (fs', r) -> diverge (containerPath n f) q ->
  walk q fs' = walk q fs.
Proof.
  intros Hf Hdel Hdiv. unfold DeleteAllVersions, update in Hdel.
  rewrite containerPath_proper in * by done.
  destruct (RemoveAll _ fs) as [?|fs1] eqn:H1; simplify_eq; [done|].
  by eapply RemoveAll_frame.
Qed.

Lemma in_dir_walk_err (p : path) g (n : fsnode) e :
  walk p n = inl e -> in_dir p g n = inl e.
Proof.
  revert n. induction p as [|x p IH]; intros [?|m0]; cbn [walk in_dir]; try done.
  destruct (m0 !! x) as [k|] eqn:Hx; [|done]. intros Hw. by rewrite (IH k Hw).
Qed.

(** A path that is missing leaves the tree at some directory. *)
Lemma walk_ENOENT_split (p : path) (n : fsnode) :
  walk p n = inl ENOENT ->
  exists c x r m, p = c ++ x :: r /\ walk c n = inr (Dir m) /\ m !! x = None.
Proof.
  revert n. induction p as [|x p IH]; intros [?|m0]; cbn [walk]; try done.
  destruct (m0 !! x) as [k|] eqn:Hx.
  - intros (c & y & r & m & -> & Hw & Hy)%IH. exists (x :: c), y, r, m.
    split; [done|]. cbn [walk]. by rewrite Hx.
  - intros _. by exists [], x, p, m0.
Qed.

Lemma FileExists_walk (n : Node) (f v : string) (fs : fsnode) :
  FileExists n f v fs
  = match walk (versionPath n f v ++ ["data"%string]) fs with
    | inl _ => false
    | inr _ => true
    end.
Proof. unfold FileExists, Stat. by destruct (walk _ fs). Qed.

Lemma FileExists_depends (n : Node) (f v : string) (fs1 fs2 : fsnode) :
  walk (versionPath n f v) fs1 = walk (versionPath n f v) fs2 ->
  FileExists n f v fs1 = FileExists n f v fs2.
Proof. intros Hw. by rewrite !FileExists_walk, !walk_app, Hw. Qed.

(** A version whose directory cannot be reached does not exist and
    cannot be read. *)
Lemma version_absent (n : Node) (f v : string) (fs : fsnode) e :
  walk (versionPath n f v) fs = inl e ->
  FileExists n f v fs = false /\
  RetrieveFile n f v fs
  = (fs, inl (PathError "open" (versionPath n f v ++ ["data"%string]) e)).
Proof.
  intros Hw. split.
  - by rewrite FileExists_walk, walk_app, Hw.
  - unfold RetrieveFile, bind, query, ReadFile. by rewrite walk_app, Hw.
Qed.

(** What a successful [Storage.DeleteFile] leaves at the container. *)
Lemma DeleteFile_ok_inv (n : Node) (f v : string) (fs fs' : fsnode) :
  proper_name f -> proper_name v ->
  Storage.DeleteFile n f v fs = (fs', inr tt) ->
  exists m, walk (containerPath n f) fs = inr (Dir m) /\
    walk (containerPath n f) fs'
    = match map_to_list (delete v m) with
      | [] => inl ENOENT
      | _ :: _ => inr (Dir (delete v m))
      end.
Proof.
  intros Hf Hv Hdel.
  assert (exists m, walk (containerPath n f) fs = inr (Dir m)) as [m Hm].
  { unfold Storage.DeleteFile, bind, update, query in Hdel.
    rewrite versionPath_snoc in Hdel by done. unfold RemoveAll in Hdel.
    rewrite path_split_snoc in Hdel.
    destruct (walk (containerPath n f) fs) as [e|[?|m]] eqn:Hw.
    - rewrite (in_dir_walk_err _ _ _ _ Hw) in Hdel.
      assert (ReadDir (containerPath n f) fs = inl e) as Hrd
        by (unfold ReadDir; by rewrite Hw).
      destruct e; rewrite ?Hrd in Hdel; by simplify_eq.
    - destruct (in_dir _ _ fs) as [e|k] eqn:Hin.
      + assert (ReadDir (containerPath n f) fs = inl ENOTDIR) as Hrd
          by (unfold ReadDir; by rewrite Hw).
        destruct e; rewrite ?Hrd in Hdel; by simplify_eq.
      + apply in_dir_inv in Hin as (? & ? & ? & _). congruence.
    - by exists m. }
  exists m. split; [done|].
  destruct (DeleteFile_container n f v fs m Hf Hv Hm) as (fs2 & Hdel2 & Hw2). congruence.
Qed.

Lemma divergeb_diverge (p q : path) : divergeb p q = true -> diverge p q.
Proof.
  revert q. induction p as [|x p IH]; intros [|y q]; cbn [divergeb]; try done.
  case_decide as Hxy.
  - subst y. intros (c & a & b & r1 & r2 & Hne & -> & ->)%IH.
    by exists (x :: c), a, b, r1, r2.
  - intros _. by exists [], x, y, p, q.
Qed.

(** Storing a version again leaves it readable, with the new bytes. *)
Lemma StoreFile_overwrite (n : Node) (f v : string) (old data : list byte) (fs : fsnode) :
  retrievable n f v old fs ->
  exists fs',
    Storage.StoreFile n f v data fs = (fs', inr tt) /\ retrievable n f v data fs'.
Proof.
  intros (_ & m & c & Hw & Hd & Hc)%RetrieveFile_ok_inv.
  unfold Storage.StoreFile, bind, update.
  rewrite (MkdirAll_existing _ _ _ Hw).
  destruct (WriteFile_ok _ "data" data _ _ Hw) as (fs2 & -> & Hw2).
  { intros e. by rewrite Hd. }
  destruct (WriteFile_ok _ "checksum" (list_byte_of_string (calculateChecksum data)) _ _ Hw2)
    as (fs3 & -> & Hw3).
  { intros e. by rewrite lookup_insert_ne, Hc. }
  exists fs3. split; [done|]. unfold retrievable.
  rewrite (RetrieveFile_walk n f v fs3 _ data
             (list_byte_of_string (calculateChecksum data)) Hw3).
  - rewrite string_of_list_byte_of_string. by rewrite decide_True.
  - by rewrite lookup_insert_ne, lookup_insert_eq.
  - by rewrite lookup_insert_eq.
Qed.

Lemma StoreFile_retrievable (n : Node) (f v : string) (data : list byte) (fs fs' : fsnode) :
  Storage.StoreFile n f v data fs = (fs', inr tt) -> retrievable n f v data fs'.
Proof.
  intros (m & Hw & Hd & Hc)%StoreFile_ok. unfold retrievable.
  rewrite (RetrieveFile_walk n f v fs' m _ _ Hw Hd Hc).
  rewrite string_of_list_byte_of_string. by rewrite decide_True.
Qed.

(** A store on a node whose directory lies beside that of [n] leaves
    the versions of [n] readable, for identifiers that are names. *)
Lemma StoreFile_beside (n n' : Node) (f v f' v' : string) (data data' : list byte)
    (fs fs' : fsnode) r :
  proper_name f -> proper_name v -> proper_name f' -> proper_name v' ->
  diverge (StoragePath n) (StoragePath n') ->
  retrievable n f v data fs ->
  Storage.StoreFile n' f' v' data' fs = (fs', r) ->
  retrievable n f v data fs'.
Proof.
  intros Hf Hv Hf' Hv' Hdiv Hr Hstore. eapply retrievable_depends; [|exact Hr].
  eapply StoreFile_frame; [exact Hstore|].
  rewrite !versionPath_proper by done. by apply diverge_app, diverge_sym.
Qed.

(** [DeleteAllVersions] on an existing storage directory. *)
Lemma DeleteAllVersions_ok (n : Node) (f : string) (fs : fsnode) (m : gmap string fsnode) :
  proper_name f ->
  walk (StoragePath n) fs = inr (Dir m) ->
  exists fs',
    DeleteAllVersions n f fs = (fs', inr tt) /\
    walk (StoragePath n) fs' = inr (Dir (delete f m)).
Proof.
  intros Hf Hw. unfold DeleteAllVersions, update, RemoveAll.
  rewrite containerPath_proper, path_split_snoc by done.
  destruct (in_dir_ok (StoragePath n) (fun m => inr (delete f m)) fs m (delete f m) Hw eq_refl)
    as (fs' & Hin & Hw').
  exists fs'. by rewrite Hin.
Qed.

End FSFrame.

(** ** Properties of the remaining methods of the storage node *)

Module StorageRestFacts.
Import Errors FS Storage StorageSpec StorageFacts PathSpec FSFrame StorageRest.

(** *** Two updates of one directory *)

Lemma in_dir_compose (d : path) g1 g2 (n n1 : fsnode) :
  in_dir d g1 n = inr n1 ->
  in_dir d g2 n1
  = in_dir d (fun m => match g1 m with inl e => inl e | inr m1 => g2 m1 end) n.
Proof.
  revert n n1. induction d as [|x d IH]; intros [?|m] n1; cbn [in_dir]; try done.
  - destruct (g1 m) as [?|m1]; [done|]. by intros [= <-].
  - destruct (m !! x) as [c|] eqn:Hx; [|done].
    destruct (in_dir d g1 c) as [?|c1] eqn:Hc; [done|]. intros [= <-].
    cbn [in_dir]. rewrite lookup_insert_eq, (IH _ _ Hc).
    match goal with
    | |- match ?t with _ => _ end = _ => destruct t as [?|c2]; [done|]
    end.
    by rewrite (insert_insert_eq (M := gmap string)).
Qed.

Lemma in_dir_ext (d : path) g1 g2 (n : fsnode) :
  (forall m, g1 m = g2 m) -> in_dir d g1 n = in_dir d g2 n.
Proof.
  intros Hg. revert n. induction d as [|x d IH]; intros [?|m]; cbn [in_dir]; try done.
  - by rewrite Hg.
  - destruct (m !! x); [|done]. by rewrite IH.
Qed.

Lemma in_dir_err (d : path) g1 g2 (n : fsnode) e :
  (forall m e, g1 m = inl e -> g2 m = inl e) ->
  in_dir d g1 n = inl e -> in_dir d g2 n = inl e.
Proof.
  intros Hg. revert n. induction d as [|x d IH]; intros [?|m]; cbn [in_dir]; try done.
  - destruct (g1 m) as [e1|?] eqn:H1; [|done]. intros [= <-]. by rewrite (Hg m e1 H1).
  - destruct (m !! x); [|done].
    destruct (in_dir d g1 f) as [e1|?] eqn:H1; [|done]. intros [= <-].
    by rewrite (IH f H1).
Qed.

Lemma WriteFile_err (d : path) (name : string) (data data' : list byte) (n : fsnode) e :
  WriteFile (d ++ [name]) data n = inl e -> WriteFile (d ++ [name]) data' n = inl e.
Proof.
  unfold WriteFile. rewrite path_split_snoc. apply in_dir_err.
  intros m e0. by destruct (m !! name) as [[?|?]|].
Qed.

(** Appending to a file just written is writing the longer content. *)
Lemma WriteFile_AppendFile (d : path) (name : string) (c0 c : list byte) (n n1 : fsnode) :
  WriteFile (d ++ [name]) c0 n = inr n1 ->
  AppendFile (d ++ [name]) c n1 = WriteFile (d ++ [name]) (c0 ++ c) n.
Proof.
  unfold WriteFile, AppendFile. rewrite path_split_snoc. intros Hw.
  rewrite (in_dir_compose _ _ _ _ _ Hw). apply in_dir_ext. intros m.
  destruct (m !! name) as [[?|?]|];
    rewrite ?lookup_insert_eq, ?(insert_insert_eq (M := gmap string)); done.
Qed.

Lemma WriteFile_any (d : path) (name : string) (c0 c : list byte) (n n1 : fsnode) :
  WriteFile (d ++ [name]) c0 n = inr n1 ->
  exists n2, WriteFile (d ++ [name]) c n = inr n2.
Proof.
  intros Hw. destruct (WriteFile (d ++ [name]) c n) as [e|n2] eqn:Hc; [|by eexists].
  apply (WriteFile_err d name c c0) in Hc. congruence.
Qed.

(** The copy loop, started on a file that holds [c0]. *)
Lemma copy_chunks_spec (d : path) (name : string) (chunks : list (list byte)) :
  forall (c0 hashed : list byte) (n n1 : fsnode),
  WriteFile (d ++ [name]) c0 n = inr n1 ->
  exists n2,
    copy_chunks (d ++ [name]) chunks hashed n1 = (n2, inr (hashed ++ concat chunks)) /\
    WriteFile (d ++ [name]) (c0 ++ concat chunks) n = inr n2.
Proof.
  induction chunks as [|chunk rest IH]; intros c0 hashed n n1 Hw.
  - exists n1. cbn. by rewrite !app_nil_r.
  - cbn [copy_chunks concat]. unfold bind at 1, update at 1.
    rewrite (WriteFile_AppendFile _ _ _ _ _ _ Hw).
    destruct (WriteFile_any d name c0 (c0 ++ chunk) n n1 Hw) as [n2 Hw2].
    rewrite Hw2. destruct (IH (c0 ++ chunk) (hashed ++ chunk) n n2 Hw2) as (n3 & -> & Hw3).
    exists n3. by rewrite <- !app_assoc in *.
Qed.

(** *** Sizes *)









(** *** Calls below a directory, seen from that directory *)




(** *** Text lengths *)




(** *** [ListFiles] *)

Lemma ListFiles_spec (n : Node) (fs : fsnode) (m : gmap string fsnode) :
  walk (StoragePath n) fs = inr (Dir m) ->
  exists ids,
    ListFiles n fs = (fs, inr ids) /\ NoDup ids /\
    (forall f, f ∈ ids <-> exists e, m !! f = Some (Dir e)).
Proof.
  intros Hw. unfold ListFiles, bind, query, ReadDir_sorted, ReadDir. rewrite Hw.
  eexists. split; [done|]. split.
  - apply (NoDup_fmap_2_strong fst).
    + intros [a x] [b y] [_ Ha]%list_elem_of_filter [_ Hb]%list_elem_of_filter Heq.
      cbn in Heq. subst b.
      rewrite merge_sort_Permutation in Ha, Hb.
      apply elem_of_map_to_list in Ha, Hb. congruence.
    + apply NoDup_filter. rewrite merge_sort_Permutation. apply NoDup_map_to_list.
  - intros f. rewrite list_elem_of_fmap. split.
    + intros ([a x] & -> & [Hdir Hin]%list_elem_of_filter).
      rewrite merge_sort_Permutation in Hin. apply elem_of_map_to_list in Hin.
      cbn in *. destruct x as [?|e]; [done|]. by exists e.
    + intros [e He]. exists (f, Dir e). split; [done|].
      apply list_elem_of_filter. split; [done|].
      rewrite merge_sort_Permutation. by apply elem_of_map_to_list.
Qed.

(** *** What a store never removes *)




End StorageRestFacts.

(** ** Further properties of the file manager *)

Module ManagerMoreFacts.
Import Errors FS Storage Hash Metadata Manager ManagerSpec StorageSpec StorageFacts.
Import ManagerFacts PathSpec FSFrame ManagerMore.

Lemma disjoint_storage_diverge (registry : gmap string Node) (a b : string) (na nb : Node) :
  disjoint_storage registry ->
  registry !! a = Some na -> registry !! b = Some nb -> a <> b ->
  diverge (StoragePath na) (StoragePath nb).
Proof.
  intros Hd Ha Hb Hne. apply divergeb_diverge. by apply (Hd a na Ha b nb Hb).
Qed.

Lemma storage_dirs_exist_walk (registry : gmap string Node) (fs : fsnode)
    (a : string) (na : Node) :
  storage_dirs_exist registry fs -> registry !! a = Some na ->
  exists m, walk (StoragePath na) fs = inr (Dir m).
Proof.
  intros Hd Ha. specialize (Hd a na Ha). cbn beta in Hd.
  destruct (walk (StoragePath na) fs) as [?|[?|m]]; try done. by exists m.
Qed.

Section WithStore.
Context {S : Type} `{!Store S}.

(** *** The store loop of [UploadFile] *)

Lemma store_replicas_calls (f v : string) (data : list byte) (nodeIDs : list string) :
  forall (acc : list string) (w : World S),
  exists w' new,
    store_replicas nodeIDs f v data acc w = (w', inr (acc ++ stored_ok new)) /\
    fm w' = fm w /\
    calls w' = calls w ++ new /\
    Forall2 (is_store_of f v) (in_registry (nodes (fm w)) nodeIDs) new.
Proof.
  induction nodeIDs as [|nodeID rest IH]; intros acc w.
  - exists w, []. cbn. rewrite !app_nil_r. repeat split; [done..|]. constructor.
  - cbn [store_replicas]. unfold bind at 1, gets at 1. unfold in_registry.
    destruct (nodes (fm w) !! nodeID) as [node|] eqn:Hreg.
    + rewrite filter_cons_True by (by rewrite Hreg).
      unfold bind at 1, attempt at 1.
      destruct (node_call_fm (StoreFileCall nodeID f v) (Storage.StoreFile node f v data) w)
        as (Hfm & _ & Hcalls & Hres).
      destruct (node_call _ _ w) as [w1 r]. cbn [fst snd] in *.
      destruct r as [err|[]].
      * destruct (IH acc w1) as (w' & new & -> & Hfm' & Hcalls' & Hin).
        exists w', (StoreFileCall nodeID f v false :: new).
        rewrite <- Hres in Hcalls. cbn [is_ok] in Hcalls. cbn [stored_ok omap].
        fold (stored_ok new). repeat split.
        -- congruence.
        -- rewrite Hcalls', Hcalls. by rewrite <- app_assoc.
        -- constructor; [by eexists|]. by rewrite <- Hfm.
      * destruct (IH (acc ++ [nodeID]) w1) as (w' & new & -> & Hfm' & Hcalls' & Hin).
        exists w', (StoreFileCall nodeID f v true :: new).
        rewrite <- Hres in Hcalls. cbn [is_ok] in Hcalls. cbn [stored_ok omap].
        fold (stored_ok new). rewrite <- app_assoc. repeat split.
        -- congruence.
        -- rewrite Hcalls', Hcalls. by rewrite <- app_assoc.
        -- constructor; [by eexists|]. by rewrite <- Hfm.
    + rewrite filter_cons_False by (rewrite Hreg; by intros [? ?]).
      destruct (IH acc w) as (w' & new & -> & Hfm' & Hcalls' & Hin).
      by exists w', new.
Qed.

(** Every node that the store loop reports holds the version when the
    loop ends, as long as the storage directories lie side by side. *)
Lemma store_replicas_retrievable (f v : string) (data : list byte) (nodeIDs : list string) :
  proper_name f -> proper_name v ->
  forall (acc : list string) (w w' : World S) (stored : list string),
  disjoint_storage (nodes (fm w)) ->
  store_replicas nodeIDs f v data acc w = (w', inr stored) ->
  (forall n, n ∈ acc ->
     exists node, nodes (fm w) !! n = Some node /\ retrievable node f v data (disk w)) ->
  forall n, n ∈ stored ->
    exists node, nodes (fm w) !! n = Some node /\ retrievable node f v data (disk w').
Proof.
  intros Hf Hv.
  induction nodeIDs as [|nodeID rest IH]; intros acc w w' stored Hdisj Hloop Hacc.
  - cbn in Hloop. injection Hloop as <- <-. done.
  - cbn [store_replicas] in Hloop. unfold bind at 1, gets at 1 in Hloop.
    destruct (nodes (fm w) !! nodeID) as [node|] eqn:Hreg; [|by eapply IH].
    unfold bind at 1, attempt at 1 in Hloop.
    destruct (node_call_fm (StoreFileCall nodeID f v) (Storage.StoreFile node f v data) w)
      as (Hfm & Hdisk & _ & Hres).
    destruct (node_call _ _ w) as [w1 r]. cbn [fst snd] in *.
    destruct (Storage.StoreFile node f v data (disk w)) as [d1 r1] eqn:Hstore.
    cbn [fst snd] in *. subst r1.
    assert (forall n, n ∈ acc ->
      exists node0, nodes (fm w1) !! n = Some node0 /\ retrievable node0 f v data (disk w1))
      as Hacc1.
    { intros n (node0 & Hn & Hr)%Hacc. exists node0. rewrite Hfm, Hdisk. split; [done|].
      destruct (decide (n = nodeID)) as [->|Hne].
      - assert (node0 = node) as -> by congruence.
        destruct (StoreFile_overwrite node f v data data (disk w) Hr) as (d2 & Hs2 & Hr2).
        congruence.
      - eapply (StoreFile_beside node0 node f v f v); [done..| |exact Hr|exact Hstore].
        by eapply disjoint_storage_diverge. }
    rewrite <- Hfm in Hdisj. rewrite <- Hfm.
    destruct r as [err|[]].
    + by eapply (IH acc w1 w' stored).
    + eapply (IH (acc ++ [nodeID]) w1 w' stored); [done|done|].
      intros n [Hn| ->%list_elem_of_singleton]%elem_of_app; [by apply Hacc1|].
      exists node. rewrite Hfm, Hdisk. split; [done|]. by eapply StoreFile_retrievable.
Qed.

(** *** The retrieve loop of [DownloadFile] *)

Lemma retrieve_replicas_calls (f v : string) (nodeIDs : list string) :
  forall (lastErr : option error) (w : World S),
  exists new,
    calls (fst (retrieve_replicas nodeIDs f v lastErr w)) = calls w ++ new /\
    Forall (is_retrieve_from (nodes (fm w)) f) new.
Proof.
  induction nodeIDs as [|nodeID rest IH]; intros lastErr w.
  - exists []. cbn. by rewrite app_nil_r.
  - cbn [retrieve_replicas]. unfold bind at 1, gets at 1.
    destruct (nodes (fm w) !! nodeID) as [node|] eqn:Hreg; [|apply IH].
    unfold bind at 1, attempt at 1.
    destruct (node_call_fm (RetrieveFileCall nodeID f v) (RetrieveFile node f v) w)
      as (Hfm & _ & Hcalls & _).
    destruct (node_call _ _ w) as [w1 r]. cbn [fst snd] in *.
    assert (is_retrieve_from (nodes (fm w)) f
              (RetrieveFileCall nodeID f v (is_ok (snd (RetrieveFile node f v (disk w))))))
      as Hcall.
    { exists nodeID, v, (is_ok (snd (RetrieveFile node f v (disk w)))). by rewrite Hreg. }
    destruct r as [err|data].
    + destruct (IH (Some err) w1) as (new & Hnew & Hall).
      eexists (_ :: new). rewrite Hnew, Hcalls, <- app_assoc. split; [done|].
      constructor; [done|]. by rewrite <- Hfm.
    + eexists [_]. cbn [fst ret]. split; [exact Hcalls|]. by constructor.
Qed.

(** *** The delete loop of [DeleteFile] *)

Lemma delete_replicas_spec (f : string) (nodeIDs : list string) :
  forall w : World S,
  exists w' deletes,
    delete_replicas nodeIDs f w = (w', inr tt) /\
    fm w' = fm w /\
    calls w' = calls w ++ deletes /\
    Forall2 (is_delete_all_of f) (in_registry (nodes (fm w)) nodeIDs) deletes.
Proof.
  induction nodeIDs as [|nodeID rest IH]; intros w.
  - exists w, []. cbn. rewrite app_nil_r. repeat split; [done..|]. constructor.
  - cbn [delete_replicas]. unfold bind at 1, gets at 1. unfold in_registry.
    destruct (nodes (fm w) !! nodeID) as [node|] eqn:Hreg.
    + rewrite filter_cons_True by (by rewrite Hreg).
      unfold bind at 1, attempt at 1.
      destruct (node_call_fm (DeleteAllVersionsCall nodeID f) (DeleteAllVersions node f) w)
        as (Hfm & _ & Hcalls & _).
      destruct (node_call _ _ w) as [w1 r]. cbn [fst snd] in *.
      destruct (IH w1) as (w' & deletes & -> & Hfm' & Hcalls' & Hdel).
      exists w', (DeleteAllVersionsCall nodeID f
                    (is_ok (snd (DeleteAllVersions node f (disk w)))) :: deletes).
      repeat split.
      * congruence.
      * rewrite Hcalls', Hcalls. by rewrite <- app_assoc.
      * constructor; [by eexists|]. by rewrite <- Hfm.
    + rewrite filter_cons_False by (rewrite Hreg; by intros [? ?]).
      destruct (IH w) as (w' & deletes & -> & Hfm' & Hcalls' & Hdel).
      by exists w', deletes.
Qed.

(** With storage directories that exist and lie side by side, the
    delete loop leaves them in place and leaves no container of the
    file on the nodes it went through. *)
Lemma delete_replicas_removes (f : string) (nodeIDs : list string) :
  proper_name f ->
  forall (w w' : World S) r,
  disjoint_storage (nodes (fm w)) ->
  storage_dirs_exist (nodes (fm w)) (disk w) ->
  delete_replicas nodeIDs f w = (w', r) ->
  storage_dirs_exist (nodes (fm w)) (disk w') /\
  (forall n node, nodes (fm w) !! n = Some node ->
     walk (containerPath node f) (disk w) = inl ENOENT \/ n ∈ nodeIDs ->
     walk (containerPath node f) (disk w') = inl ENOENT).
Proof.
  intros Hf.
  induction nodeIDs as [|nodeID rest IH]; intros w w' r0 Hdisj Hdirs Hloop.
  - cbn in Hloop. injection Hloop as <- <-. split; [done|].
    intros n node Hn [?|?%elem_of_nil]; done.
  - cbn [delete_replicas] in Hloop. unfold bind at 1, gets at 1 in Hloop.
    destruct (nodes (fm w) !! nodeID) as [node|] eqn:Hreg.
    + unfold bind at 1, attempt at 1 in Hloop.
      destruct (node_call_fm (DeleteAllVersionsCall nodeID f) (DeleteAllVersions node f) w)
        as (Hfm & Hdisk & _ & _).
      destruct (node_call _ _ w) as [w1 r]. cbn [fst snd] in *.
      destruct (storage_dirs_exist_walk _ _ _ _ Hdirs Hreg) as [m Hm].
      destruct (DeleteAllVersions_ok node f (disk w) m Hf Hm) as (d1 & Hdel & Hm1).
      rewrite Hdel in Hdisk. cbn [fst] in Hdisk.
      assert (forall b nb, nodes (fm w) !! b = Some nb -> b <> nodeID ->
                forall q, walk (StoragePath nb ++ q) d1 = walk (StoragePath nb ++ q) (disk w))
        as Hframe.
      { intros b nb Hb Hne q. eapply DeleteAllVersions_frame; [done|exact Hdel|].
        rewrite containerPath_proper by done.
        apply diverge_app. eapply disjoint_storage_diverge; [done|done|done|].
        congruence. }
      assert (storage_dirs_exist (nodes (fm w1)) (disk w1)) as Hdirs1.
      { rewrite Hfm, Hdisk. intros b nb Hb. cbn beta.
        destruct (decide (b = nodeID)) as [->|Hne].
        - assert (nb = node) as -> by congruence. by rewrite Hm1.
        - rewrite <- (app_nil_r (StoragePath nb)), (Hframe b nb Hb Hne), app_nil_r.
          by apply (Hdirs b nb Hb). }
      rewrite <- Hfm in Hdisj.
      destruct (IH w1 w' r0 Hdisj Hdirs1 Hloop) as [Hdirs' Hgone].
      rewrite Hfm in Hdirs', Hgone. split; [done|].
      intros n nd Hn Hcase. apply (Hgone n nd Hn).
      destruct (decide (n = nodeID)) as [->|Hne].
      * left. assert (nd = node) as -> by congruence.
        rewrite containerPath_proper by done.
        rewrite Hdisk, walk_app, Hm1. cbn [walk]. by rewrite lookup_delete_eq.
      * destruct Hcase as [Hw|[?|Hin]%elem_of_cons]; [|done|by right].
        left. rewrite containerPath_proper in * by done.
        rewrite Hdisk. by rewrite (Hframe n nd Hn Hne).
    + destruct (IH w w' r0 Hdisj Hdirs Hloop) as [Hdirs' Hgone]. split; [done|].
      intros n nd Hn Hcase. apply (Hgone n nd Hn).
      destruct Hcase as [Hw|[->|Hin]%elem_of_cons]; [by left|congruence|by right].
Qed.

(** *** [DownloadFile] *)

(** The download returns the bytes of the first recorded node of the
    selected version when that node is registered and holds them. *)
Lemma DownloadFile_first_replica (w : World S) (fileID versionID : string)
    (fileMeta : FileMetadata.t) (s' : S) (target : Version.t)
    (n1 : string) (rest : list string) (node : Node) (data : list byte) :
  GetMetadata fileID (metadataStore (fm w)) = (s', inr fileMeta) ->
  (if decide (versionID = EmptyString)
   then last (FileMetadata.Versions fileMeta)
   else find_version (FileMetadata.Versions fileMeta) versionID) = Some target ->
  Version.Nodes target = n1 :: rest ->
  nodes (fm w) !! n1 = Some node ->
  retrievable node fileID (Version.VersionID target) data (disk w) ->
  snd (DownloadFile fileID versionID w) = inr (data, fileMeta).
Proof.
  intros Hget Hsel Hnodes Hreg Hr. unfold DownloadFile.
  unfold bind at 1, attempt at 1, store_call. rewrite Hget. cbn [is_ok].
  set (w1 := {| fm := _; disk := disk w; calls := _ |}).
  assert (snd ((do data <- retrieve_replicas (Version.Nodes target) fileID
                              (Version.VersionID target) None;
                ret (data, fileMeta)) w1) = inr (data, fileMeta)) as Hloop.
  { unfold bind.
    destruct (retrieve_replicas_spec fileID (Version.VersionID target)
                (Version.Nodes target) None w1) as (w' & -> & _ & _).
    subst w1. cbn [fm nodes disk]. rewrite Hnodes.
    rewrite (attempts_cons_Some _ _ _ _ _ _ _ Hreg). unfold retrievable in Hr.
    rewrite Hr. done. }
  unfold bind at 1.
  destruct (decide (versionID = EmptyString)) as [->|Hvid].
  - rewrite last_lookup in Hsel. rewrite <- Nat.sub_1_r in Hsel.
    destruct (Nat.eqb_spec (length (FileMetadata.Versions fileMeta)) 0) as [H0|_].
    { apply nil_length_inv in H0. by rewrite H0 in Hsel. }
    rewrite Hsel. unfold ret at 1. apply Hloop.
  - rewrite Hsel. unfold ret at 1. apply Hloop.
Qed.

Lemma DownloadFile_footprint (w w' : World S) (fileID versionID : string)
    (r : error + (list byte * FileMetadata.t)) :
  DownloadFile fileID versionID w = (w', r) -> download_footprint fileID w w'.
Proof.
  unfold DownloadFile.
  unfold bind at 1, attempt at 1, store_call.
  destruct (GetMetadata fileID (metadataStore (fm w))) as [s' [err|fileMeta]].
  { intros [= <- <-]. split_and!; [done..|]. by exists false, []. }
  cbn [is_ok].
  set (w1 := {| fm := _; disk := disk w; calls := _ |}).
  assert (download_footprint fileID w w1) as H1.
  { split_and!; [done..|]. by exists true, []. }
  assert (forall target,
    (do data <- retrieve_replicas (Version.Nodes target) fileID
                  (Version.VersionID target) None;
     ret (data, fileMeta)) w1 = (w', r) ->
    download_footprint fileID w w') as Hloop.
  { intros target. unfold bind.
    destruct (retrieve_replicas_calls fileID (Version.VersionID target)
                (Version.Nodes target) None w1) as (new & Hcalls & Hall).
    destruct (retrieve_replicas_spec fileID (Version.VersionID target)
                (Version.Nodes target) None w1) as (w2 & Heq & Hfm & Hdisk).
    rewrite Heq in Hcalls |- *. cbn [fst] in Hcalls.
    assert (download_footprint fileID w w2) as Hres.
    { unfold download_footprint. rewrite Hfm, Hdisk, Hcalls. subst w1.
      cbn [fm disk calls nodes hashRing].
      split_and!; [done..|]. exists true, new. by rewrite <- app_assoc. }
    destruct (first_success _); unfold ret; by intros [= <- <-]. }
  unfold bind at 1.
  destruct (decide (versionID = EmptyString)) as [->|Hvid].
  - destruct (length (FileMetadata.Versions fileMeta) =? 0)%nat;
      [by intros [= <- <-]|].
    destruct (FileMetadata.Versions fileMeta !! _) as [target|].
    + unfold ret at 1. apply Hloop.
    + by intros [= <- <-].
  - destruct (find_version _ _) as [target|].
    + unfold ret at 1. apply Hloop.
    + by intros [= <- <-].
Qed.

End WithStore.

(** *** The mock metadata store *)

Lemma mock_GetMetadata (m : MockMetadataStore) (fileID : string) :
  GetMetadata fileID m
  = (m, match files m !! fileID with
        | Some meta => inr meta
        | None => inl ErrFileNotFound
        end).
Proof. cbn. by destruct (files m !! fileID). Qed.

(** What a successful [UploadFile] over the mock store has done. *)
Lemma UploadFile_mock_inv (env : UploadEnv) (filename : string) (data : list byte)
    (contentType : string) (w w' : World MockMetadataStore) (meta : FileMetadata.t) :
  let f := env_fileID env in
  let v := env_versionID env in
  UploadFile env filename data contentType w = (w', inr meta) ->
  exists w1 n1 rest,
    store_replicas (GetNodes f (hashRing (fm w))) f v data [] w = (w1, inr (n1 :: rest)) /\
    fm w1 = fm w /\
    FileMetadata.FileID meta = f /\
    FileMetadata.Replicas meta = n1 :: rest /\
    FileMetadata.Versions meta
    = [ {| Version.VersionID := v; Version.Size := Z.of_nat (length data);
           Version.Nodes := n1 :: rest;
           Version.CreatedAt := env_versionCreatedAt env |} ] /\
    files (metadataStore (fm w')) !! f = Some meta /\
    (forall g, g <> f ->
       files (metadataStore (fm w')) !! g = files (metadataStore (fm w)) !! g) /\
    nodes (fm w') = nodes (fm w) /\ hashRing (fm w') = hashRing (fm w) /\
    disk w' = disk w1.
Proof.
  intros f v. unfold UploadFile. fold f v. unfold bind at 1, gets at 1.
  destruct (length (GetNodes f (hashRing (fm w))) =? 0)%nat; [done|].
  unfold bind at 1.
  destruct (store_replicas_spec f v data (GetNodes f (hashRing (fm w))) [] w)
    as (w1 & new & Hloop & Hfm & _ & _).
  rewrite Hloop. cbn [app].
  destruct (stored_ok new) as [|n1 rest] eqn:Hstored; [done|].
  cbn [length Nat.eqb]. unfold bind at 1, attempt at 1, store_call.
  cbn -[upload_record]. intros [= <- <-].
  exists w1, n1, rest. cbn. rewrite !Hfm. rewrite lookup_insert_eq.
  repeat split; try done.
  intros g Hg. by rewrite lookup_insert_ne.
Qed.


(** Over the mock store and with storage directories side by side, what
    was uploaded is what a download of the new file returns. *)
Lemma upload_download_mock
    (env : UploadEnv) (filename : string) (data : list byte) (contentType : string)
    (w w' : World MockMetadataStore) (meta : FileMetadata.t) (versionID : string) :
  proper_name (env_fileID env) -> proper_name (env_versionID env) ->
  disjoint_storage (nodes (fm w)) ->
  UploadFile env filename data contentType w = (w', inr meta) ->
  versionID = EmptyString \/ versionID = env_versionID env ->
  snd (GetFileInfo (env_fileID env) w') = inr meta /\
  snd (DownloadFile (env_fileID env) versionID w') = inr (data, meta).
Proof.
  intros Hf Hv Hdisj Hup Hvid.
  destruct (UploadFile_mock_inv _ _ _ _ _ _ _ Hup)
    as (w1 & n1 & rest & Hloop & Hfm & Hid & Hrep & Hvers & Hfile & _ & Hnodes & _ & Hdisk).
  destruct (store_replicas_retrievable _ _ _ _ Hf Hv [] w w1 (n1 :: rest) Hdisj Hloop
              ltac:(by intros n ?%elem_of_nil) n1 ltac:(by left))
    as (node & Hreg & Hr).
  split.
  - unfold GetFileInfo, store_call. rewrite mock_GetMetadata, Hfile. done.
  - eapply (DownloadFile_first_replica w' _ versionID meta (metadataStore (fm w')) _
              n1 rest node data).
    + by rewrite mock_GetMetadata, Hfile.
    + rewrite Hvers. destruct (decide (versionID = EmptyString)) as [?|Hne]; [done|].
      destruct Hvid as [? | ->]; [done|]. cbn. by rewrite decide_True.
    + done.
    + by rewrite Hnodes.
    + cbn [Version.VersionID]. by rewrite Hdisk.
Qed.

End ManagerMoreFacts.

(** ** Properties of the streaming handlers *)

Module ServerFacts.
Import Errors FS Storage Hash Metadata Manager Server.

Lemma wrap64_small (z : Z) : - 2 ^ 63 <= z < 2 ^ 63 -> wrap64 z = z.
Proof. intros Hz. unfold wrap64. rewrite Z.mod_small; lia. Qed.

(** The chunk loop on a stream that delivers every message. *)
Lemma send_chunks_list (data : list byte) (totalSize : Z) (contentType : string) :
  Z.of_nat (length data) + maxChunkSize < 2 ^ 63 ->
  forall (fuel : nat) (offset : Z) (sent : list DownloadResponse.t),
  0 <= offset ->
  (Z.to_nat (Z.of_nat (length data) - offset) < fuel)%nat ->
  exists msgs,
    send_chunks fuel data totalSize contentType offset sent = (sent ++ msgs, inr tt) /\
    concat (DownloadResponse.Chunk <$> msgs) = drop (Z.to_nat offset) data /\
    Forall (fun m =>
      DownloadResponse.TotalSize m = totalSize /\
      DownloadResponse.ContentType m = contentType /\
      0 < Z.of_nat (length (DownloadResponse.Chunk m)) <= maxChunkSize) msgs /\
    (forall i m, msgs !! i = Some m -> (i + 1 < length msgs)%nat ->
       Z.of_nat (length (DownloadResponse.Chunk m)) = maxChunkSize) /\
    (Z.of_nat (length data) <= offset -> msgs = []).
Proof.
  intros Hlen. assert (maxChunkSize = 1048576) as Hmax by reflexivity.
  induction fuel as [|fuel IH]; intros offset sent Hoff Hfuel; [lia|].
  cbn [send_chunks].
  destruct (Z.ltb_spec offset (Z.of_nat (length data))) as [Hlt|Hge].
  - rewrite wrap64_small by lia.
    set (end_ := if offset + maxChunkSize >? Z.of_nat (length data)
                 then Z.of_nat (length data) else offset + maxChunkSize).
    assert (end_ = Z.min (offset + maxChunkSize) (Z.of_nat (length data))) as Hend.
    { subst end_. rewrite Z.gtb_ltb. destruct (Z.ltb_spec (Z.of_nat (length data))
        (offset + maxChunkSize)); lia. }
    clearbody end_.
    unfold slice.
    replace ((0 <=? offset) && (offset <=? end_) && (end_ <=? Z.of_nat (length data)))
      with true by (symmetry; rewrite !andb_true_iff, !Z.leb_le; lia).
    unfold bind at 1, attempt at 1. cbn [Send list_DownloadStream].
    set (chunk := take (Z.to_nat (end_ - offset)) (drop (Z.to_nat offset) data)).
    set (msg := {| DownloadResponse.Chunk := chunk |}).
    destruct (IH (offset + maxChunkSize) (sent ++ [msg]) ltac:(lia) ltac:(lia))
      as (msgs & -> & Hcat & Hall & Hfull & Hnil).
    assert (Z.of_nat (length chunk) = end_ - offset) as Hchunk.
    { subst chunk. rewrite length_take, length_drop. lia. }
    exists (msg :: msgs). rewrite <- app_assoc. split; [done|]. split_and!.
    + rewrite fmap_cons. cbn [concat]. rewrite Hcat. subst msg chunk.
      cbn [DownloadResponse.Chunk].
      destruct (Z.le_gt_cases (offset + maxChunkSize) (Z.of_nat (length data))) as [Hin|Hout].
      * replace end_ with (offset + maxChunkSize) by lia.
        replace (Z.to_nat (offset + maxChunkSize))
          with (Z.to_nat offset + Z.to_nat (offset + maxChunkSize - offset))%nat by lia.
        rewrite <- drop_drop. apply take_drop.
      * rewrite (drop_ge data (Z.to_nat (offset + maxChunkSize))) by lia.
        rewrite app_nil_r. apply take_ge. rewrite length_drop. lia.
    + constructor; [|done]. subst msg. cbn. split_and!; [done|done|lia|lia].
    + intros [|i] m Hm Hi.
      * injection Hm as <-. subst msg. cbn [DownloadResponse.Chunk]. rewrite Hchunk.
        destruct (Z.le_gt_cases (Z.of_nat (length data)) (offset + maxChunkSize))
          as [Hout|Hin]; [|lia].
        rewrite (Hnil Hout) in Hi. cbn in Hi. lia.
      * apply (Hfull i m Hm). cbn [length] in Hi. lia.
    + lia.
  - exists []. rewrite app_nil_r. split; [done|]. split_and!.
    + cbn. symmetry. apply drop_ge. lia.
    + constructor.
    + intros i m Hm. by rewrite lookup_nil in Hm.
    + done.
Qed.

(** The receive loop. *)
Lemma receive_named (reqs : list UploadRequest.t) (filename contentType : string)
    (buffer : list byte) :
  filename <> EmptyString ->
  receive reqs filename contentType buffer
  = (filename, contentType, buffer ++ concat (UploadRequest.Chunk <$> reqs)).
Proof.
  intros Hname. revert buffer. induction reqs as [|req rest IH]; intros buffer.
  - cbn. by rewrite app_nil_r.
  - cbn [receive]. rewrite decide_False by done. rewrite IH.
    rewrite fmap_cons. cbn [concat]. by rewrite <- app_assoc.
Qed.

Lemma receive_unnamed (reqs : list UploadRequest.t) (contentType : string)
    (buffer : list byte) :
  receive reqs EmptyString contentType buffer
  = match List.find (fun r => bool_decide (UploadRequest.Filename r <> EmptyString)) reqs with
    | Some r =>
        (UploadRequest.Filename r, UploadRequest.ContentType r,
         buffer ++ concat (UploadRequest.Chunk <$> reqs))
    | None =>
        (EmptyString, from_option UploadRequest.ContentType contentType (last reqs),
         buffer ++ concat (UploadRequest.Chunk <$> reqs))
    end.
Proof.
  revert contentType buffer.
  induction reqs as [|req rest IH]; intros contentType buffer.
  - cbn. by rewrite app_nil_r.
  - cbn [receive List.find]. rewrite decide_True by done.
    rewrite fmap_cons. cbn [concat]. rewrite app_assoc.
    case_bool_decide as Hname.
    + by apply receive_named.
    + rewrite Hname, IH.
      destruct (List.find _ rest); [done|]. rewrite last_cons.
      by destruct (last rest).
Qed.

End ServerFacts.

(** ** Claims about the hash ring *)

Import Hash RingSpec RingFacts.

(** C1 (as stated) fails, in two ways. With one virtual node per
    physical node and a replica factor of 2, registering "a" twice,
    removing it and then registering "b" leaves one registered node, yet
    [GetNodes] returns two identifiers, the first being the empty string
    read at the position that the removal left behind. And registering
    "node-57628" and "node-82234", whose only virtual positions collide,
    leaves two registered nodes, yet [GetNodes] returns one
    identifier. *)
Lemma C1_counterexample :
  (let ch := apply_ops [OpAddNode "a"; OpAddNode "a"; OpRemoveNode "a"; OpAddNode "b"]
               (NewConsistentHash 1 2) in
   registered [OpAddNode "a"; OpAddNode "a"; OpRemoveNode "a"; OpAddNode "b"]
   = ["b"%string] /\
   GetAllNodes ch = ["b"%string] /\ replicaFactor ch = 2 /\
   GetNodes "k" ch = [EmptyString; "b"%string]) /\
  (let ch := apply_ops [OpAddNode "node-57628"; OpAddNode "node-82234"]
               (NewConsistentHash 1 2) in
   registered [OpAddNode "node-57628"; OpAddNode "node-82234"]
   = ["node-57628"; "node-82234"]%string /\
   replicaFactor ch = 2 /\
   GetNodes "k" ch = ["node-82234"%string]).
Proof. vm_compute. repeat split; reflexivity. Qed.

(** C1 (amended): for every ring state reached from the constructor by
    [AddNode] and [RemoveNode] calls on nodes no two of which have a
    virtual position in common, in which every position of the ordered
    sequence has an owner in the position-to-node map, and for every
    key: the ring reports exactly the registered nodes (those added and
    not removed since); [GetNodes] returns distinct identifiers, each of
    them a registered node, exactly [replicaFactor] of them when at
    least that many nodes are registered and exactly as many as are
    registered when there are fewer; with no node registered, and on an
    empty ring, it returns the empty list. *)
Theorem C1_GetNodes_count (v r : Z) (ops : list RingOp) (key : string) :
  let ch0 := NewConsistentHash v r in
  let ch := apply_ops ops ch0 in
  collision_free (Z.to_nat (virtualNodes ch0)) (op_node <$> ops) ->
  no_stale_positions ch ->
  let R := Z.of_nat (length (registered ops)) in
  let res := GetNodes key ch in
  GetAllNodes ch ≡ₚ registered ops /\
  NoDup res /\
  (forall x, x ∈ res -> x ∈ registered ops) /\
  (replicaFactor ch <= R -> Z.of_nat (length res) = replicaFactor ch) /\
  (0 < R < replicaFactor ch -> Z.of_nat (length res) = R) /\
  (R = 0 -> res = []) /\
  (hashRing ch = [] -> res = []).
Proof.
  intros ch0 ch Hcf Hstale R res.
  assert (Reachable ch) as Hreach by (by exists v, r, ops).
  pose proof (registered_GetAllNodes v r ops Hcf) as Hreg. cbn zeta in Hreg.
  fold ch0 ch in Hreg.
  destruct (Reachable_inv ch Hreach) as (_ & Hrf & Hkeys).
  destruct (GetNodes_spec key ch ltac:(lia)) as (Hnd & Hle & Helem & Hall).
  fold res in Hnd, Hle, Helem, Hall.
  unfold no_stale_positions in Hstale. rewrite Forall_forall in Hstale.
  assert (forall x, x ∈ res -> x ∈ GetAllNodes ch) as Hmem.
  { intros x (j & Hj & ->)%Helem. unfold GetAllNodes.
    apply elem_of_elements, elem_of_map_img.
    destruct (lookup_lt_is_Some_2 _ _ Hj) as [h Hh].
    destruct (Hstale h) as [y Hy]; [by eapply list_elem_of_lookup_2|].
    exists h. unfold owner_at.
    by rewrite (list_lookup_total_correct _ _ _ Hh), Hy. }
  assert (R = Z.of_nat (length (GetAllNodes ch))) as HR.
  { subst R. by rewrite Hreg. }
  assert (Z.of_nat (length res) <= R) as HleR.
  { rewrite HR. by apply inj_le, submseteq_length, NoDup_submseteq. }
  assert (Z.of_nat (length res) < replicaFactor ch -> R <= Z.of_nat (length res))
    as HgeR.
  { intros Hlt. rewrite HR. unfold GetAllNodes.
    apply inj_le, submseteq_length, NoDup_submseteq.
    - apply NoDup_elements.
    - intros x (h & Hh)%elem_of_elements%elem_of_map_img.
      destruct (list_elem_of_lookup_1 (hashRing ch) h) as [j Hj].
      { apply Hkeys. by exists x. }
      replace x with (owner_at ch j).
      + apply Hall; [done|]. by eapply lookup_lt_Some.
      + unfold owner_at. by rewrite (list_lookup_total_correct _ _ _ Hj), Hh. }
  split; [done|]. split; [done|]. split; [|split; [|split; [|split]]].
  - intros x Hx. rewrite <- Hreg. by apply Hmem.
  - intros HRge. destruct (Z.lt_ge_cases (Z.of_nat (length res)) (replicaFactor ch));
      [|lia]. specialize (HgeR ltac:(done)). lia.
  - intros HRlt. apply Z.le_antisymm; [done|]. apply HgeR. lia.
  - intros HR0. apply nil_length_inv. lia.
  - intros Hempty. subst res. unfold GetNodes. by rewrite Hempty.
Qed.

Lemma C1_GetNodes_count_witness :
  let ops := [OpAddNode "node-1"; OpAddNode "node-2"; OpAddNode "node-3"] in
  let ch := apply_ops ops (NewConsistentHash 10 2) in
  GetAllNodes ch ≡ₚ registered ops /\
  NoDup (GetNodes "test-key" ch) /\
  (forall x, x ∈ GetNodes "test-key" ch -> x ∈ registered ops) /\
  (replicaFactor ch <= Z.of_nat (length (registered ops)) ->
   Z.of_nat (length (GetNodes "test-key" ch)) = replicaFactor ch) /\
  (0 < Z.of_nat (length (registered ops)) < replicaFactor ch ->
   Z.of_nat (length (GetNodes "test-key" ch)) = Z.of_nat (length (registered ops))) /\
  (Z.of_nat (length (registered ops)) = 0 -> GetNodes "test-key" ch = []) /\
  (hashRing ch = [] -> GetNodes "test-key" ch = []).
Proof.
  intros ops ch. apply (C1_GetNodes_count 10 2 ops "test-key").
  - apply (bool_decide_unpack _); vm_compute; exact I.
  - apply (bool_decide_unpack _); vm_compute; exact I.
Defined.

(** C7 (as stated) fails for the empty identifier: after it is
    registered twice and removed once, the ring keeps one position
    without an owner, and [GetNodes] reads the empty string there. *)
Lemma C7_counterexample :
  GetNodes "k"
    (apply_ops [] (RemoveNode EmptyString
       (apply_ops [OpAddNode EmptyString; OpAddNode EmptyString]
          (NewConsistentHash 1 2))))
  = [EmptyString].
Proof. vm_compute. reflexivity. Qed.

(** C7 (amended): for every sequence of [AddNode] and [RemoveNode]
    operations, every key and every non-empty identifier [N]: after
    [RemoveNode N], [N] is in no result of [GetNodes] until [N] is added
    again. *)
Theorem C7_removed_node_not_returned
    (v r : Z) (pre post : list RingOp) (N key : string) :
  N <> EmptyString ->
  OpAddNode N ∉ post ->
  N ∉ GetNodes key
        (apply_ops post (RemoveNode N (apply_ops pre (NewConsistentHash v r)))).
Proof.
  intros HN Hpost Hin.
  apply GetNodes_elem in Hin as [?|[h Hh]]; [done|].
  revert Hh. apply absent_ops; [done|].
  apply RemoveNode_absent, owners_at_positions_reachable.
  by exists v, r, pre.
Qed.

Lemma C7_removed_node_not_returned_witness :
  "node-2"%string ∉
    GetNodes "key1"
      (apply_ops [OpRemoveNode "node-1"; OpAddNode "node-4"]
         (RemoveNode "node-2"
            (apply_ops [OpAddNode "node-1"; OpAddNode "node-2"; OpAddNode "node-3"]
               (NewConsistentHash 50 2)))).
Proof.
  apply C7_removed_node_not_returned.
  - discriminate.
  - apply (bool_decide_unpack _); vm_compute; exact I.
Defined.

(** C8 (as stated) fails: registering the same node twice doubles its
    entries in the ordered sequence while the ring still holds one
    distinct node. *)
Lemma C8_counterexample :
  let ch := apply_ops [OpAddNode "a"; OpAddNode "a"] (NewConsistentHash 1 2) in
  length (hashRing ch) = 2%nat /\ virtualNodes ch = 1 /\
  GetAllNodes ch = ["a"%string].
Proof. vm_compute. repeat split; reflexivity. Qed.

(** C8 (amended): after every sequence of [AddNode] and [RemoveNode]
    operations in which [AddNode] is only called for a node that the ring
    does not hold at that time, and in which no two distinct nodes have
    a virtual position in common, the ordered sequence contains exactly
    [virtualNodes] times the number of distinct nodes of the ring. *)
Theorem C8_ring_length (v r : Z) (ops : list RingOp) :
  let ch0 := NewConsistentHash v r in
  collision_free (Z.to_nat (virtualNodes ch0)) (op_node <$> ops) ->
  adds_fresh ops ch0 ->
  let ch := apply_ops ops ch0 in
  Z.of_nat (length (hashRing ch))
  = virtualNodes ch * Z.of_nat (length (GetAllNodes ch)).
Proof.
  intros ch0 Hcf Hfresh ch.
  assert (0 < virtualNodes ch0) as Hv.
  { apply (Reachable_inv ch0). by exists v, r, []. }
  destruct (ring_tracks_ops (op_node <$> ops) ops [] ch0) as [P HP];
    [done|done| | |apply ring_tracks_new|done|].
  - by intros m ?%elem_of_nil.
  - intros op Hop. apply list_elem_of_fmap. by exists op.
  - apply (ring_tracks_length P); [|done].
    subst ch. by destruct (apply_ops_config ops ch0) as [-> _].
Qed.

Lemma C8_ring_length_witness :
  let ops := [OpAddNode "node-1"; OpAddNode "node-2"; OpRemoveNode "node-2";
              OpRemoveNode "node-9"; OpAddNode "node-2"] in
  let ch := apply_ops ops (NewConsistentHash 3 2) in
  Z.of_nat (length (hashRing ch))
  = virtualNodes ch * Z.of_nat (length (GetAllNodes ch)).
Proof.
  intros ops ch. apply (C8_ring_length 3 2 ops).
  - apply (bool_decide_unpack _); vm_compute; exact I.
  - repeat split; apply (bool_decide_unpack _); vm_compute; exact I.
Defined.

(** Two distinct nodes whose first virtual keys have the same position:
    the second registration overwrites the owner of the first. *)
Example ring_position_collision :
  hashKey (virtualKey "node-57628" 0) = hashKey (virtualKey "node-82234" 0) /\
  let ch := apply_ops [OpAddNode "node-57628"; OpAddNode "node-82234"]
              (NewConsistentHash 1 2) in
  length (hashRing ch) = 2%nat /\ GetAllNodes ch = ["node-82234"%string].
Proof. vm_compute. repeat split; reflexivity. Qed.

(** ** Claims about the storage node *)

Import Errors FS Storage StorageSpec StorageFacts.

(** C2: for every node, fileID, versionID and byte sequence (the empty
    one included), when [StoreFile] succeeds, [RetrieveFile] with the
    same identifiers on the resulting state succeeds and returns the
    bytes that were stored. *)
Theorem C2_store_retrieve_roundtrip
    (n : Node) (f v : string) (data : list byte) (fs fs' : fsnode) :
  StoreFile n f v data fs = (fs', inr tt) ->
  RetrieveFile n f v fs' = (fs', inr data).
Proof.
  intros (m & Hw & Hd & Hc)%StoreFile_ok.
  rewrite (RetrieveFile_walk n f v fs' m _ _ Hw Hd Hc).
  rewrite string_of_list_byte_of_string. by rewrite decide_True.
Qed.

Lemma C2_store_retrieve_roundtrip_witness :
  let n := mkNode "test-node" ["tmp"%string] in
  let fs' := fst (StoreFile n "file-1" "version-1" [] (Dir ∅)) in
  RetrieveFile n "file-1" "version-1" fs' = (fs', inr []).
Proof.
  intros n fs'. apply (C2_store_retrieve_roundtrip n _ _ [] (Dir ∅)).
  vm_compute. reflexivity.
Defined.







(** ** Claims about the file manager *)

Import Errors FS Storage Hash Metadata Manager ManagerSpec ManagerFacts Fixtures.

(** C4: in every execution of [UploadFile] in which the store loop ends
    with a non-empty list of nodes that stored the version and the
    metadata save then fails, the call returns the error of the save and
    no record, and after the save the file manager calls [DeleteFile]
    for the version on exactly the nodes of that list that are in the
    registry, in order; these are all of them, and they are the nodes of
    the successful [StoreFile] calls of the execution. *)
Theorem C4_cleanup_on_failed_save
    {S : Type} `{!Store S} (env : UploadEnv) (filename : string)
    (data : list byte) (contentType : string) (w w1 : World S)
    (storedNodes : list string) (e : error) (s' : S) :
  let fileID := env_fileID env in
  let versionID := env_versionID env in
  store_replicas (GetNodes fileID (hashRing (fm w))) fileID versionID data [] w
  = (w1, inr storedNodes) ->
  storedNodes <> [] ->
  SaveMetadata (upload_record env filename data contentType storedNodes)
    (metadataStore (fm w1)) = (s', inl e) ->
  exists w2 deletes,
    UploadFile env filename data contentType w = (w2, inl e) /\
    calls w2 = calls w1 ++ SaveMetadataCall fileID false :: deletes /\
    Forall2 (is_delete_of fileID versionID)
      (in_registry (nodes (fm w)) storedNodes) deletes /\
    in_registry (nodes (fm w)) storedNodes = storedNodes /\
    storedNodes = stored_ok (drop (length (calls w)) (calls w1)).
Proof.
  intros fileID versionID Hloop Hne Hsave.
  destruct (store_replicas_spec fileID versionID data
              (GetNodes fileID (hashRing (fm w))) [] w)
    as (w1' & new & Hloop' & Hfm & Hcalls & Hreg).
  rewrite Hloop in Hloop'. injection Hloop' as <- ->.
  set (w1s := {| fm := {| nodes := nodes (fm w1); hashRing := hashRing (fm w1);
                          metadataStore := s';
                          replicaFactor := replicaFactor (fm w1) |};
                 disk := disk w1;
                 calls := calls w1 ++ [SaveMetadataCall fileID false] |}).
  destruct (cleanupFailedUpload_spec fileID versionID (stored_ok new) w1s)
    as (w2 & deletes & Hclean & _ & Hcalls2 & Hdel).
  exists w2, deletes. split; [|split; [|split; [|split]]].
  - unfold UploadFile. fold fileID versionID. unfold bind at 1, gets at 1.
    destruct (Nat.eqb_spec (length (GetNodes fileID (hashRing (fm w)))) 0) as [H0|_].
    { apply nil_length_inv in H0. rewrite H0 in Hloop. cbn in Hloop.
      injection Hloop as _ Hnil. by rewrite <- Hnil in Hne. }
    unfold bind at 1. rewrite Hloop.
    destruct (Nat.eqb_spec (length (stored_ok new)) 0) as [H0|_].
    { by apply nil_length_inv in H0. }
    unfold bind at 1, attempt at 1, store_call. rewrite Hsave. cbn [is_ok].
    fold w1s. unfold bind at 1. by rewrite Hclean.
  - rewrite Hcalls2. subst w1s. cbn [calls]. by rewrite <- app_assoc.
  - subst w1s. cbn [fm nodes] in Hdel. by rewrite Hfm in Hdel.
  - unfold in_registry. clear -Hreg. induction (stored_ok new) as [|n l IH]; [done|].
    rewrite filter_cons_True.
    + f_equal. apply IH. intros m Hm. apply Hreg. by apply elem_of_cons; right.
    + apply Hreg. by apply elem_of_cons; left.
  - rewrite Hcalls. by rewrite drop_app_length.
Qed.

Lemma C4_cleanup_on_failed_save_witness :
  let data := list_byte_of_string "hello" in
  let w1 := fst test_stored_unreachable in
  let storedNodes := snd test_stored_unreachable in
  exists w2 deletes,
    UploadFile test_env "a.txt" data "text/plain" test_world_unreachable
    = (w2, inl ErrUnreachable) /\
    calls w2 = calls w1 ++ SaveMetadataCall "0b9c7f2e-file" false :: deletes /\
    Forall2 (is_delete_of "0b9c7f2e-file" "5d1a3c44-version")
      (in_registry (nodes (fm test_world_unreachable)) storedNodes) deletes /\
    in_registry (nodes (fm test_world_unreachable)) storedNodes = storedNodes /\
    storedNodes = stored_ok (drop (length (calls test_world_unreachable)) (calls w1)).
Proof.
  intros data w1 storedNodes.
  apply (C4_cleanup_on_failed_save test_env "a.txt" data "text/plain"
           test_world_unreachable w1 storedNodes ErrUnreachable unreachable).
  - vm_compute. reflexivity.
  - vm_compute. discriminate.
  - reflexivity.
Defined.

(** C5: for every [DownloadFile] call on an existing record: with a
    version identifier the version list is searched for that exact
    identifier and the call fails with "version not found" when no
    version has it; without one the last element of the list is
    selected; the nodes recorded in the selected version are then tried
    in order, those missing from the registry being skipped, the bytes
    of the first successful retrieve are returned, and when every
    attempt fails the call fails with the wrapped "failed to retrieve
    file from any replica" error that carries the last error
    observed. *)
Theorem C5_download_selection_and_failover
    {S : Type} `{!Store S} (w : World S) (fileID versionID : string)
    (fileMeta : FileMetadata.t) (s' : S) (sel : error + Version.t) :
  GetMetadata fileID (metadataStore (fm w)) = (s', inr fileMeta) ->
  select_version_spec (FileMetadata.Versions fileMeta) versionID = Some sel ->
  snd (DownloadFile fileID versionID w)
  = match sel with
    | inl e => inl e
    | inr target =>
        match failover_spec (nodes (fm w)) (disk w) fileID target with
        | inl e => inl e
        | inr data => inr (data, fileMeta)
        end
    end.
Proof.
  intros Hget Hsel. unfold DownloadFile.
  unfold bind at 1, attempt at 1, store_call. rewrite Hget. cbn [is_ok].
  set (w1 := {| fm := _; disk := disk w; calls := _ |}).
  assert (forall target,
    snd ((do data <- retrieve_replicas (Version.Nodes target) fileID
                       (Version.VersionID target) None;
          ret (data, fileMeta)) w1)
    = match failover_spec (nodes (fm w)) (disk w) fileID target with
      | inl e => inl e
      | inr data => inr (data, fileMeta)
      end) as Hloop.
  { intros target. unfold bind.
    destruct (retrieve_replicas_spec fileID (Version.VersionID target)
                (Version.Nodes target) None w1) as (w' & -> & _ & _).
    unfold failover_spec. subst w1. cbn [fm nodes disk].
    destruct (first_success _); [done|]. cbn [snd]. by destruct (last_error _). }
  unfold select_version_spec in Hsel. unfold bind at 1.
  destruct (decide (versionID = EmptyString)) as [->|Hvid].
  - rewrite last_lookup in Hsel. rewrite <- Nat.sub_1_r in Hsel.
    destruct (Nat.eqb_spec (length (FileMetadata.Versions fileMeta)) 0) as [H0|_].
    { apply nil_length_inv in H0. by rewrite H0 in Hsel. }
    destruct (FileMetadata.Versions fileMeta !! _) as [target|]; [|done].
    injection Hsel as <-. unfold ret at 1. apply Hloop.
  - rewrite find_version_find. destruct (List.find _ _) as [target|]; injection Hsel as <-.
    + unfold ret at 1. apply Hloop.
    + done.
Qed.

Lemma C5_download_selection_and_failover_witness :
  snd (DownloadFile "0b9c7f2e-file" EmptyString test_uploaded)
  = inr (list_byte_of_string "hello", test_record).
Proof.
  rewrite (C5_download_selection_and_failover test_uploaded "0b9c7f2e-file"
             EmptyString test_record (metadataStore (fm test_uploaded))
             (inr test_version)).
  - vm_compute. reflexivity.
  - vm_compute. reflexivity.
  - vm_compute. reflexivity.
Defined.

(** C6: for every [UploadFile] call made while the ring returns no
    candidate node for the new fileID, the call fails with "no storage
    nodes available" and leaves everything as it was: the log of calls
    is unchanged, so no [StoreFile] was attempted and no record was
    saved. *)
Theorem C6_upload_without_nodes
    {S : Type} `{!Store S} (env : UploadEnv) (filename : string)
    (data : list byte) (contentType : string) (w : World S) :
  GetNodes (env_fileID env) (hashRing (fm w)) = [] ->
  UploadFile env filename data contentType w
  = (w, inl (ErrorString "no storage nodes available")).
Proof.
  intros Hnodes. unfold UploadFile, bind, gets. by rewrite Hnodes.
Qed.

Lemma C6_upload_without_nodes_witness :
  let w := {| fm := NewFileManager (NewMockMetadataStore 1700000000 1) 2;
              disk := Dir ∅; calls := [] |} in
  UploadFile test_env "a.txt" (list_byte_of_string "hello") "text/plain" w
  = (w, inl (ErrorString "no storage nodes available")).
Proof.
  intros w. apply C6_upload_without_nodes. vm_compute. reflexivity.
Defined.

(** C10: when [DownloadFile] is called without a version identifier on
    a record whose version list is empty, it fails with "no versions
    available"; the last element of the list is not accessed. *)
Theorem C10_download_without_versions
    {S : Type} `{!Store S} (w : World S) (fileID : string)
    (fileMeta : FileMetadata.t) (s' : S) :
  GetMetadata fileID (metadataStore (fm w)) = (s', inr fileMeta) ->
  FileMetadata.Versions fileMeta = [] ->
  snd (DownloadFile fileID EmptyString w)
  = inl (ErrorString "no versions available").
Proof.
  intros Hget Hnil. unfold DownloadFile.
  unfold bind at 1, attempt at 1, store_call. rewrite Hget, Hnil. reflexivity.
Qed.

Lemma C10_download_without_versions_witness :
  snd (DownloadFile "empty-file" EmptyString test_world_no_versions)
  = inl (ErrorString "no versions available").
Proof.
  apply (C10_download_without_versions test_world_no_versions "empty-file"
           test_record_no_versions (metadataStore (fm test_world_no_versions))).
  - vm_compute. reflexivity.
  - vm_compute. reflexivity.
Defined.

(** ** Further properties of the hash ring *)

Import Hash RingSpec RingFacts RingLive RingMore.

(** X1: whatever sequence of [AddNode] and [RemoveNode] calls follows the
    constructor, the position slice is sorted, every key of the
    position-to-node map is in the slice, every owner sits at one of its
    own virtual positions, and the two configuration integers are the
    positive values that the constructor chose. *)
Theorem X1_ring_invariants (v r : Z) (ops : list RingOp) :
  let ch := apply_ops ops (NewConsistentHash v r) in
  StronglySorted Z.le (hashRing ch) /\
  (forall h, is_Some (nodes ch !! h) -> h ∈ hashRing ch) /\
  (forall h n, nodes ch !! h = Some n ->
     exists i, (i < Z.to_nat (virtualNodes ch))%nat /\ h = hashKey (virtualKey n i)) /\
  virtualNodes ch = (if v <=? 0 then DefaultVirtualNodes else v) /\
  replicaFactor ch = (if r <=? 0 then 2 else r) /\
  0 < virtualNodes ch /\ 0 < replicaFactor ch.
Proof.
  intros ch.
  assert (Reachable ch) as Hreach by (by exists v, r, ops).
  destruct (Reachable_inv ch Hreach) as (Hv & Hr & Hkeys).
  destruct (apply_ops_config ops (NewConsistentHash v r)) as [Hcv Hcr].
  split; [|split; [|split; [|split; [|split]]]]; try done.
  - apply apply_ops_StronglySorted. constructor.
  - intros h n Hn. apply (owners_at_positions_reachable ch Hreach) in Hn.
    apply list_elem_of_fmap in Hn as (i & -> & Hi%elem_of_seq).
    exists i. split; [lia|done].
Qed.

(** X2: on every ring built from the constructor, [GetNodes] returns no
    identifier twice and at most [replicaFactor] identifiers, and each of
    them is a node of the ring or the empty string. *)
Theorem X2_GetNodes_bounded (v r : Z) (ops : list RingOp) (key : string) :
  let ch := apply_ops ops (NewConsistentHash v r) in
  NoDup (GetNodes key ch) /\
  Z.of_nat (length (GetNodes key ch)) <= replicaFactor ch /\
  (forall x, x ∈ GetNodes key ch -> x = EmptyString \/ x ∈ GetAllNodes ch).
Proof.
  intros ch.
  assert (0 < replicaFactor ch) as Hr.
  { apply (Reachable_inv ch). by exists v, r, ops. }
  destruct (GetNodes_spec key ch ltac:(lia)) as (Hnd & Hle & _ & _).
  split; [done|]. split; [done|].
  intros x [?|[h Hh]]%GetNodes_elem; [by left|]. right.
  unfold GetAllNodes. apply elem_of_elements, elem_of_map_img. by exists h.
Qed.

(** X3: on a ring that is not empty, [search] returns an index of the
    ring: the first one whose position is not below the hash, or 0 when
    every position is below the hash (the wrap-around). *)
Theorem X3_search_first_position (v r : Z) (ops : list RingOp) (h : Z) :
  let ch := apply_ops ops (NewConsistentHash v r) in
  hashRing ch <> [] ->
  let idx := search ch h in
  (idx < length (hashRing ch))%nat /\
  ((h <= hashRing ch !!! idx /\
    forall k, (k < idx)%nat -> hashRing ch !!! k < h) \/
   (idx = 0%nat /\ forall p, p ∈ hashRing ch -> p < h)).
Proof.
  intros ch Hne. apply search_sorted; [|done].
  apply apply_ops_StronglySorted. constructor.
Qed.

Lemma X3_search_first_position_witness :
  let ch := apply_ops [OpAddNode "node-1"; OpAddNode "node-2"]
              (NewConsistentHash 10 2) in
  let idx := search ch 4266018977 in
  (idx < length (hashRing ch))%nat /\
  ((4266018977 <= hashRing ch !!! idx /\
    forall k, (k < idx)%nat -> hashRing ch !!! k < 4266018977) \/
   (idx = 0%nat /\ forall p, p ∈ hashRing ch -> p < 4266018977)).
Proof.
  intros ch. apply (X3_search_first_position 10 2 _ 4266018977).
  vm_compute. discriminate.
Defined.

(** X4: [GetPrimaryNode] returns the empty string on an empty ring;
    on any other ring built from the constructor it returns the first
    element of [GetNodes], which is the owner of the position that
    [search] finds for the hash of the key, and when no position lacks
    an owner this is a node of the ring. *)
Theorem X4_GetPrimaryNode (v r : Z) (ops : list RingOp) (key : string) :
  let ch := apply_ops ops (NewConsistentHash v r) in
  (hashRing ch = [] -> GetPrimaryNode key ch = EmptyString) /\
  (hashRing ch <> [] ->
     head (GetNodes key ch) = Some (GetPrimaryNode key ch) /\
     GetPrimaryNode key ch = owner_at ch (search ch (hashKey key)) /\
     (no_stale_positions ch -> GetPrimaryNode key ch ∈ GetAllNodes ch)).
Proof.
  intros ch. split.
  - intros Hnil. unfold GetPrimaryNode, GetNodes. by rewrite Hnil.
  - intros Hne.
    assert (0 < replicaFactor ch) as Hr.
    { apply (Reachable_inv ch). by exists v, r, ops. }
    pose proof (GetNodes_head key ch Hr Hne) as Hhead.
    assert (GetPrimaryNode key ch = owner_at ch (search ch (hashKey key))) as Hp.
    { unfold GetPrimaryNode. destruct (GetNodes key ch); cbn in Hhead; by simplify_eq. }
    split; [by rewrite Hp|]. split; [done|].
    intros Hstale. rewrite Hp. unfold no_stale_positions in Hstale.
    rewrite Forall_forall in Hstale.
    pose proof (search_lt ch (hashKey key) Hne) as Hlt.
    destruct (lookup_lt_is_Some_2 _ _ Hlt) as [h Hh].
    destruct (Hstale h) as [y Hy]; [by eapply list_elem_of_lookup_2|].
    unfold GetAllNodes. apply elem_of_elements, elem_of_map_img. exists h.
    unfold owner_at. by rewrite (list_lookup_total_correct _ _ _ Hh), Hy.
Qed.

Lemma X4_GetPrimaryNode_witness :
  let ch := apply_ops [OpAddNode "node-1"; OpAddNode "node-2"]
              (NewConsistentHash 10 2) in
  (GetPrimaryNode "key" (NewConsistentHash 10 2) = EmptyString) /\
  head (GetNodes "test-key" ch) = Some (GetPrimaryNode "test-key" ch) /\
  GetPrimaryNode "test-key" ch ∈ GetAllNodes ch.
Proof.
  intros ch. split; [|split].
  - destruct (X4_GetPrimaryNode 10 2 [] "key") as [H _]. apply H. reflexivity.
  - destruct (X4_GetPrimaryNode 10 2 [OpAddNode "node-1"; OpAddNode "node-2"] "test-key")
      as [_ H].
    destruct H as (H & _ & _); [vm_compute; discriminate|exact H].
  - destruct (X4_GetPrimaryNode 10 2 [OpAddNode "node-1"; OpAddNode "node-2"] "test-key")
      as [_ H].
    destruct H as (_ & _ & H); [vm_compute; discriminate|].
    apply H. apply (bool_decide_unpack _). vm_compute. exact I.
Defined.

(** X5: on a ring built without double registration and without
    position collisions, adding a node that the ring does not hold and
    removing it again gives back the ring as it was: the same slice, the
    same map, the same configuration. *)
Theorem X5_AddNode_RemoveNode_roundtrip
    (v r : Z) (ops : list RingOp) (n : string) :
  let ch0 := NewConsistentHash v r in
  collision_free (Z.to_nat (virtualNodes ch0)) (op_node <$> ops ++ [OpAddNode n]) ->
  adds_fresh (ops ++ [OpAddNode n]) ch0 ->
  RemoveNode n (AddNode n (apply_ops ops ch0)) = apply_ops ops ch0.
Proof.
  intros ch0 Hcf Hfresh.
  apply adds_fresh_app in Hfresh as [Hfresh [Hn _]].
  assert (0 < virtualNodes ch0) as Hv0.
  { apply (Reachable_inv ch0). by exists v, r, []. }
  destruct (apply_ops_config ops ch0) as [Hv Hr].
  pose proof (ring_tracks_live v r ops) as Ht. cbn zeta in Ht. fold ch0 in Ht.
  specialize (Ht ltac:(rewrite fmap_app in Hcf; by eapply collision_free_app_l) Hfresh).
  set (ch := apply_ops ops ch0) in *.
  rewrite (ring_tracks_GetAllNodes (live ops) ch ltac:(lia) Ht) in Hn.
  assert (forall m h, m ∈ live ops -> h ∈ positions m (Z.to_nat (virtualNodes ch)) ->
                      h ∉ positions n (Z.to_nat (virtualNodes ch))) as Hdisj.
  { intros m h Hm Hh. rewrite Hv in *.
    apply (collision_free_spec _ _ m n h Hcf); [| | |done].
    - rewrite fmap_app, elem_of_app. left. by apply live_subseteq.
    - rewrite fmap_app, elem_of_app. right. by apply list_elem_of_singleton.
    - by intros ->. }
  pose proof (ring_tracks_AddNode (live ops) n ch Ht Hn Hdisj) as Ht1.
  destruct (AddNode_config n ch) as [Hv1 Hr1].
  pose proof (ring_tracks_RemoveNode (live ops ++ [n]) n (AddNode n ch) Ht1) as Ht2.
  cbn zeta in Ht2.
  rewrite filter_app, (filter_ne_absent _ _ Hn) in Ht2.
  rewrite filter_cons_False, filter_nil, app_nil_r in Ht2 by (by intros ?).
  destruct (RemoveNode_config n (AddNode n ch)) as [Hv2 Hr2].
  apply (ring_tracks_unique (live ops)); [congruence|congruence| |done].
  apply Ht2. intros m h [Hm| ->%list_elem_of_singleton]%elem_of_app Hne Hh; [|done].
  rewrite Hv1 in *. by eapply Hdisj.
Qed.

Lemma X5_AddNode_RemoveNode_roundtrip_witness :
  let ch := apply_ops [OpAddNode "node-1"; OpAddNode "node-3"] (NewConsistentHash 3 2) in
  RemoveNode "node-2" (AddNode "node-2" ch) = ch.
Proof.
  intros ch.
  apply (X5_AddNode_RemoveNode_roundtrip 3 2 [OpAddNode "node-1"; OpAddNode "node-3"]).
  - apply (bool_decide_unpack _). vm_compute. exact I.
  - repeat split; apply (bool_decide_unpack _); vm_compute; exact I.
Defined.

(** X6: on a ring built without double registration and without
    position collisions, [GetAllNodes] returns exactly the nodes that
    were added and not removed since, each once (in no particular
    order), and a [RemoveNode] of any other node changes nothing. *)
Theorem X6_GetAllNodes_live (v r : Z) (ops : list RingOp) (n : string) :
  let ch0 := NewConsistentHash v r in
  collision_free (Z.to_nat (virtualNodes ch0)) (op_node <$> ops ++ [OpRemoveNode n]) ->
  adds_fresh ops ch0 ->
  GetAllNodes (apply_ops ops ch0) ≡ₚ live ops /\
  (n ∉ live ops -> RemoveNode n (apply_ops ops ch0) = apply_ops ops ch0).
Proof.
  intros ch0 Hcf Hfresh.
  assert (0 < virtualNodes ch0) as Hv0.
  { apply (Reachable_inv ch0). by exists v, r, []. }
  destruct (apply_ops_config ops ch0) as [Hv Hr].
  pose proof (ring_tracks_live v r ops) as Ht. cbn zeta in Ht. fold ch0 in Ht.
  specialize (Ht ltac:(rewrite fmap_app in Hcf; by eapply collision_free_app_l) Hfresh).
  set (ch := apply_ops ops ch0) in *.
  split; [apply ring_tracks_GetAllNodes; [lia|done]|].
  intros Hn.
  pose proof (ring_tracks_RemoveNode (live ops) n ch Ht) as Ht2. cbn zeta in Ht2.
  rewrite (filter_ne_absent _ _ Hn) in Ht2.
  destruct (RemoveNode_config n ch) as [Hv2 Hr2].
  apply (ring_tracks_unique (live ops)); [congruence|congruence| |done].
  apply Ht2. intros m h Hm Hne Hh. rewrite Hv in *.
  apply (collision_free_spec _ _ m n h Hcf); [| |done|done].
  - rewrite fmap_app, elem_of_app. left. by apply live_subseteq.
  - rewrite fmap_app, elem_of_app. right. by apply list_elem_of_singleton.
Qed.

Lemma X6_GetAllNodes_live_witness :
  let ops := [OpAddNode "node-1"; OpAddNode "node-2"; OpRemoveNode "node-1"] in
  let ch := apply_ops ops (NewConsistentHash 3 2) in
  GetAllNodes ch ≡ₚ ["node-2"%string] /\
  RemoveNode "node-999" ch = ch.
Proof.
  intros ops ch.
  destruct (X6_GetAllNodes_live 3 2 ops "node-999") as [H1 H2].
  - apply (bool_decide_unpack _). vm_compute. exact I.
  - repeat split; apply (bool_decide_unpack _); vm_compute; exact I.
  - split; [exact H1|]. apply H2. apply (bool_decide_unpack _). vm_compute. exact I.
Defined.

(** ** Further properties of the storage node *)

Import Errors FS Storage StorageSpec StorageFacts PathSpec FSFrame StoreFixtures.

(** X7: for identifiers that are names, [StoreFile] on one (file,
    version), whether it succeeds or fails, leaves every other (file,
    version) of the node as it was: [RetrieveFile] returns what it
    returned before and [FileExists] answers as before. *)
Theorem X7_StoreFile_leaves_others
    (n : Node) (f v f' v' : string) (data : list byte) (fs fs' : fsnode)
    (r : error + unit) :
  proper_name f -> proper_name v -> proper_name f' -> proper_name v' ->
  (f', v') <> (f, v) ->
  Storage.StoreFile n f v data fs = (fs', r) ->
  snd (RetrieveFile n f' v' fs') = snd (RetrieveFile n f' v' fs) /\
  FileExists n f' v' fs' = FileExists n f' v' fs.
Proof.
  intros Hf Hv Hf' Hv' Hne Hstore.
  assert (walk (versionPath n f' v') fs' = walk (versionPath n f' v') fs) as Hw.
  { eapply StoreFile_frame; [exact Hstore|].
    rewrite <- (app_nil_r (versionPath n f' v')). apply versionPath_diverge; [done..|].
    congruence. }
  split; [by apply RetrieveFile_depends|by apply FileExists_depends].
Qed.

Lemma X7_StoreFile_leaves_others_witness :
  let fs' := fst (Storage.StoreFile test_node "file-1" "v3" [] test_disk) in
  snd (RetrieveFile test_node "file-1" "v1" fs')
  = snd (RetrieveFile test_node "file-1" "v1" test_disk) /\
  FileExists test_node "file-1" "v1" fs' = FileExists test_node "file-1" "v1" test_disk.
Proof.
  intros fs'.
  apply (X7_StoreFile_leaves_others test_node "file-1" "v3" "file-1" "v1" []
           test_disk fs' (snd (Storage.StoreFile test_node "file-1" "v3" [] test_disk))).
  - apply (bool_decide_unpack _); vm_compute; exact I.
  - apply (bool_decide_unpack _); vm_compute; exact I.
  - apply (bool_decide_unpack _); vm_compute; exact I.
  - apply (bool_decide_unpack _); vm_compute; exact I.
  - discriminate.
  - vm_compute. reflexivity.
Defined.

(** X8: for identifiers that are names, [DeleteFile] and
    [DeleteAllVersions] on one file, whether they succeed or fail, leave
    the versions of every other file of the node as they were. *)
Theorem X8_delete_leaves_other_files
    (n : Node) (f v f' v' : string) (fs fs' : fsnode) (r : error + unit) :
  proper_name f -> proper_name v -> proper_name f' -> proper_name v' ->
  f' <> f ->
  Storage.DeleteFile n f v fs = (fs', r) \/ DeleteAllVersions n f fs = (fs', r) ->
  snd (RetrieveFile n f' v' fs') = snd (RetrieveFile n f' v' fs) /\
  FileExists n f' v' fs' = FileExists n f' v' fs.
Proof.
  intros Hf Hv Hf' Hv' Hne Hdel.
  assert (walk (versionPath n f' v') fs' = walk (versionPath n f' v') fs) as Hw.
  { assert (diverge (containerPath n f) (versionPath n f' v')) as Hdiv.
    { rewrite <- (app_nil_r (versionPath n f' v')). apply container_diverge; [done..|].
      congruence. }
    destruct Hdel as [Hdel|Hdel].
    - by apply (DeleteFile_frame n f v fs fs' r _ Hf Hv Hdel).
    - by apply (DeleteAllVersions_frame n f fs fs' r _ Hf Hdel). }
  split; [by apply RetrieveFile_depends|by apply FileExists_depends].
Qed.

Lemma X8_delete_leaves_other_files_witness :
  let fs' := fst (DeleteAllVersions test_node "file-1" test_disk) in
  snd (RetrieveFile test_node "file-2" "v1" fs')
  = snd (RetrieveFile test_node "file-2" "v1" test_disk) /\
  FileExists test_node "file-2" "v1" fs' = FileExists test_node "file-2" "v1" test_disk.
Proof.
  intros fs'.
  apply (X8_delete_leaves_other_files test_node "file-1" "v1" "file-2" "v1"
           test_disk fs' (inr tt)).
  - apply (bool_decide_unpack _); vm_compute; exact I.
  - apply (bool_decide_unpack _); vm_compute; exact I.
  - apply (bool_decide_unpack _); vm_compute; exact I.
  - apply (bool_decide_unpack _); vm_compute; exact I.
  - discriminate.
  - right. vm_compute. reflexivity.
Defined.

(** X9: for identifiers that are names, after a successful
    [DeleteFile] the version is gone: [FileExists] answers false and
    [RetrieveFile] fails with the not-exist error of opening the data
    file. *)
Theorem X9_DeleteFile_removes_version
    (n : Node) (f v : string) (fs fs' : fsnode) :
  proper_name f -> proper_name v ->
  Storage.DeleteFile n f v fs = (fs', inr tt) ->
  FileExists n f v fs' = false /\
  RetrieveFile n f v fs'
  = (fs', inl (PathError "open" (versionPath n f v ++ ["data"%string]) ENOENT)).
Proof.
  intros Hf Hv (m & _ & Hw)%DeleteFile_ok_inv; [|done..]. apply version_absent.
  rewrite versionPath_snoc, walk_app, Hw by done.
  destruct (map_to_list (delete v m)); [done|]. cbn [walk].
  by rewrite lookup_delete_eq.
Qed.

Lemma X9_DeleteFile_removes_version_witness :
  let fs' := fst (Storage.DeleteFile test_node "file-1" "v1" test_disk) in
  FileExists test_node "file-1" "v1" fs' = false /\
  RetrieveFile test_node "file-1" "v1" fs'
  = (fs', inl (PathError "open"
                 (versionPath test_node "file-1" "v1" ++ ["data"%string]) ENOENT)).
Proof.
  intros fs'. apply (X9_DeleteFile_removes_version test_node "file-1" "v1" test_disk).
  - apply (bool_decide_unpack _); vm_compute; exact I.
  - apply (bool_decide_unpack _); vm_compute; exact I.
  - vm_compute. reflexivity.
Defined.







(** X13: storing again under the identifiers of a version that can be
    read succeeds and replaces the bytes: [RetrieveFile] then returns
    the new ones. *)
Theorem X13_StoreFile_overwrites
    (n : Node) (f v : string) (old data : list byte) (fs : fsnode) :
  retrievable n f v old fs ->
  exists fs',
    Storage.StoreFile n f v data fs = (fs', inr tt) /\ retrievable n f v data fs'.
Proof. apply StoreFile_overwrite. Qed.

Lemma X13_StoreFile_overwrites_witness :
  exists fs',
    Storage.StoreFile test_node "file-1" "v1" [] test_disk = (fs', inr tt) /\
    retrievable test_node "file-1" "v1" [] fs'.
Proof.
  apply (X13_StoreFile_overwrites test_node "file-1" "v1"
           (list_byte_of_string "Version 1") [] test_disk).
  vm_compute. reflexivity.
Defined.

(** X14: a successful [NewNode] returns the node with the given
    identifier and path, and the storage directory exists afterwards: a
    directory that was there is kept with all it holds (nothing
    changes), one that was missing is created empty. *)
Theorem X14_NewNode
    (id : string) (storagePath : path) (fs fs' : fsnode) (node : Node) :
  NewNode id storagePath fs = (fs', inr node) ->
  node = mkNode id storagePath /\
  (exists m, walk storagePath fs' = inr (Dir m)) /\
  (forall m, walk storagePath fs = inr (Dir m) -> fs' = fs) /\
  (walk storagePath fs = inl ENOENT -> walk storagePath fs' = inr (Dir ∅)).
Proof.
  unfold NewNode, bind, update, ret.
  destruct (MkdirAll storagePath fs) as [?|fs1] eqn:Hmk; [done|].
  intros [= <- <-]. split; [done|]. split; [by eapply MkdirAll_walk|]. split.
  - intros m Hw. rewrite (MkdirAll_existing _ _ _ Hw) in Hmk. congruence.
  - intros (c & x & r & m & -> & Hw & Hx)%walk_ENOENT_split.
    destruct (MkdirAll_new c r x fs m Hw Hx) as (fs2 & Hmk2 & Hw2). congruence.
Qed.

Lemma X14_NewNode_witness :
  let fs' := fst (NewNode "node-2" ["data"; "node-2"]%string test_disk) in
  let node := mkNode "node-2" ["data"; "node-2"]%string in
  node = mkNode "node-2" ["data"; "node-2"]%string /\
  (exists m, walk ["data"; "node-2"]%string fs' = inr (Dir m)) /\
  (forall m, walk ["data"; "node-2"]%string test_disk = inr (Dir m) -> fs' = test_disk) /\
  (walk ["data"; "node-2"]%string test_disk = inl ENOENT ->
   walk ["data"; "node-2"]%string fs' = inr (Dir ∅)).
Proof.
  intros fs' node.
  apply (X14_NewNode "node-2" ["data"; "node-2"]%string test_disk fs' node).
  vm_compute. reflexivity.
Defined.

(** ** Properties of the remaining methods of the storage node *)

Import StorageRest StorageRestFacts.

(** X25: [ReplicateFile] from a reader that ends without error does
    exactly what [StoreFile] does with the bytes read, put together: the
    same result, error for error, and the same files on disk, however
    the reader cuts the bytes into chunks. *)
Theorem X25_ReplicateFile_as_StoreFile
    (n : Node) (f v : string) (chunks : list (list byte)) (fs : fsnode) :
  ReplicateFile n f v (mkReader chunks None) fs
  = Storage.StoreFile n f v (concat chunks) fs.
Proof.
  unfold ReplicateFile, Storage.StoreFile, bind, update. cbn [reads read_err].
  destruct (MkdirAll (versionPath n f v) fs) as [e|fs1]; [done|].
  destruct (WriteFile (versionPath n f v ++ ["data"%string]) [] fs1) as [e|fs2] eqn:Hw0.
  - by rewrite (WriteFile_err _ _ [] (concat chunks) _ _ Hw0).
  - destruct (copy_chunks_spec (versionPath n f v) "data" chunks [] [] fs1 fs2 Hw0)
      as (fs3 & -> & Hw3).
    cbn [app] in *. by rewrite Hw3.
Qed.





(** X28: on a node whose storage directory exists, [ListFiles] succeeds
    and returns, each once, the names of the directories found there; a
    file is listed after a successful [StoreFile] of one of its versions
    and no longer after a successful [DeleteAllVersions], which leaves
    the other names as they were (identifiers that are names). *)
Theorem X28_ListFiles
    (n : Node) (fs : fsnode) (m : gmap string fsnode) :
  walk (StoragePath n) fs = inr (Dir m) ->
  (exists ids,
     ListFiles n fs = (fs, inr ids) /\ NoDup ids /\
     (forall g, g ∈ ids <-> exists e, m !! g = Some (Dir e))) /\
  (forall f v data fs',
     proper_name f -> proper_name v ->
     Storage.StoreFile n f v data fs = (fs', inr tt) ->
     exists ids, ListFiles n fs' = (fs', inr ids) /\ f ∈ ids) /\
  (forall f fs',
     proper_name f ->
     DeleteAllVersions n f fs = (fs', inr tt) ->
     exists ids,
       ListFiles n fs' = (fs', inr ids) /\ (f ∉ ids) /\
       (forall g, g <> f -> g ∈ ids <-> exists e, m !! g = Some (Dir e))).
Proof.
  intros Hw. split; [by apply ListFiles_spec|]. split.
  - intros f v data fs' Hf Hv (mv & Hvp & _)%StoreFile_ok.
    rewrite versionPath_snoc, containerPath_proper in Hvp by done.
    apply walk_snoc_inv in Hvp as (mf & Hfp & _).
    apply walk_snoc_inv in Hfp as (m' & Hsp & Hmf).
    destruct (ListFiles_spec n fs' m' Hsp) as (ids & Hl & _ & Hids).
    exists ids. split; [done|]. apply Hids. by exists mf.
  - intros f fs' Hf Hdel.
    destruct (DeleteAllVersions_ok n f fs m Hf Hw) as (fs2 & Hdel2 & Hw2).
    assert (fs2 = fs') as -> by congruence.
    destruct (ListFiles_spec n fs' (delete f m) Hw2) as (ids & Hl & _ & Hids).
    exists ids. split; [done|]. split.
    + rewrite Hids, lookup_delete_eq. by intros [e ?].
    + intros g Hg. by rewrite Hids, lookup_delete_ne.
Qed.

Lemma X28_ListFiles_witness :
  (exists ids,
     ListFiles test_node test_disk = (test_disk, inr ids) /\ NoDup ids /\
     (forall g, g ∈ ids <->
        exists e, default ∅ (match walk (StoragePath test_node) test_disk with
                             | inr (Dir m) => Some m
                             | _ => None
                             end) !! g = Some (Dir e))) /\
  ListFiles test_node test_disk = (test_disk, inr ["file-1"; "file-2"]%string).
Proof.
  split.
  - apply (X28_ListFiles test_node test_disk). vm_compute. reflexivity.
  - vm_compute. reflexivity.
Defined.

(** ** Further properties of the file manager *)

Import Errors FS Storage Hash Metadata Manager ManagerSpec StorageSpec StorageFacts.
Import ManagerFacts PathSpec FSFrame ManagerMore ManagerMoreFacts Fixtures MoreFixtures.

(** X15: [RegisterNode] either fails and leaves everything as it was
    (nothing is registered, the disk is untouched), or succeeds: the
    registry then maps the identifier to a node with the given path, the
    other registry entries are as before, the ring reports the node, the
    storage directory exists, and neither the log nor the metadata store
    has changed. *)
Theorem X15_RegisterNode
    {S : Type} `{!Store S} (w : World S) (nodeID : string) (storagePath : path) :
  0 < Hash.virtualNodes (hashRing (fm w)) ->
  match RegisterNode nodeID storagePath w with
  | (w', inl _) => w' = w
  | (w', inr _) =>
      nodes (fm w') !! nodeID = Some (mkNode nodeID storagePath) /\
      (forall j, j <> nodeID -> nodes (fm w') !! j = nodes (fm w) !! j) /\
      nodeID ∈ GetAllNodes (hashRing (fm w')) /\
      is_dir (walk storagePath (disk w')) = true /\
      calls w' = calls w /\
      metadataStore (fm w') = metadataStore (fm w)
  end.
Proof.
  intros Hv. unfold RegisterNode, NewNode, bind, update, ret.
  destruct (MkdirAll storagePath (disk w)) as [e|d] eqn:Hmk.
  - by destruct w.
  - cbn [fm disk calls nodes hashRing metadataStore]. split_and!; try done.
    + by rewrite lookup_insert_eq.
    + intros j Hj. by rewrite lookup_insert_ne.
    + unfold GetAllNodes. apply elem_of_elements, elem_of_map_img.
      exists (hashKey (virtualKey nodeID 0)). rewrite AddNode_nodes.
      rewrite decide_True; [done|]. apply list_elem_of_fmap. exists 0%nat.
      split; [done|]. apply elem_of_seq. lia.
    + destruct (MkdirAll_walk _ _ _ Hmk) as [m ->]. done.
Qed.

Lemma X15_RegisterNode_witness :
  match RegisterNode "test-node-4" ["tmp"; "test-node-4"]%string test_world with
  | (w', inl _) => w' = test_world
  | (w', inr _) =>
      nodes (fm w') !! "test-node-4"%string
      = Some (mkNode "test-node-4" ["tmp"; "test-node-4"]%string) /\
      (forall j, j <> "test-node-4"%string ->
         nodes (fm w') !! j = nodes (fm test_world) !! j) /\
      "test-node-4"%string ∈ GetAllNodes (hashRing (fm w')) /\
      is_dir (walk ["tmp"; "test-node-4"]%string (disk w')) = true /\
      calls w' = calls test_world /\
      metadataStore (fm w') = metadataStore (fm test_world)
  end.
Proof.
  apply (X15_RegisterNode test_world "test-node-4" ["tmp"; "test-node-4"]%string).
  vm_compute. reflexivity.
Defined.

(** X16: whatever its outcome, [UploadFile] changes neither the registry
    nor the ring, and what it adds to the log starts with one
    [StoreFile] of the new version on each candidate node of the ring
    that is registered, in candidate order; after these come nothing, or
    a successful metadata save, or a failed save followed by the
    [DeleteFile] calls of the cleanup. *)
Theorem X16_UploadFile_calls
    {S : Type} `{!Store S} (env : UploadEnv) (filename : string)
    (data : list byte) (contentType : string) (w : World S) :
  let f := env_fileID env in
  let v := env_versionID env in
  let w' := fst (UploadFile env filename data contentType w) in
  nodes (fm w') = nodes (fm w) /\ hashRing (fm w') = hashRing (fm w) /\
  exists stores rest,
    calls w' = calls w ++ stores ++ rest /\
    Forall2 (is_store_of f v)
      (in_registry (nodes (fm w)) (GetNodes f (hashRing (fm w)))) stores /\
    (rest = [] \/ rest = [SaveMetadataCall f true] \/
     exists deletes,
       rest = SaveMetadataCall f false :: deletes /\
       Forall2 (is_delete_of f v) (in_registry (nodes (fm w)) (stored_ok stores))
         deletes).
Proof.
  intros f v.
  destruct (UploadFile env filename data contentType w) as [w' r] eqn:Hup.
  cbn [fst]. revert Hup. unfold UploadFile. fold f v.
  unfold bind at 1, gets at 1.
  destruct (Nat.eqb_spec (length (GetNodes f (hashRing (fm w)))) 0) as [H0|_].
  { intros [= <- <-]. split_and!; [done..|]. exists [], [].
    apply nil_length_inv in H0. rewrite H0, app_nil_r. split; [done|].
    split; [constructor|by left]. }
  unfold bind at 1.
  destruct (store_replicas_calls f v data (GetNodes f (hashRing (fm w))) [] w)
    as (w1 & stores & -> & Hfm & Hcalls & Hstores).
  cbn [app].
  destruct (Nat.eqb_spec (length (stored_ok stores)) 0) as [H0|_].
  { intros [= <- <-]. rewrite Hfm. split_and!; [done..|]. exists stores, [].
    rewrite app_nil_r. split; [done|]. split; [done|by left]. }
  unfold bind at 1, attempt at 1, store_call.
  destruct (SaveMetadata _ (metadataStore (fm w1))) as [s' [err|saved]].
  - cbn [is_ok]. set (w2 := {| fm := _; disk := disk w1; calls := _ |}).
    unfold bind.
    destruct (cleanupFailedUpload_spec f v (stored_ok stores) w2)
      as (w3 & deletes & -> & Hfm3 & Hcalls3 & Hdel).
    intros [= <- <-]. rewrite Hfm3, Hcalls3. subst w2.
    cbn [fm nodes hashRing calls] in *. rewrite Hfm in *.
    split_and!; [done..|]. exists stores, (SaveMetadataCall f false :: deletes).
    split; [by rewrite Hcalls, <- !app_assoc|]. split; [done|].
    right. right. by exists deletes.
  - intros [= <- <-]. cbn [fm nodes hashRing calls is_ok]. rewrite Hfm.
    split_and!; [done..|]. exists stores, [SaveMetadataCall f true].
    split; [by rewrite Hcalls, <- !app_assoc|]. split; [done|]. right. by left.
Qed.

(** X17: over the mock metadata store, with storage directories that
    lie side by side and identifiers that are names (as those minted by
    [uuid.New] are), a successful [UploadFile] can be read back: the
    record is the one [GetFileInfo] returns, and [DownloadFile] with the
    new fileID and either no version identifier or the new versionID
    returns the uploaded bytes with that record. *)
Theorem X17_upload_download_roundtrip
    (env : UploadEnv) (filename : string) (data : list byte) (contentType : string)
    (w w' : World MockMetadataStore) (meta : FileMetadata.t) (versionID : string) :
  proper_name (env_fileID env) -> proper_name (env_versionID env) ->
  disjoint_storage (nodes (fm w)) ->
  UploadFile env filename data contentType w = (w', inr meta) ->
  versionID = EmptyString \/ versionID = env_versionID env ->
  snd (GetFileInfo (env_fileID env) w') = inr meta /\
  snd (DownloadFile (env_fileID env) versionID w') = inr (data, meta).
Proof. apply upload_download_mock. Qed.

Lemma X17_upload_download_roundtrip_witness :
  snd (GetFileInfo "0b9c7f2e-file" test_uploaded) = inr test_record /\
  snd (DownloadFile "0b9c7f2e-file" "5d1a3c44-version" test_uploaded)
  = inr (list_byte_of_string "hello", test_record).
Proof.
  apply (X17_upload_download_roundtrip test_env "a.txt" (list_byte_of_string "hello")
           "text/plain" test_world test_uploaded test_record "5d1a3c44-version").
  - apply (bool_decide_unpack _); vm_compute; exact I.
  - apply (bool_decide_unpack _); vm_compute; exact I.
  - apply (bool_decide_unpack _). vm_compute. exact I.
  - vm_compute. reflexivity.
  - right. reflexivity.
Defined.

(** X18: when the ring offers candidates but the store loop ends with
    no node that stored the version (every candidate is missing from the
    registry or failed to store), [UploadFile] fails with "failed to
    store file on any node"; the metadata store is not called and nothing
    but the failed [StoreFile] calls is added to the log. *)
Theorem X18_upload_all_stores_fail
    {S : Type} `{!Store S} (env : UploadEnv) (filename : string)
    (data : list byte) (contentType : string) (w w1 : World S) :
  let f := env_fileID env in
  let v := env_versionID env in
  GetNodes f (hashRing (fm w)) <> [] ->
  store_replicas (GetNodes f (hashRing (fm w))) f v data [] w = (w1, inr []) ->
  UploadFile env filename data contentType w
  = (w1, inl (ErrorString "failed to store file on any node")) /\
  fm w1 = fm w /\
  exists stores, calls w1 = calls w ++ stores /\ Forall (is_failed_store f v) stores.
Proof.
  intros f v Hne Hloop. split; [|].
  - unfold UploadFile. fold f v. unfold bind at 1, gets at 1.
    destruct (Nat.eqb_spec (length (GetNodes f (hashRing (fm w)))) 0) as [H0|_].
    { by apply nil_length_inv in H0. }
    unfold bind. by rewrite Hloop.
  - destruct (store_replicas_calls f v data (GetNodes f (hashRing (fm w))) [] w)
      as (w1' & stores & Hloop' & Hfm & Hcalls & Hstores).
    rewrite Hloop in Hloop'. injection Hloop' as <- Hnil. cbn [app] in Hnil.
    split; [done|]. exists stores. split; [done|].
    clear Hcalls. revert Hnil Hstores.
    generalize (in_registry (nodes (fm w)) (GetNodes f (hashRing (fm w)))).
    induction stores as [|c stores IH]; intros l Hnil Hall; [constructor|].
    inversion Hall as [|n ? l' ? [ok ->] Hall']; subst.
    destruct ok; [done|]. constructor; [by exists n|]. by eapply IH.
Qed.

Lemma X18_upload_all_stores_fail_witness :
  UploadFile test_env "a.txt" (list_byte_of_string "hello") "text/plain" test_world_stale
  = (test_world_stale, inl (ErrorString "failed to store file on any node")) /\
  fm test_world_stale = fm test_world_stale /\
  exists stores,
    calls test_world_stale = calls test_world_stale ++ stores /\
    Forall (is_failed_store "0b9c7f2e-file" "5d1a3c44-version") stores.
Proof.
  apply (X18_upload_all_stores_fail test_env "a.txt" (list_byte_of_string "hello")
           "text/plain" test_world_stale test_world_stale).
  - vm_compute. discriminate.
  - vm_compute. reflexivity.
Defined.

(** X19: [DownloadFile], whatever its outcome, is read-only on the
    nodes: the disk, the registry and the ring are as before, and what
    it adds to the log is the metadata read followed only by
    [RetrieveFile] calls for that file on registered nodes. *)
Theorem X19_DownloadFile_read_only
    {S : Type} `{!Store S} (w : World S) (fileID versionID : string) :
  download_footprint fileID w (fst (DownloadFile fileID versionID w)).
Proof.
  destruct (DownloadFile fileID versionID w) as [w' r] eqn:Hrun.
  by eapply DownloadFile_footprint.
Qed.

(** X20: over the mock metadata store, with storage directories that
    exist and lie side by side, [DeleteFile] of a recorded file whose
    identifier is a name succeeds; afterwards the record is gone while
    the other records and the registry are as before, every download of
    the file fails with "file not found", and no registered replica node
    holds a version of the file. *)
Theorem X20_DeleteFile_removes_file
    (w : World MockMetadataStore) (fileID : string) (meta : FileMetadata.t) :
  proper_name fileID ->
  files (metadataStore (fm w)) !! fileID = Some meta ->
  disjoint_storage (nodes (fm w)) ->
  storage_dirs_exist (nodes (fm w)) (disk w) ->
  exists w',
    Manager.DeleteFile fileID w = (w', inr tt) /\
    files (metadataStore (fm w')) !! fileID = None /\
    (forall g, g <> fileID ->
       files (metadataStore (fm w')) !! g = files (metadataStore (fm w)) !! g) /\
    nodes (fm w') = nodes (fm w) /\
    (forall versionID,
       snd (DownloadFile fileID versionID w')
       = inl (WrapError "file not found" (Some ErrFileNotFound))) /\
    (forall n node versionID,
       n ∈ FileMetadata.Replicas meta -> nodes (fm w) !! n = Some node ->
       proper_name versionID ->
       FileExists node fileID versionID (disk w') = false).
Proof.
  intros Hf Hfile Hdisj Hdirs. unfold Manager.DeleteFile.
  unfold bind at 1, attempt at 1, store_call. rewrite mock_GetMetadata, Hfile.
  cbn [is_ok]. set (w1 := {| fm := _; disk := disk w; calls := _ |}).
  unfold bind.
  destruct (delete_replicas_spec fileID (FileMetadata.Replicas meta) w1)
    as (w2 & deletes & Hloop & Hfm & Hcalls & _).
  destruct (delete_replicas_removes fileID (FileMetadata.Replicas meta) Hf w1 w2 (inr tt))
    as [_ Hgone]; [done..|].
  rewrite Hloop. cbn -[DownloadFile containerPath]. eexists. split; [done|].
  cbn -[DownloadFile containerPath]. rewrite Hfm. subst w1. cbn -[DownloadFile containerPath] in *.
  split_and!.
  - by rewrite lookup_delete_eq.
  - intros g Hg. by rewrite lookup_delete_ne.
  - done.
  - intros versionID. unfold DownloadFile.
    unfold bind at 1, attempt at 1, store_call. rewrite mock_GetMetadata.
    cbn. by rewrite lookup_delete_eq.
  - intros n node versionID Hn Hreg Hv.
    apply (version_absent node fileID versionID (disk w2) ENOENT).
    rewrite versionPath_snoc, walk_app, (Hgone n node Hreg); [done|by right|done].
Qed.

Lemma X20_DeleteFile_removes_file_witness :
  exists w',
    Manager.DeleteFile "0b9c7f2e-file" test_uploaded = (w', inr tt) /\
    files (metadataStore (fm w')) !! "0b9c7f2e-file"%string = None /\
    (forall g, g <> "0b9c7f2e-file"%string ->
       files (metadataStore (fm w')) !! g = files (metadataStore (fm test_uploaded)) !! g) /\
    nodes (fm w') = nodes (fm test_uploaded) /\
    (forall versionID,
       snd (DownloadFile "0b9c7f2e-file" versionID w')
       = inl (WrapError "file not found" (Some ErrFileNotFound))) /\
    (forall n node versionID,
       n ∈ FileMetadata.Replicas test_record ->
       nodes (fm test_uploaded) !! n = Some node ->
       proper_name versionID ->
       FileExists node "0b9c7f2e-file" versionID (disk w') = false).
Proof.
  apply (X20_DeleteFile_removes_file test_uploaded "0b9c7f2e-file" test_record).
  - apply (bool_decide_unpack _); vm_compute; exact I.
  - vm_compute. reflexivity.
  - apply (bool_decide_unpack _). vm_compute. exact I.
  - apply (bool_decide_unpack _). vm_compute. exact I.
Defined.

(** X21: when the metadata store has no record to give for a fileID,
    [DownloadFile] and [DeleteFile] both fail with "file not found"
    wrapping the error of the store; no storage node is called, the disk
    is untouched, and the only entry added to the log is the failed
    metadata read. *)
Theorem X21_unknown_file
    {S : Type} `{!Store S} (w : World S) (fileID versionID : string)
    (s' : S) (e : error) :
  GetMetadata fileID (metadataStore (fm w)) = (s', inl e) ->
  let down := DownloadFile fileID versionID w in
  let del := Manager.DeleteFile fileID w in
  snd down = inl (WrapError "file not found" (Some e)) /\
  snd del = inl (WrapError "file not found" (Some e)) /\
  fst down = fst del /\
  disk (fst del) = disk w /\
  nodes (fm (fst del)) = nodes (fm w) /\
  calls (fst del) = calls w ++ [GetMetadataCall fileID false].
Proof.
  intros Hget. cbn zeta. unfold DownloadFile, Manager.DeleteFile.
  unfold bind, attempt, store_call. rewrite Hget. done.
Qed.

Lemma X21_unknown_file_witness :
  let down := DownloadFile "no-such-file" EmptyString test_world in
  let del := Manager.DeleteFile "no-such-file" test_world in
  snd down = inl (WrapError "file not found" (Some ErrFileNotFound)) /\
  snd del = inl (WrapError "file not found" (Some ErrFileNotFound)) /\
  fst down = fst del /\
  disk (fst del) = disk test_world /\
  nodes (fm (fst del)) = nodes (fm test_world) /\
  calls (fst del) = calls test_world ++ [GetMetadataCall "no-such-file" false].
Proof.
  apply (X21_unknown_file test_world "no-such-file" EmptyString
           (metadataStore (fm test_world)) ErrFileNotFound).
  vm_compute. reflexivity.
Defined.

(** ** Properties of the streaming handlers *)

Import Server ServerSpec ServerFacts.

(** X22: when the file manager returns the bytes of a file, the
    [Download] and [GetVersion] handlers succeed on a stream that
    delivers every message, and what they send is a chunking of exactly
    these bytes: in order, no chunk empty, none above [maxChunkSize], all
    but the last of that size, and nothing at all for an empty file.
    Every message carries the total size; those of [Download] carry the
    content type of the record, those of [GetVersion] none. *)
Theorem X22_Download_chunks
    {St : Type} `{!Store St} (w w' : World St) (fileID versionID : string)
    (data : list byte) (metadata : FileMetadata.t) (sent : list DownloadResponse.t) :
  DownloadFile fileID versionID w = (w', inr (data, metadata)) ->
  Z.of_nat (length data) + maxChunkSize < 2 ^ 63 ->
  exists msgs msgs',
    Download fileID versionID (w, sent) = ((w', sent ++ msgs), inr tt) /\
    Server.GetVersion fileID versionID (w, sent) = ((w', sent ++ msgs'), inr tt) /\
    chunking data msgs /\ chunking data msgs' /\
    (data = [] -> msgs = [] /\ msgs' = []) /\
    Forall (fun m =>
      DownloadResponse.TotalSize m = Z.of_nat (length data) /\
      DownloadResponse.ContentType m = FileMetadata.ContentType metadata) msgs /\
    Forall (fun m =>
      DownloadResponse.TotalSize m = Z.of_nat (length data) /\
      DownloadResponse.ContentType m = EmptyString) msgs'.
Proof.
  intros Hdown Hlen.
  destruct (send_chunks_list data (Z.of_nat (length data))
              (FileMetadata.ContentType metadata) Hlen
              (Datatypes.S (length data)) 0 sent ltac:(lia) ltac:(lia))
    as (msgs & Hsend & Hcat & Hall & Hfull & Hnil).
  destruct (send_chunks_list data (Z.of_nat (length data)) EmptyString Hlen
              (Datatypes.S (length data)) 0 sent ltac:(lia) ltac:(lia))
    as (msgs' & Hsend' & Hcat' & Hall' & Hfull' & Hnil').
  exists msgs, msgs'. split_and!.
  - unfold Download. by rewrite Hdown, Hsend.
  - unfold Server.GetVersion, Manager.GetVersion, bind. rewrite Hdown.
    cbn [fst ret]. by rewrite Hsend'.
  - split_and!; [done| |done]. eapply Forall_impl; [exact Hall|]. by intros m (_ & _ & ?).
  - split_and!; [done| |done]. eapply Forall_impl; [exact Hall'|]. by intros m (_ & _ & ?).
  - intros ->. split; [apply Hnil|apply Hnil']; cbn; lia.
  - eapply Forall_impl; [exact Hall|]. by intros m (? & ? & _).
  - eapply Forall_impl; [exact Hall'|]. by intros m (? & ? & _).
Qed.

Lemma X22_Download_chunks_witness :
  exists msgs msgs',
    Download "0b9c7f2e-file" EmptyString (test_uploaded, [])
    = ((fst (DownloadFile "0b9c7f2e-file" EmptyString test_uploaded), [] ++ msgs), inr tt) /\
    Server.GetVersion "0b9c7f2e-file" EmptyString (test_uploaded, [])
    = ((fst (DownloadFile "0b9c7f2e-file" EmptyString test_uploaded), [] ++ msgs'), inr tt) /\
    chunking (list_byte_of_string "hello") msgs /\
    chunking (list_byte_of_string "hello") msgs' /\
    (list_byte_of_string "hello" = [] -> msgs = [] /\ msgs' = []) /\
    Forall (fun m =>
      DownloadResponse.TotalSize m = Z.of_nat (length (list_byte_of_string "hello")) /\
      DownloadResponse.ContentType m = FileMetadata.ContentType test_record) msgs /\
    Forall (fun m =>
      DownloadResponse.TotalSize m = Z.of_nat (length (list_byte_of_string "hello")) /\
      DownloadResponse.ContentType m = EmptyString) msgs'.
Proof.
  apply (X22_Download_chunks test_uploaded _ "0b9c7f2e-file" EmptyString
           (list_byte_of_string "hello") test_record []).
  - vm_compute. reflexivity.
  - vm_compute. reflexivity.
Defined.

(** X23: [Upload] hands to the file manager the chunks of all requests
    put together in order, under the file name of the first request that
    has one, with the content type of that same request (when no request
    has a name: no name, and the content type of the last request). When
    the stream breaks, it fails with "error receiving chunk" and nothing
    is uploaded, whatever was received before. The response reports the
    record that the file manager returns; on a record without versions
    the handler panics. *)
Theorem X23_Upload_receives
    {St : Type} `{!Store St} (env : UploadEnv) (stream : UploadStream) (w : World St) :
  let reqs := requests stream in
  let buffer := concat (UploadRequest.Chunk <$> reqs) in
  let filename := from_option UploadRequest.Filename EmptyString (first_named reqs) in
  let contentType :=
    match first_named reqs with
    | Some r => UploadRequest.ContentType r
    | None => from_option UploadRequest.ContentType EmptyString (last reqs)
    end in
  match recv_err stream with
  | Some err =>
      Upload env stream w = (w, inl (WrapError "error receiving chunk" (Some err)))
  | None =>
      let '(w', r) := UploadFile env filename buffer contentType w in
      fst (Upload env stream w) = w' /\
      match r with
      | inl err =>
          exists resp, snd (Upload env stream w) = inr resp /\
            UploadResponse.Success resp = false /\
            UploadResponse.Message resp = Sprintf_v "Upload failed: " err
      | inr metadata =>
          snd (Upload env stream w)
          = match last (FileMetadata.Versions metadata) with
            | None => inl (Panic "index out of range")
            | Some lastv =>
                inr {| UploadResponse.FileId := FileMetadata.FileID metadata;
                       UploadResponse.VersionId := Version.VersionID lastv;
                       UploadResponse.Size := FileMetadata.Size metadata;
                       UploadResponse.NodeLocations := FileMetadata.Replicas metadata;
                       UploadResponse.Success := true;
                       UploadResponse.Message := Text "File uploaded successfully" |}
            end
      end
  end.
Proof.
  intros reqs buffer filename contentType. unfold Upload. fold reqs.
  rewrite receive_unnamed. fold (first_named reqs). cbn [app]. fold buffer.
  assert (match first_named reqs with
          | Some r => (UploadRequest.Filename r, UploadRequest.ContentType r, buffer)
          | None => (EmptyString,
                     from_option UploadRequest.ContentType EmptyString (last reqs), buffer)
          end = (filename, contentType, buffer)) as ->.
  { subst filename contentType. by destruct (first_named reqs). }
  destruct (recv_err stream) as [err|]; [done|].
  unfold bind, attempt.
  destruct (UploadFile env filename buffer contentType w) as [w' [err|metadata]].
  - split; [done|]. by eexists.
  - split.
    + by destruct (FileMetadata.Versions metadata !! _).
    + rewrite last_lookup, <- Nat.sub_1_r.
      by destruct (FileMetadata.Versions metadata !! _).
Qed.

(** X24: over the mock metadata store, with storage directories side
    by side and identifiers that are names (as those minted by
    [uuid.New] are), a file that [Upload] reports as stored comes back from
    [Download] with the fileID of the response (and no version
    identifier, or the one of the response): the chunks sent are a
    chunking of the uploaded chunks put together, with the size of the
    response as total size. *)
Theorem X24_upload_download_stream
    (env : UploadEnv) (stream : UploadStream) (w w' : World MockMetadataStore)
    (resp : UploadResponse.t) (versionID : string) (sent : list DownloadResponse.t) :
  let buffer := concat (UploadRequest.Chunk <$> requests stream) in
  proper_name (env_fileID env) -> proper_name (env_versionID env) ->
  disjoint_storage (nodes (fm w)) ->
  Z.of_nat (length buffer) + maxChunkSize < 2 ^ 63 ->
  Upload env stream w = (w', inr resp) ->
  UploadResponse.Success resp = true ->
  versionID = EmptyString \/ versionID = UploadResponse.VersionId resp ->
  exists w'' msgs,
    Download (UploadResponse.FileId resp) versionID (w', sent)
    = ((w'', sent ++ msgs), inr tt) /\
    chunking buffer msgs /\
    Forall (fun m => DownloadResponse.TotalSize m = UploadResponse.Size resp) msgs /\
    disk w'' = disk w'.
Proof.
  intros buffer Hf Hv Hdisj Hlen Hup Hok Hvid. unfold Upload in Hup.
  rewrite receive_unnamed in Hup. cbn [app] in Hup. fold buffer in Hup.
  set (args := match List.find _ (requests stream) with
               | Some r => _ | None => _ end) in Hup.
  assert (args.2 = buffer) as Hbuf by (subst args; by destruct (List.find _ _)).
  destruct args as [[filename contentType] buffer']. cbn in Hbuf. subst buffer'.
  destruct (recv_err stream) as [err|]; [done|].
  unfold bind, attempt in Hup.
  destruct (UploadFile env filename buffer contentType w) as [w1 [err|metadata]] eqn:Hfile.
  { injection Hup as <- <-. done. }
  destruct (UploadFile_mock_inv _ _ _ _ _ _ _ Hfile)
    as (_ & n1 & rest & _ & _ & Hid & _ & Hvers & _).
  rewrite Hvers in Hup. cbn in Hup. injection Hup as <- <-.
  cbn [UploadResponse.FileId UploadResponse.VersionId UploadResponse.Size] in *.
  destruct (upload_download_mock env filename buffer contentType w w1 metadata versionID
              Hf Hv Hdisj Hfile Hvid) as [_ Hdown].
  rewrite Hid.
  destruct (DownloadFile (env_fileID env) versionID w1) as [w'' r] eqn:Hrun.
  cbn [snd] in Hdown. subst r.
  destruct (send_chunks_list buffer (Z.of_nat (length buffer))
              (FileMetadata.ContentType metadata) Hlen
              (Datatypes.S (length buffer)) 0 sent ltac:(lia) ltac:(lia))
    as (msgs & Hsend & Hcat & Hall & Hfull & Hnil).
  exists w'', msgs. split_and!.
  - unfold Download. by rewrite Hrun, Hsend.
  - split_and!; [done| |done]. eapply Forall_impl; [exact Hall|]. by intros m (_ & _ & ?).
  - eapply Forall_impl; [exact Hall|]. intros m (-> & _ & _).
    unfold UploadFile in Hfile. revert Hfile. unfold bind at 1, gets at 1.
    destruct (_ =? _)%nat; [done|]. unfold bind at 1.
    destruct (store_replicas _ _ _ _ _ w) as [w2 [?|stored]]; [done|].
    destruct (_ =? _)%nat; [done|]. unfold bind, attempt, store_call. cbn.
    by intros [= <- <-].
  - by destruct (DownloadFile_footprint _ _ _ _ _ Hrun) as [? _].
Qed.

Lemma X24_upload_download_stream_witness :
  let up := Upload test_env test_stream test_world in
  let resp := default (UploadResponse.mk EmptyString EmptyString 0 [] true (Text EmptyString))
                (match snd up with inr r => Some r | inl _ => None end) in
  exists w'' msgs,
    Download (UploadResponse.FileId resp) EmptyString (fst up, [])
    = ((w'', [] ++ msgs), inr tt) /\
    chunking (concat (UploadRequest.Chunk <$> requests test_stream)) msgs /\
    Forall (fun m => DownloadResponse.TotalSize m = UploadResponse.Size resp) msgs /\
    disk w'' = disk (fst up).
Proof.
  intros up resp.
  apply (X24_upload_download_stream test_env test_stream test_world (fst up) resp
           EmptyString []).
  - apply (bool_decide_unpack _); vm_compute; exact I.
  - apply (bool_decide_unpack _); vm_compute; exact I.
  - apply (bool_decide_unpack _). vm_compute. exact I.
  - vm_compute. reflexivity.
  - vm_compute. reflexivity.
  - vm_compute. reflexivity.
  - left. reflexivity.
Defined.


